(** * The interactive generation loop of [run.cpp]

    A shallow embedding of [sigint_handler], [set_console_state] and [run]
    (src/run.cpp), with the inference backend kept abstract, followed by
    the properties of the control loop. *)

From Stdlib Require Import ZArith List String Ascii Bool Lia.
Import ListNotations.
Open Scope Z_scope.

(** ** Machine integers

    [int] is a 32-bit two's complement integer and [size_t] a 64-bit
    unsigned one.  Values are kept in [Z]; every store into an [int] goes
    through [to_int], every [size_t] computation through [to_size_t].
    Signed arithmetic is taken to wrap around, as the conversions do. *)

Definition INT_MAX : Z := 2147483647.
Definition INT_MIN : Z := -2147483648.
Definition SIZE_MAX : Z := 18446744073709551615.

Definition to_int (z : Z) : Z := (z + 2147483648) mod 4294967296 - 2147483648.
Definition to_size_t (z : Z) : Z := z mod 18446744073709551616.

Arguments to_int : simpl never.
Arguments to_size_t : simpl never.

Definition size {A : Type} (l : list A) : Z := Z.of_nat (List.length l).
Definition str_length (s : string) : Z := Z.of_nat (String.length s).

(** ** Strings: the operations of [std::string] the loop uses *)

Definition newline : ascii := ascii_of_nat 10.
Definition backslash : ascii := ascii_of_nat 92.
Definition escape : ascii := ascii_of_nat 27.
Definition nl : string := String newline EmptyString.

(** [s.back()] and [s.pop_back()], both used on a non-empty string only. *)
Fixpoint str_back (s : string) : option ascii :=
  match s with
  | EmptyString => None
  | String c EmptyString => Some c
  | String _ t => str_back t
  end.

Fixpoint str_pop_back (s : string) : string :=
  match s with
  | EmptyString => EmptyString
  | String _ EmptyString => EmptyString
  | String c t => String c (str_pop_back t)
  end.

Fixpoint str_drop (n : nat) (s : string) : string :=
  match n, s with
  | O, _ => s
  | S _, EmptyString => EmptyString
  | S k, String _ t => str_drop k t
  end.

(** Scan of [std::string::find]: the lowest index at or after [i] where
    [needle] occurs, [hay] being the part of the text from index [i] on. *)
Fixpoint find_scan (needle hay : string) (i : Z) : option Z :=
  if String.prefix needle hay then Some i
  else match hay with
       | EmptyString => None
       | String _ t => find_scan needle t (i + 1)
       end.

(** [s.find(needle, pos, needle.length())]; [None] is [std::string::npos]. *)
Definition str_find (s needle : string) (pos : Z) : option Z :=
  if str_length s <? pos then None
  else find_scan needle (str_drop (Z.to_nat pos) s) pos.

(** ** Console presentation and the interrupt flag *)

Inductive console_state : Type :=
| CONSOLE_STATE_DEFAULT
| CONSOLE_STATE_PROMPT
| CONSOLE_STATE_USER_INPUT.

Definition console_state_eqb (a b : console_state) : bool :=
  match a, b with
  | CONSOLE_STATE_DEFAULT, CONSOLE_STATE_DEFAULT => true
  | CONSOLE_STATE_PROMPT, CONSOLE_STATE_PROMPT => true
  | CONSOLE_STATE_USER_INPUT, CONSOLE_STATE_USER_INPUT => true
  | _, _ => false
  end.

Definition ANSI_COLOR_RESET : string := String escape "[0m".
Definition ANSI_COLOR_YELLOW : string := String escape "[33m".
Definition ANSI_COLOR_GREEN : string := String escape "[32m".
Definition ANSI_BOLD : string := String escape "[1m".

(** The file-level variables [con_st], [con_use_color], [is_interacting]. *)
Record globals : Type := mkGlobals {
  con_st : console_state;
  con_use_color : bool;
  is_interacting : bool
}.

Definition initial_globals : globals :=
  {| con_st := CONSOLE_STATE_DEFAULT; con_use_color := false;
     is_interacting := false |}.

Inductive file : Type := Outstream | Errstream | Stdout.

Definition color_code (st : console_state) : string :=
  match st with
  | CONSOLE_STATE_DEFAULT => ANSI_COLOR_RESET
  | CONSOLE_STATE_PROMPT => ANSI_COLOR_YELLOW
  | CONSOLE_STATE_USER_INPUT => ANSI_BOLD ++ ANSI_COLOR_GREEN
  end.

(** [set_console_state]: the new globals and the control sequence written
    to the stream, if any. *)
Definition set_console_state (new_st : console_state) (g : globals)
  : globals * option string :=
  if negb (con_use_color g) then (g, None)
  else if negb (console_state_eqb new_st (con_st g)) then
    (mkGlobals new_st (con_use_color g) (is_interacting g),
     Some (color_code new_st))
  else (g, None).

Definition SIGINT : Z := 2.

(** A signal handler either returns to the interrupted program or ends
    the process through [_exit]. *)
Inductive handled : Type :=
| Resumed (g : globals) (out : list string)
| Exited (status : Z) (out : list string).

Definition written (o : option string) : list string :=
  match o with Some t => [t] | None => [] end.

Definition sigint_handler (signo : Z) (g : globals) : handled :=
  let (g1, o) := set_console_state CONSOLE_STATE_DEFAULT g in
  let out := written o ++ [nl] in
  if signo =? SIGINT then
    if negb (is_interacting g1) then
      Resumed (mkGlobals (con_st g1) (con_use_color g1) true) out
    else Exited 130 out
  else Resumed g1 out.

(** [std::getline]: on a stream that is not [good()] the line is left as
    it is; otherwise characters are taken up to the next newline, which
    is dropped, or up to the end of the input, which ends [good()]. *)
Record istream : Type := mkIstream {
  buf : string;
  good : bool
}.

Fixpoint split_line (s : string) : option (string * string) :=
  match s with
  | EmptyString => None
  | String c t =>
      if Ascii.eqb c newline then Some (EmptyString, t)
      else match split_line t with
           | Some (l, r) => Some (String c l, r)
           | None => None
           end
  end.

Definition getline (i : istream) (line : string) : istream * string :=
  if good i then
    match split_line (buf i) with
    | Some (l, rest) => (mkIstream rest true, l)
    | None => (mkIstream EmptyString false, buf i)
    end
  else (i, line).

(** [v.back()], undefined on an empty vector. *)
Fixpoint back {A : Type} (l : list A) : option A :=
  match l with
  | [] => None
  | [x] => Some x
  | _ :: t => back t
  end.

(** ** The backend, as [run] consumes it ([llama.h], [utils.h])

    The context is threaded through the calls that change it.
    [zero_logit c i] is the context after [llama_get_logits(c)[i] = 0]. *)

Class Backend : Type := {
  llama_context : Type;
  float : Type;
  float_of_int : Z -> float;
  time_now : Z;
  gpt_random_prompt : Z -> string;
  llama_eval : llama_context -> list Z -> Z -> Z -> Z * llama_context;
  llama_tokenize : llama_context -> string -> bool -> list Z;
  llama_n_ctx : llama_context -> Z;
  llama_token_to_str : llama_context -> Z -> string;
  llama_token_eos : Z;
  zero_logit : llama_context -> Z -> llama_context;
  llama_sample_top_p_top_k :
    llama_context -> list Z -> float -> float -> float -> float ->
    Z * llama_context
}.

Section Driver.

Context {B : Backend}.

(** Messages of [run] on its error stream, with their arguments. *)
Inductive diag : Type :=
| DSeed (seed : Z)
| DNewline
| DPrompt (prompt : string)
| DPromptCount (n : Z)
| DPromptToken (id : Z) (text : string)
| DInteractiveOn
| DReversePrompt (antiprompt : string)
| DSampling (temp : float) (top_k : Z) (top_p : float) (repeat_last_n : Z)
    (repeat_penalty : float)
| DInteractiveHelp
| DEvalFailed
| DEndOfText.

(** The fields of [gpt_params] that [run] reads. *)
Record gpt_params : Type := mkParams {
  seed : Z;
  n_threads : Z;
  n_predict : Z;
  repeat_last_n : Z;
  n_batch : Z;
  top_k : Z;
  top_p : float;
  temp : float;
  repeat_penalty : float;
  prompt : string;
  antiprompt : list string;
  random_prompt : bool;
  use_color : bool;
  interactive : bool;
  interactive_start : bool;
  instruct : bool;
  ignore_eos : bool;
  perplexity : bool
}.

(** What the run observes and does, in order. *)
Inductive event : Type :=
| EvEval (tokens : list Z) (n_past : Z) (ret : Z)
| EvSample (window : list Z) (id : Z)
| EvGetline (line : string)
| EvWrite (f : file) (text : string)
| EvFlush
| EvDiag (d : diag)
| EvSigaction
| EvTimings
| EvFree.

(** The local variables of [run], the globals, the backend context, the
    input stream and the events so far. *)
Record state : Type := mkState {
  ctx : llama_context;
  params : gpt_params;
  inp_pfx : list Z;
  inp_sfx : list Z;
  n_past : Z;
  embd_inp : list Z;
  embd : list Z;
  last_n_tokens : list Z;
  input_consumed : Z;
  input_noecho : bool;
  remaining_tokens : Z;
  glob : globals;
  instream : istream;
  trace : list event
}.

Definition set_ctx (v : llama_context) (s : state) : state :=
  mkState v (params s) (inp_pfx s) (inp_sfx s) (n_past s) (embd_inp s)
    (embd s) (last_n_tokens s) (input_consumed s) (input_noecho s)
    (remaining_tokens s) (glob s) (instream s) (trace s).
Definition set_n_past (v : Z) (s : state) : state :=
  mkState (ctx s) (params s) (inp_pfx s) (inp_sfx s) v (embd_inp s)
    (embd s) (last_n_tokens s) (input_consumed s) (input_noecho s)
    (remaining_tokens s) (glob s) (instream s) (trace s).
Definition set_embd_inp (v : list Z) (s : state) : state :=
  mkState (ctx s) (params s) (inp_pfx s) (inp_sfx s) (n_past s) v
    (embd s) (last_n_tokens s) (input_consumed s) (input_noecho s)
    (remaining_tokens s) (glob s) (instream s) (trace s).
Definition set_embd (v : list Z) (s : state) : state :=
  mkState (ctx s) (params s) (inp_pfx s) (inp_sfx s) (n_past s) (embd_inp s)
    v (last_n_tokens s) (input_consumed s) (input_noecho s)
    (remaining_tokens s) (glob s) (instream s) (trace s).
Definition set_last_n_tokens (v : list Z) (s : state) : state :=
  mkState (ctx s) (params s) (inp_pfx s) (inp_sfx s) (n_past s) (embd_inp s)
    (embd s) v (input_consumed s) (input_noecho s)
    (remaining_tokens s) (glob s) (instream s) (trace s).
Definition set_input_consumed (v : Z) (s : state) : state :=
  mkState (ctx s) (params s) (inp_pfx s) (inp_sfx s) (n_past s) (embd_inp s)
    (embd s) (last_n_tokens s) v (input_noecho s)
    (remaining_tokens s) (glob s) (instream s) (trace s).
Definition set_input_noecho (v : bool) (s : state) : state :=
  mkState (ctx s) (params s) (inp_pfx s) (inp_sfx s) (n_past s) (embd_inp s)
    (embd s) (last_n_tokens s) (input_consumed s) v
    (remaining_tokens s) (glob s) (instream s) (trace s).
Definition set_remaining_tokens (v : Z) (s : state) : state :=
  mkState (ctx s) (params s) (inp_pfx s) (inp_sfx s) (n_past s) (embd_inp s)
    (embd s) (last_n_tokens s) (input_consumed s) (input_noecho s)
    v (glob s) (instream s) (trace s).
Definition set_glob (v : globals) (s : state) : state :=
  mkState (ctx s) (params s) (inp_pfx s) (inp_sfx s) (n_past s) (embd_inp s)
    (embd s) (last_n_tokens s) (input_consumed s) (input_noecho s)
    (remaining_tokens s) v (instream s) (trace s).
Definition set_instream (v : istream) (s : state) : state :=
  mkState (ctx s) (params s) (inp_pfx s) (inp_sfx s) (n_past s) (embd_inp s)
    (embd s) (last_n_tokens s) (input_consumed s) (input_noecho s)
    (remaining_tokens s) (glob s) v (trace s).
Definition set_trace (v : list event) (s : state) : state :=
  mkState (ctx s) (params s) (inp_pfx s) (inp_sfx s) (n_past s) (embd_inp s)
    (embd s) (last_n_tokens s) (input_consumed s) (input_noecho s)
    (remaining_tokens s) (glob s) (instream s) v.

Definition emit (e : event) (s : state) : state :=
  set_trace (trace s ++ [e]) s.

Definition set_is_interacting (b : bool) (s : state) : state :=
  set_glob (mkGlobals (con_st (glob s)) (con_use_color (glob s)) b) s.

(** ** Control flow of the loop body *)

Inductive outcome : Type :=
| Next (s : state)
| Break (s : state)
| Return (code : Z) (s : state)
| Undefined (s : state)
| AssertFailed (s : state)
| Thrown (s : state)
| OutOfFuel (s : state).

Definition and_then (o : outcome) (k : state -> outcome) : outcome :=
  match o with
  | Next s => k s
  | _ => o
  end.

Notation "o >>= k" := (and_then o k) (at level 50, left associativity).

(** A call of [set_console_state] on the output stream of [run]. *)
Definition console (new_st : console_state) (s : state) : state :=
  let (g, o) := set_console_state new_st (glob s) in
  match o with
  | Some code => emit (EvWrite Outstream code) (set_glob g s)
  | None => set_glob g s
  end.

(** Lines 210-218: submit the batch of the previous iteration. *)
Definition predict (s : state) : outcome :=
  (if 0 <? size (embd s) then
     let (ret, c) :=
       llama_eval (ctx s) (embd s) (n_past s) (n_threads (params s)) in
     let s1 := emit (EvEval (embd s) (n_past s) ret) (set_ctx c s) in
     if ret =? 0 then Next s1
     else Return 1 (emit (EvDiag DEvalFailed) s1)
   else Next s)
  >>= fun s1 =>
  Next (set_embd []
          (set_n_past
             (to_int (to_size_t (to_size_t (n_past s1) + size (embd s1))))
             s1)).

(** Lines 221-253: the queue is drained, one token is sampled.  The
    [assert] of line 236 is taken as compiled in; [erase] on an empty
    window is undefined behaviour. *)
Definition sample_next (s : state) : outcome :=
  let p := params s in
  (if ignore_eos p then
     if perplexity p then AssertFailed s
     else Next (set_ctx (zero_logit (ctx s) llama_token_eos) s)
   else Next s)
  >>= fun s1 =>
  let (id, c) :=
    llama_sample_top_p_top_k (ctx s1) (last_n_tokens s1)
      (float_of_int (top_k p)) (top_p p) (temp p) (repeat_penalty p) in
  let s2 := emit (EvSample (last_n_tokens s1) id) (set_ctx c s1) in
  match last_n_tokens s2 with
  | [] => Undefined s2
  | _ :: w =>
      let s3 := set_last_n_tokens (w ++ [id]) s2 in
      let s4 := set_embd (embd s3 ++ [id]) s3 in
      let s5 := set_input_noecho false s4 in
      Next (set_remaining_tokens (to_int (remaining_tokens s5 - 1)) s5)
  end.

(** Lines 256-264: pending tokens are forwarded, up to [n_batch].  An
    index outside the queue and [erase] on an empty window are undefined
    behaviour; [fuel] bounds the number of passes. *)
Fixpoint forward (fuel : nat) (s : state) : outcome :=
  if to_int (size (embd_inp s)) >? input_consumed s then
    match fuel with
    | O => OutOfFuel s
    | S k =>
        if input_consumed s <? 0 then Undefined s
        else
          match nth_error (embd_inp s) (Z.to_nat (input_consumed s)) with
          | None => Undefined s
          | Some t =>
              let s1 := set_embd (embd s ++ [t]) s in
              match last_n_tokens s1 with
              | [] => Undefined s1
              | _ :: w =>
                  let s2 := set_last_n_tokens (w ++ [t]) s1 in
                  let s3 :=
                    set_input_consumed (to_int (input_consumed s2 + 1)) s2 in
                  if to_int (size (embd s3)) >=? n_batch (params s3)
                  then Next s3
                  else forward k s3
              end
          end
    end
  else Next s.

(** Lines 220-265. *)
Definition fill (s : state) : outcome :=
  if to_int (size (embd_inp s)) <=? input_consumed s then sample_next s
  else forward (S (List.length (embd_inp s))) s.

(** Lines 267-277. *)
Definition display (s : state) : state :=
  let s1 :=
    if negb (input_noecho s) then
      emit EvFlush
        (fold_left
           (fun a id =>
              emit (EvWrite Outstream (llama_token_to_str (ctx a) id)) a)
           (embd s) s)
    else s in
  if negb (input_noecho s1)
     && (to_int (size (embd_inp s1)) =? input_consumed s1)
  then console CONSOLE_STATE_DEFAULT s1
  else s1.

(** Line 290: does [last_output] end with [antiprompt]? *)
Definition antiprompt_found (last_output antiprompt : string) : bool :=
  match str_find last_output antiprompt
          (to_size_t (str_length last_output - str_length antiprompt)) with
  | Some _ => true
  | None => false
  end.

(** Lines 289-294: the flag after the scan of the reverse prompts. *)
Fixpoint check_antiprompts (last_output : string) (l : list string)
  (flag : bool) : bool :=
  match l with
  | [] => flag
  | a :: t =>
      if antiprompt_found last_output a then true
      else check_antiprompts last_output t flag
  end.

(** Lines 283-286. *)
Definition render (c : llama_context) (l : list Z) : string :=
  fold_left (fun acc id => acc ++ llama_token_to_str c id)%string
    l EmptyString.

(** Lines 306-317: read lines as long as they end in a backslash. *)
Fixpoint read_lines (fuel : nat) (s : state) (line buffer : string)
  : option (state * string) :=
  match fuel with
  | O => None
  | S k =>
      let (i, line1) := getline (instream s) line in
      let s1 := emit (EvGetline line1) (set_instream i s) in
      match str_back line1 with
      | None => Some (s1, (buffer ++ line1 ++ nl)%string)
      | Some c =>
          if Ascii.eqb c backslash then
            let line2 := str_pop_back line1 in
            read_lines k s1 line2 (buffer ++ line2 ++ nl)%string
          else Some (s1, (buffer ++ line1 ++ nl)%string)
      end
  end.

(** Lines 295-332: the user is asked for input. *)
Definition solicit (s : state) : outcome :=
  let s1 := console CONSOLE_STATE_USER_INPUT s in
  let s2 :=
    if instruct (params s1) then
      let s' := set_input_consumed (to_int (size (embd_inp s1))) s1 in
      emit (EvWrite Outstream (nl ++ "> "))
        (set_embd_inp (embd_inp s' ++ inp_pfx s') s')
    else s1 in
  match read_lines (S (String.length (buf (instream s2)))) s2
          EmptyString EmptyString with
  | None => OutOfFuel s2
  | Some (s3, buffer) =>
      let s4 := console CONSOLE_STATE_DEFAULT s3 in
      let line_inp := llama_tokenize (ctx s4) buffer false in
      let s5 := set_embd_inp (embd_inp s4 ++ line_inp) s4 in
      let s6 :=
        if instruct (params s5)
        then set_embd_inp (embd_inp s5 ++ inp_sfx s5) s5
        else s5 in
      let s7 :=
        set_remaining_tokens
          (to_int
             (to_size_t (to_size_t (remaining_tokens s6) - size line_inp)))
          s6 in
      Next (set_input_noecho true s7)
  end.

(** Lines 279-334. *)
Definition interact (s : state) : outcome :=
  if interactive (params s)
     && (to_int (size (embd_inp s)) <=? input_consumed s)
  then
    let last_output := render (ctx s) (last_n_tokens s) in
    let s1 :=
      set_is_interacting
        (check_antiprompts last_output (antiprompt (params s))
           (is_interacting (glob s))) s in
    (if is_interacting (glob s1) then solicit s1 else Next s1)
    >>= fun s2 => Next (set_is_interacting false s2)
  else Next s.

(** Lines 336-344. *)
Definition eos_check (s : state) : outcome :=
  match back (embd s) with
  | None => Undefined s
  | Some t =>
      if t =? llama_token_eos then
        if interactive (params s) then Next (set_is_interacting true s)
        else Break (emit (EvDiag DEndOfText) s)
      else Next s
  end.

(** Lines 346-350. *)
Definition refill (s : state) : state :=
  if interactive (params s) && (remaining_tokens s <=? 0) then
    set_is_interacting true
      (set_remaining_tokens (n_predict (params s)) s)
  else s.

(** The state in which line 337 reads [embd.back()]. *)
Definition before_eos_check (s : state) : outcome :=
  predict s >>= fill >>= fun s1 => interact (display s1).

(** One pass through the body of the [while] loop. *)
Definition iteration (s : state) : outcome :=
  before_eos_check s >>= eos_check >>= fun s1 => Next (refill s1).

(** Lines 353-363. *)
Definition finish (s : state) : outcome :=
  Return 0 (console CONSOLE_STATE_DEFAULT (emit EvFree (emit EvTimings s))).

Definition loop_condition (s : state) : bool :=
  (remaining_tokens s >? 0) || interactive (params s).

(** Lines 208-363: the loop, then the epilogue. *)
Fixpoint run_loop (fuel : nat) (s : state) : outcome :=
  match fuel with
  | O => OutOfFuel s
  | S k =>
      if loop_condition s then
        match iteration s with
        | Next s1 => run_loop k s1
        | Break s1 => finish s1
        | o => o
        end
      else finish s
  end.

(** ** The prelude of [run], lines 89-206 *)

Definition with_seed (v : Z) (p : gpt_params) : gpt_params :=
  mkParams v (n_threads p) (n_predict p) (repeat_last_n p) (n_batch p)
    (top_k p) (top_p p) (temp p) (repeat_penalty p) (prompt p)
    (antiprompt p) (random_prompt p) (use_color p) (interactive p)
    (interactive_start p) (instruct p) (ignore_eos p) (perplexity p).
Definition with_prompt (v : string) (p : gpt_params) : gpt_params :=
  mkParams (seed p) (n_threads p) (n_predict p) (repeat_last_n p) (n_batch p)
    (top_k p) (top_p p) (temp p) (repeat_penalty p) v
    (antiprompt p) (random_prompt p) (use_color p) (interactive p)
    (interactive_start p) (instruct p) (ignore_eos p) (perplexity p).
Definition with_n_predict (v : Z) (p : gpt_params) : gpt_params :=
  mkParams (seed p) (n_threads p) v (repeat_last_n p) (n_batch p)
    (top_k p) (top_p p) (temp p) (repeat_penalty p) (prompt p)
    (antiprompt p) (random_prompt p) (use_color p) (interactive p)
    (interactive_start p) (instruct p) (ignore_eos p) (perplexity p).
Definition with_antiprompt (v : list string) (p : gpt_params) : gpt_params :=
  mkParams (seed p) (n_threads p) (n_predict p) (repeat_last_n p) (n_batch p)
    (top_k p) (top_p p) (temp p) (repeat_penalty p) (prompt p)
    v (random_prompt p) (use_color p) (interactive p)
    (interactive_start p) (instruct p) (ignore_eos p) (perplexity p).
Definition with_interactive (v : bool) (p : gpt_params) : gpt_params :=
  mkParams (seed p) (n_threads p) (n_predict p) (repeat_last_n p) (n_batch p)
    (top_k p) (top_p p) (temp p) (repeat_penalty p) (prompt p)
    (antiprompt p) (random_prompt p) (use_color p) v
    (interactive_start p) (instruct p) (ignore_eos p) (perplexity p).

Definition instruction_marker : string := "### Instruction:" ++ nl ++ nl.
Definition instruct_prefix : string := nl ++ nl ++ instruction_marker.
Definition instruct_suffix : string := nl ++ nl ++ "### Response:" ++ nl ++ nl.

(** Lines 130-143: the modes that imply interactive mode. *)
Definition resolve_modes (p : gpt_params) : gpt_params :=
  let p1 :=
    if instruct p then
      with_antiprompt (antiprompt p ++ [instruction_marker])
        (with_interactive true p)
    else p in
  let p2 :=
    if negb (size (antiprompt p1) =? 0) then with_interactive true p1
    else p1 in
  if interactive_start p2 then with_interactive true p2 else p2.

(** Lines 89-98. *)
Definition choose_seed_and_prompt (p : gpt_params) : gpt_params :=
  let p1 := if seed p <=? 0 then with_seed (to_int time_now) p else p in
  if random_prompt p1 then with_prompt (gpt_random_prompt (seed p1)) p1
  else p1.

(** The state in which the loop is entered, or the exception of the
    vector constructor of line 177 on a negative [repeat_last_n]. *)
Definition run_init (c : llama_context) (p0 : gpt_params) (i : istream)
  (g0 : globals) : outcome :=
  let p1 := choose_seed_and_prompt p0 in
  let g1 := mkGlobals (con_st g0) (use_color p1) (is_interacting g0) in
  let (ret, c1) := llama_eval c [0; 1; 2; 3] 0 (n_threads p1) in
  let p2 := with_prompt (String " " (prompt p1)) p1 in
  let inp := llama_tokenize c1 (prompt p2) true in
  let n_ctx := llama_n_ctx c1 in
  let p3 :=
    with_n_predict
      (Z.min (n_predict p2) (to_int (n_ctx - to_int (size inp)))) p2 in
  let pfx := llama_tokenize c1 instruct_prefix true in
  let sfx := llama_tokenize c1 instruct_suffix false in
  let p := resolve_modes p3 in
  let t1 :=
    [EvDiag (DSeed (seed p1)); EvEval [0; 1; 2; 3] 0 ret;
     EvDiag DNewline; EvDiag (DPrompt (prompt p));
     EvDiag (DPromptCount (size inp))]
    ++ map (fun id => EvDiag (DPromptToken id (llama_token_to_str c1 id))) inp
    ++ [EvDiag DNewline] in
  let t2 :=
    if interactive p then
      [EvSigaction; EvDiag DInteractiveOn]
      ++ map (fun a => EvDiag (DReversePrompt a)) (antiprompt p)
    else [] in
  let t3 :=
    [EvDiag (DSampling (temp p) (top_k p) (top_p p) (repeat_last_n p)
               (repeat_penalty p));
     EvDiag DNewline] in
  let s0 :=
    mkState c1 p pfx sfx 0 inp [] [] 0 false (n_predict p) g1 i
      (t1 ++ t2 ++ t3) in
  if repeat_last_n p <? 0 then Thrown s0
  else
    let s1 :=
      set_last_n_tokens (repeat 0 (Z.to_nat (repeat_last_n p))) s0 in
    let s2 :=
      if interactive p then
        set_is_interacting (interactive_start p)
          (emit (EvDiag DInteractiveHelp) s1)
      else s1 in
    Next (console CONSOLE_STATE_PROMPT s2).

(** [run]: prelude, loop and epilogue; [fuel] bounds the number of loop
    iterations. *)
Definition run (fuel : nat) (c : llama_context) (p : gpt_params)
  (i : istream) (g : globals) : outcome :=
  run_init c p i g >>= run_loop fuel.

End Driver.

Notation "o >>= k" := (and_then o k) (at level 50, left associativity).

(** ** A stub backend

    A byte-level tokenizer (token [c + 3] for the character of code [c],
    [1] for the beginning-of-sequence marker, [2] for end-of-sequence), a
    sampler that replays a script and then repeats a default token, and an
    evaluator that replays a list of return codes and then succeeds. *)

Record stub_context : Type := mkStub {
  samples : list Z;
  default_sample : Z;
  eval_results : list Z
}.

Definition stub_eval (c : stub_context) (tokens : list Z) (n_past n_threads : Z)
  : Z * stub_context :=
  match eval_results c with
  | [] => (0, c)
  | r :: t => (r, mkStub (samples c) (default_sample c) t)
  end.

Definition stub_sample (c : stub_context) (window : list Z)
  (top_k top_p temp repeat_penalty : Z) : Z * stub_context :=
  match samples c with
  | [] => (default_sample c, c)
  | t :: r => (t, mkStub r (default_sample c) (eval_results c))
  end.

Definition stub_tokenize (c : stub_context) (text : string) (bos : bool)
  : list Z :=
  (if bos then [1] else [])
  ++ map (fun ch => Z.of_nat (nat_of_ascii ch) + 3) (list_ascii_of_string text).

Definition stub_token_to_str (c : stub_context) (id : Z) : string :=
  if (3 <=? id) && (id <? 259)
  then String (ascii_of_nat (Z.to_nat (id - 3))) EmptyString
  else EmptyString.

Definition stub : Backend :=
  {| llama_context := stub_context;
     float := Z;
     float_of_int := fun z => z;
     time_now := 1;
     gpt_random_prompt := fun _ => EmptyString;
     llama_eval := stub_eval;
     llama_tokenize := stub_tokenize;
     llama_n_ctx := fun _ => 512;
     llama_token_to_str := stub_token_to_str;
     llama_token_eos := 2;
     zero_logit := fun c _ => c;
     llama_sample_top_p_top_k := stub_sample |}.

Definition stub_params : @gpt_params stub :=
  @mkParams stub 1 4 128 64 8 40 95 80 130 "Hi" [] false false false false
    false false false.

(** The events of a run that matter for scheduling. *)
Inductive mark : Type := MSample | MEval | MInput.

Definition marks {B : Backend} (t : list event) : list mark :=
  flat_map
    (fun e =>
       match e with
       | EvSample _ _ => [MSample]
       | EvEval _ _ _ => [MEval]
       | EvGetline _ => [MInput]
       | _ => []
       end) t.

Definition outcome_state {B : Backend} (o : outcome) : state :=
  match o with
  | Next s | Break s | Return _ s | Undefined s | AssertFailed s | Thrown s
  | OutOfFuel s => s
  end.

(** ** Vocabulary of the properties *)

(** What no phase of the loop changes: the parameters, the instruct-mode
    markers, and the length of the repetition window. *)
Definition same_session {B : Backend} (s s' : state) : Prop :=
  params s' = params s /\ inp_pfx s' = inp_pfx s /\ inp_sfx s' = inp_sfx s
  /\ List.length (last_n_tokens s') = List.length (last_n_tokens s).

(** The loop states of a session that started in [s0]. *)
Inductive reachable {B : Backend} (s0 : state) : state -> Prop :=
| reach_start : reachable s0 s0
| reach_next (s s' : state) :
    reachable s0 s -> loop_condition s = true -> iteration s = Next s' ->
    reachable s0 s'.

(** Case folding of the letters A-Z, for the statement on case
    sensitivity. *)
Definition lower_char (c : ascii) : ascii :=
  let n := nat_of_ascii c in
  if ((65 <=? n) && (n <=? 90))%nat then ascii_of_nat (n + 32) else c.

Fixpoint lower (s : string) : string :=
  match s with
  | EmptyString => EmptyString
  | String c t => String (lower_char c) (lower t)
  end.

Definition differs_only_in_case (x y : string) : Prop :=
  x <> y /\ lower x = lower y.

(** [tail] is what [text] ends with. *)
Definition ends_with (text tail : string) : Prop :=
  exists front : string, text = (front ++ tail)%string.

(** ** Concrete sessions on the stub backend *)

(** A backend whose evaluator always succeeds and whose sampler always
    returns the end-of-sequence token. *)
Definition eos_stub : Backend :=
  {| llama_context := stub_context;
     float := Z;
     float_of_int := fun z => z;
     time_now := 1;
     gpt_random_prompt := fun _ => EmptyString;
     llama_eval := fun c _ _ _ => (0, c);
     llama_tokenize := stub_tokenize;
     llama_n_ctx := fun _ => 512;
     llama_token_to_str := stub_token_to_str;
     llama_token_eos := 2;
     zero_logit := fun c _ => c;
     llama_sample_top_p_top_k := fun c _ _ _ _ _ => (2, c) |}.

Definition stub_context0 : stub_context := mkStub [] 50 [].

Definition hello_input : istream := mkIstream ("hello" ++ nl) true.

(** Prompt "Hi", batches of 8, a budget of 128, not interactive. *)
Definition stub_start : @state stub :=
  outcome_state
    (@run_init stub stub_context0 stub_params hello_input initial_globals).

(** The same session, interactive, with a budget of 3. *)
Definition budget_params : @gpt_params stub :=
  @with_interactive stub true (@with_n_predict stub 3 stub_params).

(** A session whose prompt is the reverse prompt itself, at the check
    that follows the forwarding of the prompt. *)
Definition reverse_params : @gpt_params stub :=
  @mkParams stub 1 4 128 64 64 40 95 80 130 instruction_marker
    [instruction_marker] false false false false false false false.

Definition reverse_checked : @state stub :=
  let s0 :=
    outcome_state
      (@run_init stub stub_context0 reverse_params hello_input
         initial_globals) in
  @display stub (outcome_state (@predict stub s0 >>= @fill stub)).

(** An instruct-mode session that starts by asking for input, at the
    check that follows the forwarding of the prompt. *)
Definition instruct_params : @gpt_params stub :=
  @mkParams stub 1 4 128 64 8 40 95 80 130 "Hi" [] false false false true
    true false false.

Definition instruct_start : @state stub :=
  outcome_state
    (@run_init stub stub_context0 instruct_params hello_input
       initial_globals).

Definition instruct_checked : @state stub :=
  @display stub (outcome_state (@predict stub instruct_start >>= @fill stub)).

(** A session whose second evaluation fails, at the head of the
    iteration that submits the prompt. *)
Definition failing_context : stub_context := mkStub [] 50 [0; 7].

Definition failing_batch : @state stub :=
  outcome_state
    (@run_loop stub 1
       (outcome_state
          (@run_init stub failing_context stub_params hello_input
             initial_globals))).

Definition eos_params : @gpt_params eos_stub :=
  @mkParams eos_stub 1 4 128 64 8 40 95 80 130 "Hi" [] false false false
    false false false false.

Definition eos_interactive : @state eos_stub :=
  outcome_state
    (@run_init eos_stub stub_context0
       (@with_interactive eos_stub true eos_params) hello_input
       initial_globals).

Section Vocabulary.

Context {B : Backend}.

(** What is left to read: nothing once the stream is no longer good. *)
Definition pending_chars (i : istream) : nat :=
  if good i then String.length (buf i) else O.

Definition out_of_fuel (o : outcome) : Prop :=
  match o with OutOfFuel _ => True | _ => False end.

(** [o] continues the trace of [s] with events whose marks satisfy [P]. *)
Definition steps (P : list mark -> Prop) (s : state) (o : outcome) : Prop :=
  exists t, trace (outcome_state o) = trace s ++ t /\ P (marks t).

Definition eval_marks (s : state) (m : list mark) : Prop :=
  (embd s = [] /\ m = []) \/ (embd s <> [] /\ m = [MEval]).

Definition drained (s : state) : bool :=
  to_int (size (embd_inp s)) <=? input_consumed s.

Definition fill_marks (s : state) (m : list mark) : Prop :=
  (m = [] /\ (drained s = true -> ignore_eos (params s) = true))
  \/ (m = [MSample] /\ drained s = true).

Definition input_marks (m : list mark) : Prop := Forall (eq MInput) m.

Definition sample_marks (s : state) (m : list mark) : Prop :=
  m = [] \/ (m = [MSample] /\ drained s = true).

Definition iteration_marks (s : state) (m : list mark) : Prop :=
  exists me ms mi,
    m = me ++ ms ++ mi
    /\ eval_marks s me /\ sample_marks s ms /\ input_marks mi.

(** The states in which an iteration that starts in [s], and the loop
    run from [s] with any [fuel], can be observed. *)
Definition observation_points (fuel : nat) (s : state) : list outcome :=
  [Next s; predict s; predict s >>= fill; before_eos_check s;
   before_eos_check s >>= eos_check; iteration s; run_loop fuel s].

(** A non-interactive session with budget left, whose pending tokens
    hold no end-of-sequence token. *)
Definition eos_ready (s : state) : Prop :=
  interactive (params s) = false
  /\ 0 < remaining_tokens s
  /\ last_n_tokens s <> []
  /\ (ignore_eos (params s) = true -> perplexity (params s) = false)
  /\ 0 <= input_consumed s <= size (embd_inp s)
  /\ size (embd_inp s) <= INT_MAX
  /\ Forall (fun t => t <> llama_token_eos)
       (skipn (Z.to_nat (input_consumed s)) (embd_inp s)).

(** An outcome that is neither the normal end of the loop nor a return
    other than the one of a failed evaluation. *)
Definition no_normal_exit (o : outcome) : Prop :=
  match o with
  | Break _ => False
  | Return code _ => code = 1
  | _ => True
  end.

End Vocabulary.

(** ** Vocabulary of the further properties *)

(** Does the text contain a newline? *)
Fixpoint has_newline (s : string) : bool :=
  match s with
  | EmptyString => false
  | String c t => Ascii.eqb c newline || has_newline t
  end.

(** The text of the lines a user types to continue an input: each of
    [ls] followed by a backslash and a newline. *)
Fixpoint continued (ls : list string) : string :=
  match ls with
  | [] => EmptyString
  | l :: t => (l ++ String backslash nl ++ continued t)%string
  end.

(** The same lines as the loop joins them: each followed by a newline. *)
Fixpoint joined (ls : list string) : string :=
  match ls with
  | [] => EmptyString
  | l :: t => (l ++ nl ++ joined t)%string
  end.

Section MoreVocabulary.

Context {B : Backend}.

(** The tokens that the evaluation calls of a trace have submitted. *)
Definition fed (t : list event) : list Z :=
  flat_map (fun e => match e with EvEval tokens _ _ => tokens | _ => [] end)
    t.

(** Every evaluation of the trace was made at the position that is the
    number of tokens submitted before it, [n] at the start. *)
Fixpoint positions_from (n : Z) (t : list event) : Prop :=
  match t with
  | [] => True
  | EvEval tokens pos _ :: r =>
      pos = to_int n /\ positions_from (n + size tokens) r
  | _ :: r => positions_from n r
  end.

(** The outcome has the queue of [s], possibly with tokens appended. *)
Definition extends_queue (s : state) (o : outcome) : Prop :=
  exists l, embd_inp (outcome_state o) = embd_inp s ++ l.

End MoreVocabulary.

(** The texts written to the output stream, in their order. *)
Definition shown {B : Backend} (t : list event) : list string :=
  flat_map
    (fun e => match e with EvWrite Outstream x => [x] | _ => [] end) t.

(** ** More concrete sessions *)

(** A backend whose evaluator always succeeds and whose sampler always
    returns the token 50, which is not the end-of-sequence token. *)
Definition steady_stub : Backend :=
  {| llama_context := stub_context;
     float := Z;
     float_of_int := fun z => z;
     time_now := 1;
     gpt_random_prompt := fun _ => EmptyString;
     llama_eval := fun c _ _ _ => (0, c);
     llama_tokenize := stub_tokenize;
     llama_n_ctx := fun _ => 512;
     llama_token_to_str := stub_token_to_str;
     llama_token_eos := 2;
     zero_logit := fun c _ => c;
     llama_sample_top_p_top_k := fun c _ _ _ _ _ => (50, c) |}.

(** Prompt "Hi", batches of 8, a budget of 3, not interactive. *)
Definition steady_params : @gpt_params steady_stub :=
  @mkParams steady_stub 1 4 3 64 8 40 95 80 130 "Hi" [] false false false
    false false false false.

(** The session of [stub_start] two iterations later: the prompt has
    been forwarded and evaluated, one token has been sampled. *)
Definition stub_second : @state stub :=
  outcome_state (@run_loop stub 2 stub_start).

(** A user who types "ab", continues the line with a backslash, types
    "cd" and goes on with other text. *)
Definition continued_input : istream :=
  mkIstream (continued ["ab"%string] ++ "cd" ++ nl ++ "rest") true.

Definition continued_session : @state stub :=
  @set_instream stub continued_input stub_start.

(** A session whose input has been closed. *)
Definition closed_session : @state stub :=
  @set_instream stub (mkIstream EmptyString false) stub_start.

(** The parameters of [stub_start] with a budget of 0. *)
Definition no_budget_params : @gpt_params stub :=
  @with_n_predict stub 0 stub_params.

(** ** Machine arithmetic *)

Lemma to_int_id (z : Z) : INT_MIN <= z <= INT_MAX -> to_int z = z.
Proof.
  unfold INT_MIN, INT_MAX, to_int. intros H.
  rewrite Z.mod_small by lia. lia.
Qed.

Lemma to_int_range (z : Z) : INT_MIN <= to_int z <= INT_MAX.
Proof.
  unfold INT_MIN, INT_MAX, to_int.
  pose proof (Z.mod_pos_bound (z + 2147483648) 4294967296 ltac:(lia)). lia.
Qed.

Lemma to_int_le (z : Z) : 0 <= z -> to_int z <= z.
Proof.
  unfold to_int. intros H.
  pose proof (Z.mod_le (z + 2147483648) 4294967296 ltac:(lia) ltac:(lia)).
  lia.
Qed.

Lemma to_int_size_t_sub (a b : Z) :
  to_int (to_size_t (to_size_t a - b)) = to_int (a - b).
Proof.
  unfold to_int, to_size_t. f_equal.
  rewrite (Z.mod_eq (a mod _ - b)), (Z.mod_eq a) by lia.
  set (q1 := a / 18446744073709551616).
  set (q2 := (a - 18446744073709551616 * q1 - b) / 18446744073709551616).
  replace (a - 18446744073709551616 * q1 - b - 18446744073709551616 * q2
           + 2147483648)
    with (a - b + 2147483648 + (- 4294967296 * (q1 + q2)) * 4294967296)
    by lia.
  apply Z_mod_plus_full.
Qed.

Lemma to_int_size_t (z : Z) : to_int (to_size_t z) = to_int z.
Proof.
  unfold to_int, to_size_t. f_equal.
  rewrite (Z.mod_eq z 18446744073709551616) by lia.
  set (q := z / 18446744073709551616).
  replace (z - 18446744073709551616 * q + 2147483648)
    with (z + 2147483648 + (- 4294967296 * q) * 4294967296) by lia.
  apply Z_mod_plus_full.
Qed.

Lemma to_int_size_t_add (a b : Z) :
  to_int (to_size_t (to_size_t a + b)) = to_int (a + b).
Proof.
  replace (to_size_t a + b) with (to_size_t a - (- b)) by lia.
  rewrite to_int_size_t_sub. f_equal. lia.
Qed.

Lemma size_nonneg {A : Type} (l : list A) : 0 <= size l.
Proof. unfold size. lia. Qed.

Lemma size_app {A : Type} (l l' : list A) : size (l ++ l') = size l + size l'.
Proof. unfold size. rewrite length_app. lia. Qed.

Section Properties.

Context {B : Backend}.

(** ** What the phases of an iteration leave unchanged *)

Lemma same_session_refl (s : state) : same_session s s.
Proof. unfold same_session. auto. Qed.

Lemma same_session_trans (s1 s2 s3 : state) :
  same_session s1 s2 -> same_session s2 s3 -> same_session s1 s3.
Proof.
  unfold same_session. intros (-> & -> & -> & ->) (-> & -> & -> & ->). auto.
Qed.

Lemma console_eq (st : console_state) (s : state) :
  exists g t,
    console st s = set_glob g (set_trace (trace s ++ t) s)
    /\ is_interacting g = is_interacting (glob s)
    /\ marks t = [].
Proof.
  unfold console, set_console_state.
  destruct (negb (con_use_color (glob s))).
  - exists (glob s), []. rewrite app_nil_r. destruct s; auto.
  - destruct (negb (console_state_eqb st (con_st (glob s)))).
    + eexists _, [_]. cbn. split; [reflexivity|]. auto.
    + exists (glob s), []. rewrite app_nil_r. destruct s; auto.
Qed.

Lemma console_session (st : console_state) (s : state) :
  same_session s (console st s).
Proof.
  destruct (console_eq st s) as (g & t & -> & _).
  unfold same_session. cbn. auto.
Qed.

Lemma trim_push_length (w : list Z) (t : Z) (x : Z) :
  List.length (w ++ [t]) = List.length (x :: w).
Proof. rewrite length_app. cbn. lia. Qed.

Ltac session := solve [unfold same_session; cbn; auto].

Lemma predict_session (s : state) :
  same_session s (outcome_state (predict s)).
Proof.
  unfold predict. destruct (0 <? size (embd s)); cbn.
  - destruct (llama_eval _ _ _ _) as [ret c].
    destruct (ret =? 0); session.
  - session.
Qed.

Lemma sample_next_session (s : state) :
  same_session s (outcome_state (sample_next s)).
Proof.
  unfold sample_next.
  destruct (ignore_eos (params s)); [destruct (perplexity (params s))|];
    cbn; try session;
    destruct (llama_sample_top_p_top_k _ _ _ _ _ _) as [id c]; cbn;
    destruct (last_n_tokens s) as [|x w] eqn:E; cbn;
    unfold same_session; cbn; rewrite ?E; repeat split;
    apply trim_push_length.
Qed.

Lemma forward_session (fuel : nat) (s : state) :
  same_session s (outcome_state (forward fuel s)).
Proof.
  revert s. induction fuel as [|k IH]; intros s; cbn.
  - destruct (_ >? _); session.
  - destruct (_ >? _); [|session].
    destruct (input_consumed s <? 0); [session|].
    destruct (nth_error _ _) as [t|]; [|session].
    cbn. destruct (last_n_tokens s) as [|x w] eqn:E; [session|].
    match goal with
    | |- context [forward k ?s3] =>
        assert (Hs : same_session s s3)
          by (unfold same_session; cbn; rewrite E; repeat split;
              apply trim_push_length);
        pose proof (IH s3) as IH3
    end.
    destruct (_ >=? _); cbn.
    + exact Hs.
    + eapply same_session_trans; eassumption.
Qed.

Lemma fill_session (s : state) : same_session s (outcome_state (fill s)).
Proof.
  unfold fill. destruct (_ <=? _).
  - apply sample_next_session.
  - apply forward_session.
Qed.

Lemma write_tokens_eq (l : list Z) (s : state) :
  fold_left
    (fun a id => emit (EvWrite Outstream (llama_token_to_str (ctx a) id)) a)
    l s
  = set_trace
      (trace s
       ++ map (fun id => EvWrite Outstream (llama_token_to_str (ctx s) id)) l)
      s.
Proof.
  revert s. induction l as [|id l IH]; intros s; cbn.
  - rewrite app_nil_r. destruct s; reflexivity.
  - rewrite IH. unfold emit. cbn. rewrite <- app_assoc. reflexivity.
Qed.

Lemma marks_app (t1 t2 : list event) : marks (t1 ++ t2) = marks t1 ++ marks t2.
Proof. unfold marks. apply flat_map_app. Qed.

Lemma marks_cons (e : event) (t : list event) :
  marks (e :: t) = marks [e] ++ marks t.
Proof. apply (marks_app [e] t). Qed.

Lemma marks_writes (f : Z -> string) (l : list Z) :
  marks (map (fun id => EvWrite Outstream (f id)) l) = [].
Proof. induction l; cbn; auto. Qed.

Lemma display_eq (s : state) :
  exists g t,
    display s = set_glob g (set_trace (trace s ++ t) s)
    /\ is_interacting g = is_interacting (glob s)
    /\ marks t = [].
Proof.
  unfold display. rewrite write_tokens_eq.
  destruct (input_noecho s) eqn:En; cbn [negb].
  - rewrite En. cbn [negb andb]. exists (glob s), [].
    rewrite app_nil_r. destruct s; auto.
  - set (w := map _ (embd s)).
    assert (Hw : marks (w ++ [EvFlush]) = [])
      by (rewrite marks_app; unfold w; rewrite marks_writes; reflexivity).
    assert (E : emit EvFlush (set_trace (trace s ++ w) s)
                = set_trace (trace s ++ w ++ [EvFlush]) s)
      by (unfold emit; cbn; rewrite <- app_assoc; reflexivity).
    rewrite E. clear E. cbn [input_noecho set_trace]. rewrite En.
    cbn [negb andb].
    destruct (_ =? _).
    + destruct (console_eq CONSOLE_STATE_DEFAULT
                  (set_trace (trace s ++ w ++ [EvFlush]) s))
        as (g & t & -> & Hg & Ht).
      exists g, ((w ++ [EvFlush]) ++ t). split; [|split].
      * cbn. rewrite <- !app_assoc. reflexivity.
      * exact Hg.
      * rewrite marks_app, Hw, Ht. reflexivity.
    + exists (glob s), (w ++ [EvFlush]). split; [|split; auto].
      destruct s; reflexivity.
Qed.

Lemma display_session (s : state) : same_session s (display s).
Proof.
  destruct (display_eq s) as (g & t & -> & _).
  unfold same_session. cbn. auto.
Qed.

(** ** Reading the user's lines *)

Lemma split_line_length (s l r : string) :
  split_line s = Some (l, r) ->
  String.length s = (String.length l + 1 + String.length r)%nat.
Proof.
  revert l r. induction s as [|c s IH]; intros l r; cbn [split_line];
    [discriminate|].
  destruct (Ascii.eqb c newline).
  - intros [= <- <-]. cbn. lia.
  - destruct (split_line s) as [[l' r']|]; [|discriminate].
    intros [= <- <-]. cbn. rewrite (IH l' r' eq_refl). lia.
Qed.

Lemma str_pop_back_length (s : string) (c : ascii) :
  str_back s = Some c ->
  (String.length (str_pop_back s) + 1 = String.length s)%nat.
Proof.
  induction s as [|a s IH]; cbn; [discriminate|].
  destruct s as [|b s]; [cbn; lia|].
  intros H. specialize (IH H). cbn in *. lia.
Qed.

Lemma getline_measure (i i' : istream) (line line' : string) (c : ascii) :
  getline i line = (i', line') -> str_back line' = Some c ->
  (pending_chars i' + String.length (str_pop_back line')
   < pending_chars i + String.length line)%nat.
Proof.
  unfold getline, pending_chars. intros H Hb.
  pose proof (str_pop_back_length _ _ Hb) as Hl.
  destruct (good i) eqn:Eg.
  - destruct (split_line (buf i)) as [[l r]|] eqn:Es.
    + injection H as <- <-. cbn.
      pose proof (split_line_length _ _ _ Es). lia.
    + injection H as <- <-. cbn. lia.
  - injection H as <- <-. rewrite Eg. lia.
Qed.

Lemma read_lines_total (fuel : nat) (s : state) (line buffer : string) :
  (pending_chars (instream s) + String.length line < fuel)%nat ->
  read_lines fuel s line buffer <> None.
Proof.
  revert s line buffer. induction fuel as [|k IH]; intros s line buffer Hm;
    [lia|].
  cbn [read_lines].
  destruct (getline (instream s) line) as [i line1] eqn:Eg.
  destruct (str_back line1) as [c|] eqn:Eb; [|discriminate].
  destruct (Ascii.eqb c backslash); [|discriminate].
  apply IH. cbn.
  pose proof (getline_measure _ _ _ _ _ Eg Eb). lia.
Qed.

Lemma read_lines_eq (fuel : nat) (s s' : state) (line buffer b : string) :
  read_lines fuel s line buffer = Some (s', b) ->
  exists i t k,
    s' = set_instream i (set_trace (trace s ++ t) s)
    /\ marks t = repeat MInput (S k).
Proof.
  revert s line buffer. induction fuel as [|n IH]; intros s line buffer;
    [discriminate|].
  cbn [read_lines].
  destruct (getline (instream s) line) as [i line1].
  assert (Hone : exists i0 t k,
             emit (EvGetline line1) (set_instream i s)
             = set_instream i0 (set_trace (trace s ++ t) s)
             /\ marks t = repeat MInput (S k))
    by (exists i, [EvGetline line1], O; split; reflexivity).
  destruct (str_back line1) as [c|].
  - destruct (Ascii.eqb c backslash).
    + intros H. apply IH in H. destruct H as (i2 & t2 & k2 & -> & Hk).
      exists i2, (EvGetline line1 :: t2), (S k2). split.
      * cbn. rewrite <- app_assoc. reflexivity.
      * change (EvGetline line1 :: t2) with ([EvGetline line1] ++ t2).
        rewrite marks_app, Hk. reflexivity.
    + intros [= <- <-]. exact Hone.
  - intros [= <- <-]. exact Hone.
Qed.

(** ** The solicitation of input *)

Lemma solicit_spec (s : state) :
  exists s2 s3 s' buffer t k,
    solicit s = Next s'
    /\ instream s2 = instream s
    /\ read_lines (S (String.length (buf (instream s)))) s2
         EmptyString EmptyString = Some (s3, buffer)
    /\ embd_inp s'
       = embd_inp s ++ (if instruct (params s) then inp_pfx s else [])
         ++ llama_tokenize (ctx s) buffer false
         ++ (if instruct (params s) then inp_sfx s else [])
    /\ input_consumed s'
       = (if instruct (params s) then to_int (size (embd_inp s))
          else input_consumed s)
    /\ remaining_tokens s'
       = to_int (remaining_tokens s
                 - size (llama_tokenize (ctx s) buffer false))
    /\ input_noecho s' = true
    /\ same_session s s'
    /\ last_n_tokens s' = last_n_tokens s
    /\ embd s' = embd s
    /\ ctx s' = ctx s
    /\ is_interacting (glob s') = is_interacting (glob s)
    /\ trace s' = trace s ++ t
    /\ marks t = repeat MInput (S k).
Proof.
  unfold solicit.
  destruct (console_eq CONSOLE_STATE_USER_INPUT s) as (g1 & t1 & -> & Hg1 & Ht1).
  set (s1 := set_glob g1 (set_trace (trace s ++ t1) s)).
  set (s2 :=
         if instruct (params s1) then
           emit (EvWrite Outstream (nl ++ "> "))
             (set_embd_inp
                (embd_inp (set_input_consumed (to_int (size (embd_inp s1))) s1)
                 ++ inp_pfx (set_input_consumed (to_int (size (embd_inp s1))) s1))
                (set_input_consumed (to_int (size (embd_inp s1))) s1))
         else s1).
  assert (Hin : instream s2 = instream s)
    by (unfold s2, s1; destruct (instruct _); reflexivity).
  destruct (read_lines (S (String.length (buf (instream s2)))) s2
              EmptyString EmptyString) as [[s3 buffer]|] eqn:Er.
  2:{ exfalso. revert Er. apply read_lines_total.
      unfold pending_chars. destruct (good (instream s2)); cbn; lia. }
  destruct (read_lines_eq _ _ _ _ _ _ Er) as (i & t2 & k & Hs3 & Ht2).
  destruct (console_eq CONSOLE_STATE_DEFAULT s3) as (g4 & t4 & -> & Hg4 & Ht4).
  eexists s2, s3, _, buffer,
    (t1 ++ (if instruct (params s)
            then [EvWrite Outstream (nl ++ "> ")] else []) ++ t2 ++ t4), k.
  split; [reflexivity|].
  split; [exact Hin|].
  split; [rewrite <- Hin; exact Er|].
  subst s3. unfold s2, s1 in *. clear s1 s2 Hin Er.
  unfold same_session. cbn in Hg4.
  destruct (instruct (params s)) eqn:Ei; cbn in Hg4; cbn; rewrite ?Ei; cbn;
    rewrite ?Ei; cbn.
  - repeat split; try reflexivity.
    + rewrite <- !app_assoc. reflexivity.
    + rewrite to_int_size_t_sub. reflexivity.
    + congruence.
    + unfold emit. cbn. rewrite <- !app_assoc. reflexivity.
    + rewrite marks_app, marks_cons, marks_app, Ht1, Ht2, Ht4. cbn.
      rewrite app_nil_r. reflexivity.
  - repeat split; try reflexivity.
    + rewrite app_nil_r. reflexivity.
    + rewrite to_int_size_t_sub. reflexivity.
    + congruence.
    + rewrite <- !app_assoc. reflexivity.
    + rewrite !marks_app, Ht1, Ht2, Ht4. cbn. rewrite app_nil_r.
      reflexivity.
Qed.

(** ** The session data through a whole iteration *)

Lemma and_then_session (o : outcome) (k : state -> outcome) (s : state) :
  same_session s (outcome_state o) ->
  (forall s1, same_session s1 (outcome_state (k s1))) ->
  same_session s (outcome_state (o >>= k)).
Proof.
  intros Ho Hk. destruct o; cbn in *; auto.
  eapply same_session_trans; [exact Ho|apply Hk].
Qed.

Lemma interact_session (s : state) :
  same_session s (outcome_state (interact s)).
Proof.
  unfold interact. destruct (_ && _); [|session].
  match goal with |- context [set_is_interacting ?b s] =>
    set (s1 := set_is_interacting b s) end.
  assert (H1 : same_session s s1) by session.
  apply and_then_session; [|intros; session].
  destruct (is_interacting (glob s1)); [|exact H1].
  destruct (solicit_spec s1)
    as (s2 & s3 & s' & buffer & t & k & -> & _ & _ & _ & _ & _ & _ & Hs & _).
  eapply same_session_trans; [exact H1|exact Hs].
Qed.

Lemma eos_check_session (s : state) :
  same_session s (outcome_state (eos_check s)).
Proof.
  unfold eos_check. destruct (back (embd s)); [|session].
  destruct (_ =? _); [|session].
  destruct (interactive (params s)); session.
Qed.

Lemma refill_session (s : state) : same_session s (refill s).
Proof. unfold refill. destruct (_ && _); session. Qed.

Lemma before_eos_check_session (s : state) :
  same_session s (outcome_state (before_eos_check s)).
Proof.
  unfold before_eos_check.
  apply and_then_session.
  - apply and_then_session; [apply predict_session|apply fill_session].
  - intros s1. eapply same_session_trans;
      [apply display_session|apply interact_session].
Qed.

Lemma iteration_session (s : state) :
  same_session s (outcome_state (iteration s)).
Proof.
  unfold iteration.
  apply and_then_session.
  - apply and_then_session;
      [apply before_eos_check_session|apply eos_check_session].
  - intros s1. apply refill_session.
Qed.

Lemma finish_session (s : state) : same_session s (outcome_state (finish s)).
Proof.
  unfold finish. cbn.
  eapply same_session_trans; [|apply console_session]. session.
Qed.

Lemma run_loop_session (fuel : nat) (s : state) :
  same_session s (outcome_state (run_loop fuel s)).
Proof.
  revert s. induction fuel as [|k IH]; intros s; cbn [run_loop];
    [session|].
  destruct (loop_condition s); [|apply finish_session].
  pose proof (iteration_session s) as Hi.
  destruct (iteration s) as [s1|s1|c s1|s1|s1|s1|s1]; cbn in Hi; auto.
  - eapply same_session_trans; [exact Hi|apply IH].
  - eapply same_session_trans; [exact Hi|apply finish_session].
Qed.

Lemma reachable_session (s0 s : state) :
  reachable s0 s -> same_session s0 s.
Proof.
  induction 1 as [|s s' _ IH _ Hit].
  - apply same_session_refl.
  - eapply same_session_trans; [exact IH|].
    pose proof (iteration_session s) as Hi. rewrite Hit in Hi. exact Hi.
Qed.

Lemma run_init_window (c : llama_context) (p : gpt_params) (i : istream)
  (g : globals) (s0 : state) :
  run_init c p i g = Next s0 ->
  last_n_tokens s0 = repeat 0 (Z.to_nat (repeat_last_n (params s0)))
  /\ 0 <= repeat_last_n (params s0).
Proof.
  unfold run_init.
  destruct (llama_eval _ _ _ _) as [ret c1].
  match goal with |- context [resolve_modes ?x] =>
    set (pr := resolve_modes x) end.
  destruct (repeat_last_n pr <? 0) eqn:En; [discriminate|].
  intros [= <-].
  match goal with |- context [console ?st ?x] =>
    destruct (console_eq st x) as (g2 & t2 & -> & _) end.
  destruct (interactive pr); cbn; split; try reflexivity; lia.
Qed.

(** ** Forwarding of pending tokens *)

Lemma skipn_nth_error {A : Type} (n : nat) (l : list A) (t : A) :
  nth_error l n = Some t -> skipn n l = t :: skipn (S n) l.
Proof.
  revert l. induction n as [|n IH]; intros [|a l]; cbn; try discriminate.
  - intros [= ->]. reflexivity.
  - intros H. apply (IH l H).
Qed.

Lemma forward_spec (fuel : nat) (s s' : state) :
  forward fuel s = Next s' ->
  exists k : nat,
    let fw := firstn k (skipn (Z.to_nat (input_consumed s)) (embd_inp s)) in
    List.length fw = k
    /\ s' = set_input_consumed (input_consumed s + Z.of_nat k)
              (set_last_n_tokens (skipn k (last_n_tokens s ++ fw))
                 (set_embd (embd s ++ fw) s))
    /\ ((to_int (size (embd_inp s)) >? input_consumed s) = true ->
        (0 < k)%nat)
    /\ ((0 < k)%nat -> 0 <= input_consumed s).
Proof.
  revert s s'. induction fuel as [|n IH]; intros s s'; cbn [forward].
  - destruct (_ >? _) eqn:Ec; [discriminate|].
    intros [= <-]. exists O. cbn. rewrite !app_nil_r, Z.add_0_r.
    repeat split; try discriminate; try lia. destruct s; reflexivity.
  - destruct (_ >? _) eqn:Ec.
    2:{ intros [= <-]. exists O. cbn. rewrite !app_nil_r, Z.add_0_r.
        repeat split; try discriminate; try lia. destruct s; reflexivity. }
    destruct (input_consumed s <? 0) eqn:Eneg; [discriminate|].
    destruct (nth_error _ _) as [t|] eqn:Et; [|discriminate].
    cbn [last_n_tokens set_embd].
    destruct (last_n_tokens s) as [|x w] eqn:Ew; [discriminate|].
    apply Z.ltb_ge in Eneg. apply Z.gtb_lt in Ec.
    pose proof (to_int_range (size (embd_inp s))) as Hr.
    assert (Hic : to_int (input_consumed s + 1) = input_consumed s + 1)
      by (apply to_int_id; unfold INT_MIN, INT_MAX in *; lia).
    cbn [input_consumed set_last_n_tokens set_embd]. rewrite Hic.
    pose proof (skipn_nth_error _ _ _ Et) as Hsk.
    assert (Hnat : Z.to_nat (input_consumed s + 1)
                   = S (Z.to_nat (input_consumed s))) by lia.
    destruct (_ >=? _).
    + intros [= <-]. exists 1%nat. cbn zeta. rewrite Hsk. cbn.
      repeat split; try lia.
    + intros H. apply IH in H. destruct H as (k & Hlen & -> & _ & _).
      cbn [input_consumed embd_inp last_n_tokens embd set_input_consumed
             set_last_n_tokens set_embd] in *.
      rewrite Hnat in *.
      exists (S k). cbn zeta. rewrite Hsk.
      set (rest := skipn (S _) _) in *.
      change (firstn (S k) (t :: rest)) with (t :: firstn k rest).
      repeat split; try lia.
      * cbn [List.length]. lia.
      * unfold set_input_consumed, set_last_n_tokens, set_embd.
        cbn [ctx params inp_pfx inp_sfx n_past embd_inp embd last_n_tokens
               input_consumed input_noecho remaining_tokens glob instream
               trace].
        rewrite <- !app_assoc. cbn [app skipn].
        f_equal. lia.
Qed.

Lemma forward_total (fuel : nat) (s : state) :
  (0 < fuel)%nat ->
  size (embd_inp s) - input_consumed s <= Z.of_nat fuel ->
  ~ out_of_fuel (forward fuel s).
Proof.
  revert s. induction fuel as [|n IH]; intros s Hpos Hf; [lia|].
  cbn [forward].
  destruct (_ >? _) eqn:Ec; [|cbn; auto].
  destruct (input_consumed s <? 0) eqn:Eneg; [cbn; auto|].
  destruct (nth_error _ _) as [t|] eqn:Et; [|cbn; auto].
  cbn [last_n_tokens set_embd].
  destruct (last_n_tokens s) as [|x w]; [cbn; auto|].
  destruct (_ >=? _); [cbn; auto|].
  apply Z.ltb_ge in Eneg. apply Z.gtb_lt in Ec.
  pose proof (to_int_range (size (embd_inp s))) as Hr.
  assert (Hic : to_int (input_consumed s + 1) = input_consumed s + 1)
    by (apply to_int_id; unfold INT_MIN, INT_MAX in *; lia).
  assert (Hlt : (Z.to_nat (input_consumed s) < List.length (embd_inp s))%nat)
    by (apply nth_error_Some; congruence).
  destruct n as [|n].
  - cbn [forward input_consumed set_input_consumed set_last_n_tokens
           set_embd embd_inp].
    rewrite Hic.
    destruct (_ >? _) eqn:Ec2; [|cbn; auto].
    apply Z.gtb_lt in Ec2.
    pose proof (to_int_le (size (embd_inp s)) (size_nonneg _)).
    unfold size in *. lia.
  - apply IH; [lia|]. cbn. rewrite Hic. unfold size in *. lia.
Qed.

(** ** The phases one by one *)

Lemma predict_spec (s s1 : state) :
  predict s = Next s1 ->
  exists c t,
    s1 = set_embd []
           (set_n_past (to_int (n_past s + size (embd s)))
              (set_trace (trace s ++ t) (set_ctx c s)))
    /\ (embd s = [] -> t = [] /\ c = ctx s)
    /\ (embd s <> [] ->
        t = [EvEval (embd s) (n_past s) 0]
        /\ llama_eval (ctx s) (embd s) (n_past s) (n_threads (params s))
           = (0, c)).
Proof.
  unfold predict. rewrite <- to_int_size_t_add.
  destruct (embd s) as [|a l] eqn:Ee.
  - cbn. intros [= <-]. exists (ctx s), []. rewrite app_nil_r.
    split; [|split; [auto|congruence]].
    rewrite Ee. destruct s; cbn in *. subst. reflexivity.
  - assert (Hpos : (0 <? size (a :: l)) = true)
      by (apply Z.ltb_lt; unfold size; cbn [List.length]; lia).
    rewrite Hpos.
    destruct (llama_eval _ _ _ _) as [ret c].
    destruct (ret =? 0) eqn:Er; [|discriminate].
    apply Z.eqb_eq in Er. subst ret.
    cbn. intros [= <-]. exists c, [EvEval (a :: l) (n_past s) 0].
    split; [|split; [discriminate|auto]].
    rewrite Ee. reflexivity.
Qed.

Lemma sample_next_spec (s s' : state) :
  sample_next s = Next s' ->
  exists id c old w,
    last_n_tokens s = old :: w
    /\ s' = set_remaining_tokens (to_int (remaining_tokens s - 1))
              (set_input_noecho false
                 (set_embd (embd s ++ [id])
                    (set_last_n_tokens (w ++ [id])
                       (set_trace (trace s ++ [EvSample (old :: w) id])
                          (set_ctx c s))))).
Proof.
  unfold sample_next.
  destruct (ignore_eos (params s)); [destruct (perplexity (params s))|];
    cbn [and_then]; try discriminate;
    destruct (llama_sample_top_p_top_k _ _ _ _ _ _) as [id c];
    cbn [last_n_tokens emit set_ctx set_trace];
    destruct (last_n_tokens s) as [|old w] eqn:Ew; try discriminate;
    intros [= <-]; exists id, c, old, w; split; try reflexivity.
Qed.

Lemma fill_pending (s : state) :
  (to_int (size (embd_inp s)) <=? input_consumed s) = false ->
  fill s = forward (S (List.length (embd_inp s))) s
  /\ (to_int (size (embd_inp s)) >? input_consumed s) = true.
Proof.
  intros H. unfold fill. rewrite H. split; [reflexivity|].
  apply Z.leb_gt in H. apply Z.gtb_lt. lia.
Qed.

Lemma interact_spec (s : state) :
  exists s' t,
    interact s = Next s'
    /\ embd s' = embd s
    /\ last_n_tokens s' = last_n_tokens s
    /\ ctx s' = ctx s
    /\ trace s' = trace s ++ t
    /\ Forall (eq MInput) (marks t).
Proof.
  unfold interact. destruct (_ && _).
  2:{ exists s, []. rewrite app_nil_r. repeat split. constructor. }
  match goal with |- context [set_is_interacting ?b s] =>
    set (s1 := set_is_interacting b s) end.
  destruct (is_interacting (glob s1)).
  - destruct (solicit_spec s1)
      as (s2 & s3 & s' & buffer & t & k & -> & _ & _ & _ & _ & _ & _ & _
          & Hw & He & Hc & _ & Ht & Hm).
    exists (set_is_interacting false s'), t. cbn.
    repeat split; auto.
    rewrite Hm. apply Forall_forall. intros m Hin.
    apply repeat_spec in Hin. auto.
  - exists (set_is_interacting false s1), []. cbn. rewrite app_nil_r.
    repeat split. constructor.
Qed.

(** ** The events of an iteration *)

Lemma steps_and_then (P Q R : list mark -> Prop) (o : outcome)
  (k : state -> outcome) (s : state) :
  steps P s o ->
  (forall s1, o = Next s1 -> steps Q s1 (k s1)) ->
  (forall a, P a -> R a) ->
  (forall a b, P a -> Q b -> R (a ++ b)) ->
  steps R s (o >>= k).
Proof.
  intros (t & Ht & HP) Hk Hstop Hgo.
  destruct o as [s1| | | | | |]; cbn in *;
    try (exists t; split; [exact Ht|apply Hstop; exact HP]).
  destruct (Hk s1 eq_refl) as (t2 & Ht2 & HQ).
  exists (t ++ t2). split.
  - rewrite Ht2, Ht, app_assoc. reflexivity.
  - rewrite marks_app. apply Hgo; assumption.
Qed.

Lemma steps_weaken (P Q : list mark -> Prop) (s : state) (o : outcome) :
  steps P s o -> (forall a, P a -> Q a) -> steps Q s o.
Proof. intros (t & Ht & HP) H. exists t. auto. Qed.

Lemma predict_steps (s : state) : steps (eval_marks s) s (predict s).
Proof.
  unfold predict, steps, eval_marks.
  destruct (embd s) as [|a l] eqn:Ee.
  - cbn. exists []. rewrite app_nil_r. auto.
  - assert (Hpos : (0 <? size (a :: l)) = true)
      by (apply Z.ltb_lt; unfold size; cbn [List.length]; lia).
    rewrite Hpos. destruct (llama_eval _ _ _ _) as [ret c].
    destruct (ret =? 0); cbn.
    + eexists [_]. split; [reflexivity|]. right. split; [discriminate|].
      reflexivity.
    + eexists [_; _]. split; [rewrite <- app_assoc; reflexivity|].
      right. split; [discriminate|]. reflexivity.
Qed.

Lemma forward_trace (fuel : nat) (s : state) :
  trace (outcome_state (forward fuel s)) = trace s.
Proof.
  revert s. induction fuel as [|n IH]; intros s; cbn [forward].
  - destruct (_ >? _); reflexivity.
  - destruct (_ >? _); [|reflexivity].
    destruct (_ <? 0); [reflexivity|].
    destruct (nth_error _ _); [|reflexivity].
    cbn [last_n_tokens set_embd].
    destruct (last_n_tokens s); [reflexivity|].
    destruct (_ >=? _); [reflexivity|].
    rewrite IH. reflexivity.
Qed.

Lemma fill_steps (s : state) : steps (fill_marks s) s (fill s).
Proof.
  unfold fill, steps, fill_marks, drained.
  destruct (_ <=? _) eqn:Ed.
  - unfold sample_next.
    destruct (ignore_eos (params s)) eqn:Ei;
      [destruct (perplexity (params s))|]; cbn [and_then].
    + exists []. rewrite app_nil_r. cbn. auto.
    + destruct (llama_sample_top_p_top_k _ _ _ _ _ _) as [id c].
      cbn [last_n_tokens emit set_ctx set_trace].
      destruct (last_n_tokens s); cbn; eexists [_]; split;
        try reflexivity; right; auto.
    + destruct (llama_sample_top_p_top_k _ _ _ _ _ _) as [id c].
      cbn [last_n_tokens emit set_ctx set_trace].
      destruct (last_n_tokens s); cbn; eexists [_]; split;
        try reflexivity; right; auto.
  - exists []. rewrite forward_trace, app_nil_r. split; [reflexivity|].
    left. split; [reflexivity|discriminate].
Qed.

Lemma interact_display_steps (s : state) :
  steps input_marks s (interact (display s)).
Proof.
  destruct (display_eq s) as (g & t & -> & _ & Ht).
  match goal with |- steps _ _ (interact ?x) =>
    destruct (interact_spec x) as (s' & t2 & -> & _ & _ & _ & Ht2 & Hm) end.
  exists (t ++ t2). cbn in *. split.
  - rewrite Ht2, app_assoc. reflexivity.
  - rewrite marks_app, Ht. exact Hm.
Qed.

Lemma eos_check_steps (s : state) : steps (eq []) s (eos_check s).
Proof.
  unfold eos_check, steps.
  destruct (back (embd s)); [|exists []; rewrite app_nil_r; auto].
  destruct (_ =? _); [|exists []; rewrite app_nil_r; auto].
  destruct (interactive (params s)); cbn.
  - exists []. rewrite app_nil_r. auto.
  - eexists [_]. split; reflexivity.
Qed.

Lemma predict_drained (s s1 : state) :
  predict s = Next s1 -> drained s1 = drained s.
Proof.
  intros H. apply predict_spec in H. destruct H as (c & t & -> & _).
  reflexivity.
Qed.

Lemma refill_trace (s : state) : trace (refill s) = trace s.
Proof. unfold refill. destruct (_ && _); reflexivity. Qed.

Lemma before_eos_check_steps (s : state) :
  steps (iteration_marks s) s (before_eos_check s).
Proof.
  unfold before_eos_check.
  eapply steps_and_then with
    (P := fun m => exists me ms,
              m = me ++ ms /\ eval_marks s me /\ sample_marks s ms)
    (Q := input_marks).
  - eapply steps_and_then with (P := eval_marks s)
      (Q := fun m => exists s1, predict s = Next s1 /\ fill_marks s1 m).
    + apply predict_steps.
    + intros s1 E. eapply steps_weaken; [apply fill_steps|].
      intros a Ha. exists s1. rewrite E. auto.
    + intros a Ha. exists a, []. rewrite app_nil_r.
      repeat split; auto. left. reflexivity.
    + intros a b Ha (s1 & E & Hb). exists a, b. repeat split; auto.
      unfold sample_marks. rewrite <- (predict_drained _ _ E).
      destruct Hb as [[-> _]|[-> Hd]]; auto.
  - intros s1 _. apply interact_display_steps.
  - intros a (me & ms & -> & He & Hs). exists me, ms, [].
    rewrite app_nil_r. repeat split; auto. constructor.
  - intros a b (me & ms & -> & He & Hs) Hb. exists me, ms, b.
    rewrite app_assoc. repeat split; auto.
Qed.

Lemma iteration_steps (s : state) :
  steps (iteration_marks s) s (iteration s).
Proof.
  unfold iteration.
  eapply steps_and_then with (P := iteration_marks s) (Q := eq []).
  - eapply steps_and_then with (P := iteration_marks s) (Q := eq []).
    + apply before_eos_check_steps.
    + intros s1 _. apply eos_check_steps.
    + auto.
    + intros a b Ha <-. rewrite app_nil_r. exact Ha.
  - intros s1 _. exists []. cbn. rewrite refill_trace, app_nil_r. auto.
  - auto.
  - intros a b Ha <-. rewrite app_nil_r. exact Ha.
Qed.

(** ** The batch of an iteration *)

Lemma and_then_next (o : outcome) (k : state -> outcome) (s1 : state) :
  o >>= k = Next s1 -> exists s0, o = Next s0 /\ k s0 = Next s1.
Proof. destruct o; cbn; try discriminate. intros H. eauto. Qed.

Lemma back_nonempty {A : Type} (l : list A) :
  l <> [] -> exists t, back l = Some t.
Proof.
  induction l as [|a l IH]; [congruence|]. intros _.
  destruct l as [|b l]; [exists a; reflexivity|].
  destruct IH as (t & Ht); [discriminate|]. exists t. exact Ht.
Qed.

Lemma back_app_last {A : Type} (l : list A) (x : A) :
  back (l ++ [x]) = Some x.
Proof.
  induction l as [|a l IH]; [reflexivity|].
  cbn [app]. destruct (l ++ [x]) eqn:E.
  - destruct l; discriminate.
  - cbn [back]. exact IH.
Qed.

Lemma filled_batch (s s1 : state) :
  predict s >>= fill = Next s1 ->
  (drained s = true -> exists id, embd s1 = [id])
  /\ (drained s = false ->
      exists k : nat,
        (0 < k)%nat
        /\ embd s1
           = firstn k (skipn (Z.to_nat (input_consumed s)) (embd_inp s))
        /\ List.length (embd s1) = k
        /\ input_consumed s1 = input_consumed s + Z.of_nat k
        /\ 0 <= input_consumed s).
Proof.
  intros H. apply and_then_next in H. destruct H as (s0 & Hp & Hf).
  pose proof (predict_drained _ _ Hp) as Hd.
  apply predict_spec in Hp. destruct Hp as (c & t & E0 & _).
  assert (He : embd s0 = []) by (subst s0; reflexivity).
  assert (Hi : embd_inp s0 = embd_inp s) by (subst s0; reflexivity).
  assert (Hc : input_consumed s0 = input_consumed s)
    by (subst s0; reflexivity).
  clear E0. split; intros Hdr; rewrite <- Hd in Hdr.
  - unfold fill in Hf. unfold drained in Hdr. rewrite Hdr in Hf.
    apply sample_next_spec in Hf.
    destruct Hf as (id & c' & old & w & _ & ->). exists id. cbn.
    rewrite He. reflexivity.
  - destruct (fill_pending _ Hdr) as (Ef & Hgt). rewrite Ef in Hf.
    apply forward_spec in Hf. destruct Hf as (k & Hlen & -> & Hk & Hnn).
    cbn zeta in *. specialize (Hk Hgt). specialize (Hnn Hk).
    exists k. cbn. rewrite He, Hi, Hc in *. cbn. auto.
Qed.

(** ** The cursor stays within the queue *)

Lemma interact_queue (s s' : state) :
  interact s = Next s' ->
  size (embd_inp s) <= INT_MAX ->
  0 <= input_consumed s <= size (embd_inp s) ->
  0 <= input_consumed s' <= size (embd_inp s').
Proof.
  unfold interact. intros H Hfit Hinv.
  destruct (_ && _); [|injection H as <-; exact Hinv].
  match type of H with context [set_is_interacting ?b s] =>
    set (s1 := set_is_interacting b s) in * end.
  destruct (is_interacting (glob s1)).
  - destruct (solicit_spec s1)
      as (s2 & s3 & sx & buffer & t & k & Es & _ & _ & He & Hic & _).
    rewrite Es in H. cbn in H. injection H as <-. cbn in *.
    rewrite He, Hic, !size_app.
    pose proof (size_nonneg (llama_tokenize (ctx s) buffer false)).
    pose proof (size_nonneg (embd_inp s)).
    destruct (instruct (params s)).
    + pose proof (size_nonneg (inp_pfx s)).
      pose proof (size_nonneg (inp_sfx s)).
      rewrite to_int_id by (unfold INT_MIN; lia). lia.
    + change (size (@nil Z)) with 0. lia.
  - cbn in H. injection H as <-. exact Hinv.
Qed.

(** X14.  The invariant of the cursor,
    [0 <= input_consumed <= embd_inp.size()], is kept by every iteration
    that starts with a queue of fewer than 2^31 tokens; it holds with
    cursor 0 where the loop is entered. *)
Lemma cursor_stays_in_queue (s s' : state) :
  iteration s = Next s' ->
  size (embd_inp s) <= INT_MAX ->
  0 <= input_consumed s <= size (embd_inp s) ->
  0 <= input_consumed s' <= size (embd_inp s').
Proof.
  unfold iteration. intros H Hfit Hinv.
  apply and_then_next in H. destruct H as (se & H & Hr).
  injection Hr as <-.
  apply and_then_next in H. destruct H as (sb & Hb & He).
  assert (Hsb : 0 <= input_consumed sb <= size (embd_inp sb)).
  { unfold before_eos_check in Hb.
    apply and_then_next in Hb. destruct Hb as (sf & Hf & Hi).
    destruct (display_eq sf) as (g & t & Ed & _).
    assert (Hsf : 0 <= input_consumed sf <= size (embd_inp sf)
                  /\ embd_inp sf = embd_inp s).
    { apply and_then_next in Hf. destruct Hf as (sp & Hp & Hf).
      apply predict_spec in Hp. destruct Hp as (c & tp & -> & _).
      unfold fill in Hf. destruct (_ <=? _).
      - apply sample_next_spec in Hf.
        destruct Hf as (id & c' & old & w & _ & ->). cbn. auto.
      - apply forward_spec in Hf. destruct Hf as (k & Hlen & -> & _).
        cbn in *. split; [|reflexivity].
        rewrite length_firstn, length_skipn in Hlen. unfold size in *.
        lia. }
    destruct Hsf as (Hsf & Hq).
    apply (interact_queue _ _ Hi); rewrite Ed; cbn; [rewrite Hq|]; assumption. }
  assert (Hse : input_consumed se = input_consumed sb
                /\ embd_inp se = embd_inp sb).
  { revert He. unfold eos_check. destruct (back _); [|discriminate].
    destruct (_ =? _); [destruct (interactive _)|]; try discriminate;
      intros [= <-]; auto. }
  destruct Hse as (E1 & E2).
  unfold refill. destruct (_ && _); cbn; rewrite E1, E2; exact Hsb.
Qed.

(** When the budget is used up in interactive mode, the check of lines
    346-350 sets it back to [n_predict] and sets [is_interacting]. *)
Lemma refill_at_zero (s : state) :
  interactive (params s) = true -> remaining_tokens s <= 0 ->
  remaining_tokens (refill s) = n_predict (params s)
  /\ is_interacting (glob (refill s)) = true.
Proof.
  intros Hi Hr. unfold refill. apply Z.leb_le in Hr. rewrite Hi, Hr.
  cbn. auto.
Qed.

(** Forwarding comes back with a batch whenever the cursor is not
    negative, the window is not empty and the fuel covers what is
    pending. *)
Lemma forward_defined (fuel : nat) (s : state) :
  0 <= input_consumed s ->
  last_n_tokens s <> [] ->
  (0 < fuel)%nat ->
  size (embd_inp s) - input_consumed s <= Z.of_nat fuel ->
  exists s', forward fuel s = Next s'.
Proof.
  revert s. induction fuel as [|n IH]; intros s Hnn Hw Hpos Hf; [lia|].
  cbn [forward].
  destruct (_ >? _) eqn:Ec; [|eauto].
  apply Z.gtb_lt in Ec.
  pose proof (to_int_le (size (embd_inp s)) (size_nonneg _)) as Hle.
  pose proof (to_int_range (size (embd_inp s))) as Hr.
  assert (Eneg : (input_consumed s <? 0) = false) by (apply Z.ltb_ge; lia).
  rewrite Eneg.
  destruct (nth_error _ _) as [t|] eqn:Et.
  2:{ apply nth_error_None in Et. unfold size in *. lia. }
  cbn [last_n_tokens set_embd].
  destruct (last_n_tokens s) as [|x w]; [congruence|].
  destruct (_ >=? _); [eauto|].
  assert (Hic : to_int (input_consumed s + 1) = input_consumed s + 1)
    by (apply to_int_id; unfold INT_MIN, INT_MAX in *; lia).
  destruct n as [|n].
  - cbn [forward input_consumed set_input_consumed set_last_n_tokens
           set_embd embd_inp].
    rewrite Hic.
    destruct (_ >? _) eqn:Ec2; [|eauto].
    apply Z.gtb_lt in Ec2. unfold size in *. lia.
  - apply IH; cbn; rewrite ?Hic; try lia;
      try (destruct w; discriminate); unfold size in *; lia.
Qed.

(** ** C1: pending input takes priority over sampling *)

Lemma no_sample_in_evals (s : state) (m : list mark) :
  eval_marks s m -> ~ In MSample m.
Proof.
  intros [[_ ->]|[_ ->]]; cbn; [tauto|]. intros [H|[]]. discriminate.
Qed.

Lemma no_sample_in_inputs (m : list mark) :
  input_marks m -> ~ In MSample m.
Proof.
  unfold input_marks. rewrite Forall_forall. intros H Hin.
  specialize (H _ Hin). discriminate.
Qed.

(** C1.  In an iteration that starts with the cursor strictly below the
    length of the pending queue, the sampler is not called: the
    iteration adds no sampling event to the trace, and the batch it
    builds consists of the next pending tokens, at least one of them.
    These tokens are indeed forwarded: once the evaluation of the
    previous batch has succeeded, and with a repetition window that is
    not empty, the forwarding phase comes back with that batch.
    An iteration that does call the sampler started with the queue
    drained (cursor equal to the queue length), and called it once. *)
Theorem pending_input_preempts_sampling (s : state) :
  0 <= input_consumed s <= size (embd_inp s) ->
  size (embd_inp s) <= INT_MAX ->
  exists t,
    trace (outcome_state (iteration s)) = trace s ++ t
    /\ (input_consumed s < size (embd_inp s) ->
        ~ In MSample (marks t)
        /\ (forall s1,
              predict s >>= fill = Next s1 ->
              exists k : nat,
                (0 < k)%nat
                /\ embd s1
                   = firstn k
                       (skipn (Z.to_nat (input_consumed s)) (embd_inp s))
                /\ List.length (embd s1) = k
                /\ input_consumed s1 = input_consumed s + Z.of_nat k)
        /\ (last_n_tokens s <> [] ->
            forall sp,
              predict s = Next sp ->
              exists (s1 : state) (k : nat),
                fill sp = Next s1
                /\ (0 < k)%nat
                /\ embd s1
                   = firstn k
                       (skipn (Z.to_nat (input_consumed s)) (embd_inp s))
                /\ List.length (embd s1) = k
                /\ input_consumed s1 = input_consumed s + Z.of_nat k))
    /\ (In MSample (marks t) ->
        input_consumed s = size (embd_inp s)
        /\ exists me mi,
            marks t = me ++ [MSample] ++ mi
            /\ ~ In MSample me /\ ~ In MSample mi).
Proof.
  intros Hinv Hfit.
  assert (Hint : to_int (size (embd_inp s)) = size (embd_inp s))
    by (apply to_int_id; unfold INT_MIN; pose proof (size_nonneg (embd_inp s));
        lia).
  destruct (iteration_steps s) as (t & Ht & me & ms & mi & Hm & He & Hs & Hi).
  exists t. split; [exact Ht|]. split.
  - intros Hlt.
    assert (Hd : drained s = false)
      by (unfold drained; rewrite Hint; apply Z.leb_gt; lia).
    assert (Hbatch : forall s1,
               predict s >>= fill = Next s1 ->
               exists k : nat,
                 (0 < k)%nat
                 /\ embd s1
                    = firstn k
                        (skipn (Z.to_nat (input_consumed s)) (embd_inp s))
                 /\ List.length (embd s1) = k
                 /\ input_consumed s1 = input_consumed s + Z.of_nat k).
    { intros s1 Hf. destruct (filled_batch _ _ Hf) as (_ & Hfw).
      destruct (Hfw Hd) as (k & Hk & Hb & Hl & Hc & _).
      exists k. auto. }
    split; [|split; [exact Hbatch|]].
    + rewrite Hm, !in_app_iff. intros [H|[H|H]].
      * exact (no_sample_in_evals _ _ He H).
      * destruct Hs as [->|[_ Hd']]; [destruct H|congruence].
      * exact (no_sample_in_inputs _ Hi H).
    + intros Hw sp Hp.
      destruct (predict_spec _ _ Hp) as (c & te & Esp & _).
      assert (Hq : embd_inp sp = embd_inp s) by (rewrite Esp; reflexivity).
      assert (Hc : input_consumed sp = input_consumed s)
        by (rewrite Esp; reflexivity).
      assert (Hwp : last_n_tokens sp = last_n_tokens s)
        by (rewrite Esp; reflexivity).
      assert (Hdp : (to_int (size (embd_inp sp)) <=? input_consumed sp)
                    = false)
        by (rewrite Hq, Hc, Hint; apply Z.leb_gt; lia).
      destruct (fill_pending _ Hdp) as (Ef & _).
      destruct (forward_defined (S (List.length (embd_inp sp))) sp)
        as (s1 & Hf).
      { rewrite Hc. lia. }
      { rewrite Hwp. exact Hw. }
      { lia. }
      { rewrite Hq, Hc. unfold size in *. lia. }
      assert (Hpf : predict s >>= fill = Next s1)
        by (rewrite Hp; cbn [and_then]; rewrite Ef; exact Hf).
      destruct (Hbatch s1 Hpf) as (k & Hk).
      exists s1, k. split; [rewrite Ef; exact Hf|exact Hk].
  - rewrite Hm, !in_app_iff. intros [H|[H|H]].
    + destruct (no_sample_in_evals _ _ He H).
    + destruct Hs as [->|[-> Hd]]; [destruct H|].
      unfold drained in Hd. rewrite Hint in Hd. apply Z.leb_le in Hd.
      split; [lia|]. exists me, mi. split; [reflexivity|].
      split; [exact (no_sample_in_evals _ _ He)
             |exact (no_sample_in_inputs _ Hi)].
    + destruct (no_sample_in_inputs _ Hi H).
Qed.

(** ** C10: the batch is not empty where its last element is read *)

(** C10.  Whenever an iteration reaches the end-of-sequence check of line
    337, the batch [embd] is not empty, so [embd.back()] is defined and
    the check is not undefined behaviour: the batch holds exactly one
    sampled token when the queue was drained, and the next pending tokens,
    at least one, otherwise. *)
Theorem batch_nonempty_at_eos_check (s s1 : state) :
  before_eos_check s = Next s1 ->
  embd s1 <> []
  /\ (exists t, back (embd s1) = Some t)
  /\ (forall u, eos_check s1 <> Undefined u)
  /\ (drained s = true -> exists id, embd s1 = [id])
  /\ (drained s = false ->
      exists k : nat,
        (0 < k)%nat
        /\ embd s1
           = firstn k (skipn (Z.to_nat (input_consumed s)) (embd_inp s))
        /\ List.length (embd s1) = k).
Proof.
  unfold before_eos_check. intros H.
  apply and_then_next in H. destruct H as (s0 & Hf & Hi).
  destruct (display_eq s0) as (g & td & Ed & _).
  destruct (interact_spec (display s0)) as (s' & ti & Ei & Hemb & _).
  rewrite Ei in Hi. injection Hi as <-.
  assert (He : embd s' = embd s0) by (rewrite Hemb, Ed; reflexivity).
  destruct (filled_batch _ _ Hf) as (Hs & Hfw).
  assert (Hne : embd s' <> []).
  { rewrite He. destruct (drained s).
    - destruct (Hs eq_refl) as (id & ->). discriminate.
    - destruct (Hfw eq_refl) as (k & Hk & _ & Hl & _).
      intros E. rewrite E in Hl. cbn in Hl. lia. }
  split; [exact Hne|].
  destruct (back_nonempty _ Hne) as (t & Hb).
  split; [exists t; exact Hb|]. split.
  - intros u. unfold eos_check. rewrite Hb.
    destruct (_ =? _); [destruct (interactive _)|]; discriminate.
  - rewrite He. split.
    + exact Hs.
    + intros Hd. destruct (Hfw Hd) as (k & Hk & Hb' & Hl & _).
      exists k. auto.
Qed.

(** ** C2: the repetition window keeps its length *)

Lemma observation_session (fuel : nat) (s : state) (o : outcome) :
  In o (observation_points fuel s) -> same_session s (outcome_state o).
Proof.
  unfold observation_points. cbn [In].
  intros [<-|[<-|[<-|[<-|[<-|[<-|[<-|[]]]]]]]].
  - apply same_session_refl.
  - apply predict_session.
  - apply and_then_session; [apply predict_session|apply fill_session].
  - apply before_eos_check_session.
  - apply and_then_session;
      [apply before_eos_check_session|apply eos_check_session].
  - apply iteration_session.
  - apply run_loop_session.
Qed.

Lemma forward_window (fuel : nat) (s s' : state) :
  forward fuel s = Next s' ->
  exists fw,
    embd s' = embd s ++ fw
    /\ last_n_tokens s' = skipn (List.length fw) (last_n_tokens s ++ fw).
Proof.
  intros H. apply forward_spec in H. destruct H as (k & Hlen & -> & _).
  cbn zeta in *. eexists. cbn. split; [reflexivity|].
  rewrite Hlen. reflexivity.
Qed.

(** C2.  The repetition window is created filled with the token 0 and
    with as many entries as [repeat_last_n] says, and it has that length
    in every state of the session: at the head of every iteration, after
    every phase of it, and where the run stops.  A sampled token enters
    it by removal of the oldest entry followed by an append, and so does
    every forwarded token. *)
Theorem repetition_window_keeps_its_length (c : llama_context)
  (p : gpt_params) (i : istream) (g : globals) (s0 : state) :
  run_init c p i g = Next s0 ->
  last_n_tokens s0 = repeat 0 (Z.to_nat (repeat_last_n (params s0)))
  /\ (forall s fuel o,
        reachable s0 s -> In o (observation_points fuel s) ->
        size (last_n_tokens (outcome_state o)) = repeat_last_n (params s0))
  /\ (forall s s',
        sample_next s = Next s' ->
        exists old w id,
          last_n_tokens s = old :: w /\ last_n_tokens s' = w ++ [id]
          /\ embd s' = embd s ++ [id])
  /\ (forall fuel s s',
        forward fuel s = Next s' ->
        exists fw,
          embd s' = embd s ++ fw
          /\ last_n_tokens s'
             = skipn (List.length fw) (last_n_tokens s ++ fw)).
Proof.
  intros Hinit. destruct (run_init_window _ _ _ _ _ Hinit) as (H0 & Hn).
  split; [exact H0|]. split; [|split].
  - intros s fuel o Hr Ho.
    pose proof (reachable_session _ _ Hr) as (_ & _ & _ & L1).
    pose proof (observation_session _ _ _ Ho) as (_ & _ & _ & L2).
    unfold size. rewrite L2, L1, H0, repeat_length. lia.
  - intros s s' H. apply sample_next_spec in H.
    destruct H as (id & c' & old & w & Hw & ->).
    exists old, w, id. cbn. auto.
  - intros fuel s s' H. exact (forward_window _ _ _ H).
Qed.

(** ** C7: a failed evaluation ends the run *)

Lemma run_loop_reachable (s0 s : state) :
  reachable s0 s ->
  exists n, forall fuel, run_loop (n + fuel) s0 = run_loop fuel s.
Proof.
  induction 1 as [|s s' _ (n & IH) Hc Hi].
  - exists O. reflexivity.
  - exists (S n). intros fuel.
    replace (S n + fuel)%nat with (n + S fuel)%nat by lia.
    rewrite IH. cbn [run_loop]. rewrite Hc, Hi. reflexivity.
Qed.

(** C7.  When the evaluator returns a non-zero value for the batch of an
    iteration, the iteration ends the run at once with the value 1: the
    trace gets the failed call and the diagnostic and nothing else, so
    the call is not repeated and no evaluation, sampling or reading of
    input follows it.  This holds for the loop entered in any state that
    passes the loop condition, and so for a session that reaches it. *)
Theorem eval_failure_is_fatal (s : state) (ret : Z) (c : llama_context) :
  embd s <> [] ->
  llama_eval (ctx s) (embd s) (n_past s) (n_threads (params s)) = (ret, c) ->
  ret <> 0 ->
  let s' :=
    set_trace
      (trace s ++ [EvEval (embd s) (n_past s) ret; EvDiag DEvalFailed])
      (set_ctx c s) in
  iteration s = Return 1 s'
  /\ (loop_condition s = true ->
      (forall fuel, run_loop (S fuel) s = Return 1 s')
      /\ forall s0,
          reachable s0 s ->
          exists n, forall fuel, run_loop (n + S fuel) s0 = Return 1 s').
Proof.
  intros Hne He Hret s'.
  assert (Hi : iteration s = Return 1 s').
  { unfold iteration, before_eos_check, predict.
    assert (Hpos : (0 <? size (embd s)) = true).
    { apply Z.ltb_lt. unfold size. destruct (embd s); [congruence|].
      cbn [List.length]. lia. }
    rewrite Hpos, He.
    apply Z.eqb_neq in Hret. rewrite Hret. cbn. unfold s', emit. cbn.
    rewrite <- app_assoc. reflexivity. }
  split; [exact Hi|]. intros Hc.
  assert (Hl : forall fuel, run_loop (S fuel) s = Return 1 s')
    by (intros fuel; cbn [run_loop]; rewrite Hc, Hi; reflexivity).
  split; [exact Hl|].
  intros s0 Hr. destruct (run_loop_reachable _ _ Hr) as (n & Hn).
  exists n. intros fuel. rewrite Hn. apply Hl.
Qed.

(** ** C8: the interrupt handler *)

Lemma set_console_state_flag (st : console_state) (g : globals) :
  is_interacting (fst (set_console_state st g)) = is_interacting g.
Proof.
  unfold set_console_state.
  destruct (negb (con_use_color g)); [reflexivity|].
  destruct (negb (console_state_eqb st (con_st g))); reflexivity.
Qed.

(** C8.  An interrupt that arrives while [is_interacting] is not set sets
    it and lets the program go on; an interrupt that arrives while the
    flag is still set ends the process with status 130, and in
    particular so does the second of two interrupts with nothing in
    between. *)
Theorem second_interrupt_forces_exit (g : globals) :
  is_interacting g = false ->
  exists g1 out1 out2,
    sigint_handler SIGINT g = Resumed g1 out1
    /\ is_interacting g1 = true
    /\ sigint_handler SIGINT g1 = Exited 130 out2
    /\ forall g2,
        is_interacting g2 = true ->
        exists out, sigint_handler SIGINT g2 = Exited 130 out.
Proof.
  intros Hg.
  assert (Hset : forall g2,
             is_interacting g2 = true ->
             exists out, sigint_handler SIGINT g2 = Exited 130 out).
  { intros g2 H2. unfold sigint_handler.
    pose proof (set_console_state_flag CONSOLE_STATE_DEFAULT g2) as Hf.
    destruct (set_console_state CONSOLE_STATE_DEFAULT g2) as [g' o].
    cbn in Hf. rewrite Z.eqb_refl, Hf, H2. cbn. eauto. }
  unfold sigint_handler at 1.
  pose proof (set_console_state_flag CONSOLE_STATE_DEFAULT g) as Hf.
  destruct (set_console_state CONSOLE_STATE_DEFAULT g) as [g' o].
  cbn in Hf. rewrite Z.eqb_refl, Hf, Hg. cbn [negb].
  destruct (Hset (mkGlobals (con_st g') (con_use_color g') true) eq_refl)
    as (out2 & H2).
  eexists _, _, out2. repeat split; [exact H2|exact Hset].
Qed.

(** ** C9: the modes that switch interactive mode on *)

Lemma run_init_params (c : llama_context) (p : gpt_params) (i : istream)
  (g : globals) :
  exists p3,
    params (outcome_state (run_init c p i g)) = resolve_modes p3
    /\ instruct p3 = instruct p
    /\ antiprompt p3 = antiprompt p
    /\ interactive_start p3 = interactive_start p
    /\ interactive p3 = interactive p.
Proof.
  unfold run_init.
  destruct (llama_eval _ _ _ _) as [ret c1].
  match goal with |- context [resolve_modes ?x] => exists x end.
  split.
  - destruct (_ <? 0); [reflexivity|]. cbn [outcome_state].
    match goal with |- context [console ?st ?x] =>
      destruct (console_eq st x) as (g2 & t2 & -> & _) end.
    destruct (interactive _); reflexivity.
  - unfold choose_seed_and_prompt.
    destruct (seed p <=? 0); cbn; destruct (random_prompt p); cbn; auto.
Qed.

Lemma resolve_modes_spec (p : gpt_params) :
  (instruct p = true ->
   interactive (resolve_modes p) = true
   /\ antiprompt (resolve_modes p) = antiprompt p ++ [instruction_marker])
  /\ (antiprompt p <> [] -> interactive (resolve_modes p) = true)
  /\ (interactive_start p = true -> interactive (resolve_modes p) = true)
  /\ (instruct p = false -> antiprompt p = [] ->
      interactive_start p = false ->
      resolve_modes p = p).
Proof.
  unfold resolve_modes. generalize instruction_marker. intros m.
  destruct (instruct p) eqn:Ei; cbn.
  - assert (Hn : (size (antiprompt p ++ [m]) =? 0) = false)
      by (apply Z.eqb_neq; rewrite size_app; unfold size; cbn;
          lia).
    rewrite Hn. cbn. destruct (interactive_start p); cbn;
      repeat split; auto; discriminate.
  - destruct (antiprompt p) as [|a l] eqn:Ea; cbn;
      destruct (interactive_start p) eqn:Es; cbn; rewrite ?Ea;
      repeat split; auto; try discriminate; try congruence.
Qed.

(** C9.  In the state in which [run] enters its loop (or gives up on a
    negative [repeat_last_n]), interactive mode is on whenever instruct
    mode was asked for, whenever at least one reverse prompt was given,
    and whenever the start-in-interactive flag was given, whatever the
    interactive flag itself was; and instruct mode has added the string
    "### Instruction:" followed by two newlines at the end of the
    reverse prompts. *)
Theorem modes_switch_interactive_on (c : llama_context) (p : gpt_params)
  (i : istream) (g : globals) :
  let p' := params (outcome_state (run_init c p i g)) in
  (instruct p = true ->
   interactive p' = true
   /\ antiprompt p' = antiprompt p ++ [instruction_marker])
  /\ (antiprompt p <> [] -> interactive p' = true)
  /\ (interactive_start p = true -> interactive p' = true)
  /\ instruction_marker
     = String.append "### Instruction:"
         (String newline (String newline EmptyString)).
Proof.
  intros p'. subst p'.
  destruct (run_init_params c p i g) as (p3 & -> & Hi & Ha & Hs & _).
  destruct (resolve_modes_spec p3) as (H1 & H2 & H3 & _).
  rewrite Hi, Ha, Hs in *. repeat split; tauto.
Qed.

(** ** C4: the reverse prompt is matched as an exact suffix *)

Open Scope string_scope.

Lemma length_append (a b : string) :
  String.length (a ++ b) = (String.length a + String.length b)%nat.
Proof. induction a as [|c a IH]; cbn; [reflexivity|]. rewrite IH. reflexivity. Qed.

Lemma append_assoc (a b c : string) : (a ++ b) ++ c = a ++ b ++ c.
Proof. induction a as [|x a IH]; cbn; [reflexivity|]. rewrite IH. reflexivity. Qed.

Lemma append_nil_r (a : string) : a ++ "" = a.
Proof. induction a as [|x a IH]; cbn; [reflexivity|]. rewrite IH. reflexivity. Qed.

Lemma length_zero (a : string) : String.length a = O -> a = "".
Proof. destruct a; [reflexivity|discriminate]. Qed.

Lemma prefix_iff (a h : string) :
  String.prefix a h = true <-> exists r, h = a ++ r.
Proof.
  revert h. induction a as [|x a IH]; intros h.
  - destruct h; cbn; split; eauto.
  - destruct h as [|y h]; cbn.
    + split; [discriminate|]. intros (r & H). discriminate.
    + destruct (ascii_dec x y) as [->|Hn].
      * rewrite IH. split; intros (r & H); exists r; congruence.
      * split; [discriminate|]. intros (r & H). congruence.
Qed.

Lemma prefix_same_length (a h : string) :
  String.prefix a h = true -> String.length h = String.length a -> h = a.
Proof.
  intros H Hl. apply prefix_iff in H. destruct H as (r & ->).
  rewrite length_append in Hl.
  rewrite (length_zero r) by lia. apply append_nil_r.
Qed.

Lemma prefix_shorter (a h : string) :
  (String.length h < String.length a)%nat -> String.prefix a h = false.
Proof.
  intros Hl. destruct (String.prefix a h) eqn:E; [|reflexivity].
  apply prefix_iff in E. destruct E as (r & ->).
  rewrite length_append in Hl. lia.
Qed.

Lemma find_scan_short (a h : string) (i : Z) :
  (String.length h < String.length a)%nat -> find_scan a h i = None.
Proof.
  revert i. induction h as [|c h IH]; intros i Hl; cbn [find_scan];
    rewrite (prefix_shorter _ _ Hl); [reflexivity|].
  apply IH. cbn in Hl. lia.
Qed.

Lemma find_scan_same_length (a h : string) (i : Z) :
  String.length h = String.length a ->
  (exists j, find_scan a h i = Some j) <-> h = a.
Proof.
  intros Hl. split.
  - intros (j & H). destruct h as [|c h]; cbn [find_scan] in H.
    + destruct (String.prefix a "") eqn:E; [|discriminate].
      apply (prefix_same_length _ _ E Hl).
    + destruct (String.prefix a (String c h)) eqn:E.
      * apply (prefix_same_length _ _ E Hl).
      * rewrite find_scan_short in H by (cbn in Hl; lia). discriminate.
  - intros ->. exists i.
    assert (E : String.prefix a a = true)
      by (apply prefix_iff; exists ""; symmetry; apply append_nil_r).
    destruct a; cbn [find_scan]; rewrite E; reflexivity.
Qed.

Lemma str_drop_length (n : nat) (s : string) :
  String.length (str_drop n s) = (String.length s - n)%nat.
Proof.
  revert s. induction n as [|n IH]; intros [|c s]; cbn; auto.
Qed.

Lemma str_drop_split (n : nat) (s : string) :
  exists front, s = front ++ str_drop n s.
Proof.
  revert s. induction n as [|n IH]; intros s.
  - exists "". reflexivity.
  - destruct s as [|c s]; [exists ""; reflexivity|].
    destruct (IH s) as (front & H). exists (String c front). cbn.
    rewrite <- H. reflexivity.
Qed.

Lemma str_drop_append (a b : string) : str_drop (String.length a) (a ++ b) = b.
Proof. induction a as [|c a IH]; cbn; [destruct b; reflexivity|exact IH]. Qed.

Lemma antiprompt_found_iff (out a : string) :
  str_length out <= SIZE_MAX ->
  antiprompt_found out a = true <-> ends_with out a.
Proof.
  unfold antiprompt_found, str_find, ends_with, str_length, SIZE_MAX.
  intros Hmax. split.
  - intros H.
    destruct (_ <? _)%Z eqn:Ep; [discriminate|]. apply Z.ltb_ge in Ep.
    match type of H with
    | match find_scan a (str_drop ?n out) ?i with _ => _ end = _ =>
        set (d := n) in *; set (pos := i) in *
    end.
    destruct (find_scan a (str_drop d out) pos) as [j|] eqn:Ef;
      [clear H|discriminate].
    destruct (Nat.le_gt_cases (String.length a) (String.length out))
      as [Hle|Hgt].
    + assert (Hpos : pos = Z.of_nat (String.length out)
                           - Z.of_nat (String.length a))
        by (unfold pos, to_size_t; apply Z.mod_small; lia).
      assert (Hl : String.length (str_drop d out) = String.length a)
        by (rewrite str_drop_length; unfold d; lia).
      destruct (find_scan_same_length a _ pos Hl) as (Hto & _).
      specialize (Hto (ex_intro _ j Ef)).
      destruct (str_drop_split d out) as (front & Hs).
      exists front. rewrite <- Hto. exact Hs.
    + rewrite find_scan_short in Ef; [discriminate|].
      rewrite str_drop_length. lia.
  - intros (front & ->). rewrite length_append in *.
    assert (Hpos : to_size_t
                     (Z.of_nat (String.length front + String.length a)
                      - Z.of_nat (String.length a))
                   = Z.of_nat (String.length front))
      by (unfold to_size_t; rewrite Z.mod_small; lia).
    rewrite Hpos.
    assert (Ep : (Z.of_nat (String.length front + String.length a)
                  <? Z.of_nat (String.length front))%Z = false)
      by (apply Z.ltb_ge; lia).
    rewrite Ep, Nat2Z.id, str_drop_append.
    destruct (find_scan_same_length a a (Z.of_nat (String.length front))
                eq_refl) as (_ & Hfrom).
    destruct (Hfrom eq_refl) as (j & ->). reflexivity.
Qed.

Close Scope string_scope.

Lemma check_antiprompts_true (out : string) (l : list string) (flag : bool) :
  check_antiprompts out l flag = true <->
  flag = true \/ exists a, In a l /\ antiprompt_found out a = true.
Proof.
  induction l as [|a l IH]; cbn [check_antiprompts In].
  - split; [auto|]. intros [H|(a & [] & _)]. exact H.
  - destruct (antiprompt_found out a) eqn:Ea.
    + split; [|reflexivity]. intros _. right. exists a. auto.
    + rewrite IH. split.
      * intros [H|(b & Hb & Hf)]; [auto|]. right. exists b. auto.
      * intros [H|(b & [<-|Hb] & Hf)]; [auto|congruence|].
        right. exists b. auto.
Qed.

Lemma lower_length (x : string) : String.length (lower x) = String.length x.
Proof. induction x as [|c x IH]; cbn; [reflexivity|]. rewrite IH. reflexivity. Qed.

Lemma same_length_suffix (x y a b : string) :
  (x ++ a)%string = (y ++ b)%string -> String.length a = String.length b ->
  a = b.
Proof.
  revert y. induction x as [|c x IH]; intros y H Hl.
  - destruct y as [|d y]; [exact H|]. cbn in H. subst a. cbn in Hl.
    rewrite length_append in Hl. lia.
  - destruct y as [|d y].
    + cbn in H. subst b. cbn in Hl. rewrite length_append in Hl. lia.
    + cbn in H. injection H as _ H. exact (IH y H Hl).
Qed.

Lemma case_variant_is_no_suffix (out front tail a : string) :
  out = (front ++ tail)%string -> differs_only_in_case tail a ->
  ~ ends_with out a.
Proof.
  intros -> (Hne & Hlow) (front' & H). apply Hne.
  apply (same_length_suffix front front' tail a H).
  rewrite <- (lower_length tail), Hlow. apply lower_length.
Qed.

(** C4.  The test of line 290 succeeds exactly when the text rendered
    from the repetition window ends with the reverse prompt, character
    for character.  In interactive mode with the queue drained, a
    reverse prompt that the rendered text ends with makes the iteration
    ask the user for input; when the flag was not set and the end of the
    rendered text differs from every reverse prompt, be it in the case
    of letters only, the user is not asked and nothing is read. *)
Theorem antiprompt_is_exact_suffix_match (s : state) :
  interactive (params s) = true ->
  drained s = true ->
  str_length (render (ctx s) (last_n_tokens s)) <= SIZE_MAX ->
  let out := render (ctx s) (last_n_tokens s) in
  (forall a, antiprompt_found out a = true <-> ends_with out a)
  /\ ((exists a, In a (antiprompt (params s)) /\ ends_with out a) ->
      exists s' t k,
        interact s = Next s'
        /\ trace s' = trace s ++ t /\ marks t = repeat MInput (S k))
  /\ (is_interacting (glob s) = false ->
      (forall a, In a (antiprompt (params s)) ->
         exists front tail,
           out = (front ++ tail)%string /\ differs_only_in_case tail a) ->
      interact s = Next (set_is_interacting false s)).
Proof.
  intros Hi Hd Hmax out.
  assert (Hiff : forall a, antiprompt_found out a = true <-> ends_with out a)
    by (intros a; apply antiprompt_found_iff; exact Hmax).
  split; [exact Hiff|].
  unfold drained in Hd. unfold interact. rewrite Hi, Hd. cbn [andb].
  fold out. split.
  - intros (a & Hin & He).
    assert (Hc : check_antiprompts out (antiprompt (params s))
                   (is_interacting (glob s)) = true)
      by (apply check_antiprompts_true; right; exists a; split;
          [exact Hin|apply Hiff; exact He]).
    rewrite Hc. cbn [is_interacting glob set_is_interacting set_glob].
    destruct (solicit_spec (set_is_interacting true s))
      as (s2 & s3 & s' & buffer & t & k & -> & _ & _ & _ & _ & _ & _ & _
          & _ & _ & _ & _ & Ht & Hm).
    exists (set_is_interacting false s'), t, k. cbn. auto.
  - intros Hflag Hall.
    assert (Hc : check_antiprompts out (antiprompt (params s))
                   (is_interacting (glob s)) = false).
    { destruct (check_antiprompts _ _ _) eqn:E; [|reflexivity].
      apply check_antiprompts_true in E.
      destruct E as [E|(a & Hin & Hf)]; [congruence|].
      destruct (Hall a Hin) as (front & tail & Ho & Hdiff).
      destruct (case_variant_is_no_suffix _ _ _ _ Ho Hdiff).
      apply Hiff. exact Hf. }
    rewrite Hc. reflexivity.
Qed.

(** ** C5: instruct mode wraps the user's text *)

Lemma resolve_modes_instruct (p : gpt_params) :
  instruct (resolve_modes p) = instruct p.
Proof.
  unfold resolve_modes. generalize instruction_marker. intros m.
  destruct (instruct p) eqn:Ei; cbn.
  - destruct (negb _); cbn; destruct (interactive_start p); cbn; auto.
  - destruct (negb _); cbn; destruct (interactive_start p); cbn; auto.
Qed.

Lemma run_init_markers (c : llama_context) (p : gpt_params) (i : istream)
  (g : globals) (s0 : state) :
  run_init c p i g = Next s0 ->
  inp_pfx s0 = llama_tokenize (ctx s0) instruct_prefix true
  /\ inp_sfx s0 = llama_tokenize (ctx s0) instruct_suffix false
  /\ (instruct (params s0) = true -> interactive (params s0) = true).
Proof.
  intros H.
  assert (Hp : instruct (params s0) = true -> interactive (params s0) = true).
  { destruct (run_init_params c p i g) as (p3 & Hp3 & _).
    rewrite H in Hp3. cbn in Hp3. rewrite Hp3, resolve_modes_instruct.
    apply resolve_modes_spec. }
  revert H. unfold run_init.
  destruct (llama_eval _ _ _ _) as [ret c1].
  destruct (_ <? 0); [discriminate|].
  intros [= <-].
  match goal with |- context [console ?st ?x] =>
    destruct (console_eq st x) as (g2 & t2 & E & _) end.
  rewrite E in *. clear E.
  destruct (interactive _); cbn in *; auto.
Qed.

Lemma read_hello (s : state) (rest : string) (fuel : nat) :
  good (instream s) = true ->
  buf (instream s) = ("hello" ++ nl ++ rest)%string ->
  exists s3,
    read_lines (S fuel) s EmptyString EmptyString
    = Some (s3, ("hello" ++ nl)%string).
Proof.
  intros Hg Hb. cbn [read_lines]. unfold getline. rewrite Hg, Hb.
  cbn. eexists. reflexivity.
Qed.

(** C5.  In a session with instruct mode on, when the loop asks for
    input and the user's line is "hello", the pending queue gets, in
    this order, the tokens of the instruction marker (two newlines,
    "### Instruction:", two newlines; tokenized with the leading
    marker), the tokens of "hello" followed by a newline, and the tokens
    of the response marker (two newlines, "### Response:", two
    newlines).  The cursor is set to the length the queue had before,
    so what remains to be forwarded starts with the instruction
    marker. *)
Theorem instruct_mode_wraps_user_input (c : llama_context) (p : gpt_params)
  (i : istream) (g : globals) (s0 s : state) (rest : string) :
  run_init c p i g = Next s0 ->
  same_session s0 s ->
  instruct (params s) = true ->
  drained s = true ->
  is_interacting (glob s) = true ->
  good (instream s) = true ->
  buf (instream s) = ("hello" ++ nl ++ rest)%string ->
  let pfx := llama_tokenize (ctx s0) instruct_prefix true in
  let line := llama_tokenize (ctx s) ("hello" ++ nl)%string false in
  let sfx := llama_tokenize (ctx s0) instruct_suffix false in
  exists s',
    interact s = Next s'
    /\ embd_inp s' = embd_inp s ++ pfx ++ line ++ sfx
    /\ input_consumed s' = to_int (size (embd_inp s))
    /\ (size (embd_inp s) <= INT_MAX ->
        skipn (Z.to_nat (input_consumed s')) (embd_inp s')
        = pfx ++ line ++ sfx)
    /\ instruct_prefix
       = String newline (String newline "### Instruction:" ++ nl ++ nl)%string
    /\ instruct_suffix
       = String newline (String newline "### Response:" ++ nl ++ nl)%string.
Proof.
  intros Hinit (Hp & Hpf & Hsf & _) Hins Hd Hflag Hg Hb pfx line sfx.
  destruct (run_init_markers _ _ _ _ _ Hinit) as (Epfx & Esfx & Hint).
  rewrite <- Hp in Hint. specialize (Hint Hins).
  unfold interact. unfold drained in Hd. rewrite Hint, Hd. cbn [andb].
  assert (Hc : check_antiprompts (render (ctx s) (last_n_tokens s))
                 (antiprompt (params s)) (is_interacting (glob s)) = true)
    by (apply check_antiprompts_true; left; exact Hflag).
  rewrite Hc. cbn [is_interacting glob set_is_interacting set_glob].
  set (s1 := set_is_interacting true s).
  destruct (solicit_spec s1)
    as (s2 & s3 & s' & buffer & t & k & -> & Hin & Hr & He & Hic & _).
  destruct (read_hello s2 rest (String.length (buf (instream s)))
              ltac:(rewrite Hin; exact Hg) ltac:(rewrite Hin; exact Hb))
    as (s3' & Hr').
  change (instream s1) with (instream s) in Hr.
  rewrite Hr' in Hr. injection Hr as _ <-.
  cbn in He, Hic. rewrite Hins in He, Hic.
  exists (set_is_interacting false s'). cbn [and_then].
  assert (Hq : embd_inp s' = embd_inp s ++ pfx ++ line ++ sfx).
  { rewrite He. unfold pfx, line, sfx. rewrite <- Epfx, <- Esfx, Hpf, Hsf.
    reflexivity. }
  split; [reflexivity|]. cbn. split; [exact Hq|]. split; [exact Hic|].
  split; [|split; reflexivity].
  intros Hfit. rewrite Hic, Hq, to_int_id.
  - unfold size. rewrite Nat2Z.id, skipn_app, skipn_all, Nat.sub_diag.
    reflexivity.
  - pose proof (size_nonneg (embd_inp s)). unfold INT_MIN. lia.
Qed.

(** ** C6: the end-of-sequence token *)

Lemma back_In {A : Type} (l : list A) (t : A) : back l = Some t -> In t l.
Proof.
  induction l as [|a l IH]; [discriminate|].
  destruct l as [|b l]; cbn [back].
  - intros [= ->]. left. reflexivity.
  - intros H. right. apply IH. exact H.
Qed.

Lemma firstn_In {A : Type} (k : nat) (l : list A) (x : A) :
  In x (firstn k l) -> In x l.
Proof.
  intros H. rewrite <- (firstn_skipn k l). apply in_or_app. left. exact H.
Qed.

Section EndOfSequence.

Hypothesis eval_succeeds :
  forall c tokens n_past n_threads,
    fst (llama_eval c tokens n_past n_threads) = 0.

Lemma predict_succeeds (s : state) :
  exists c t,
    predict s
    = Next (set_embd []
              (set_n_past (to_int (n_past s + size (embd s)))
                 (set_trace (trace s ++ t) (set_ctx c s))))
    /\ eval_marks s (marks t).
Proof.
  destruct (predict s) as [s1| | | | | |] eqn:E.
  - destruct (predict_spec _ _ E) as (c & t & -> & Hnil & Hcons).
    exists c, t. split; [reflexivity|]. unfold eval_marks.
    destruct (embd s) as [|a l]; [left|right].
    + destruct Hnil as (-> & _); auto.
    + destruct Hcons as (-> & _); [discriminate|]. split;
        [discriminate|reflexivity].
  - exfalso. revert E. unfold predict.
    destruct (0 <? _); [destruct (llama_eval _ _ _ _);
                         destruct (_ =? 0)|]; discriminate.
  - exfalso. revert E. unfold predict.
    destruct (0 <? _); [|discriminate].
    pose proof (eval_succeeds (ctx s) (embd s) (n_past s)
                  (n_threads (params s))) as H0.
    destruct (llama_eval _ _ _ _) as [ret c0]. cbn in H0. subst ret.
    discriminate.
  - exfalso. revert E. unfold predict.
    destruct (0 <? _); [destruct (llama_eval _ _ _ _);
                         destruct (_ =? 0)|]; discriminate.
  - exfalso. revert E. unfold predict.
    destruct (0 <? _); [destruct (llama_eval _ _ _ _);
                         destruct (_ =? 0)|]; discriminate.
  - exfalso. revert E. unfold predict.
    destruct (0 <? _); [destruct (llama_eval _ _ _ _);
                         destruct (_ =? 0)|]; discriminate.
  - exfalso. revert E. unfold predict.
    destruct (0 <? _); [destruct (llama_eval _ _ _ _);
                         destruct (_ =? 0)|]; discriminate.
Qed.

Lemma interact_off (s : state) :
  interactive (params s) = false -> interact s = Next s.
Proof. intros H. unfold interact. rewrite H. reflexivity. Qed.

Lemma refill_off (s : state) :
  interactive (params s) = false -> refill s = s.
Proof. intros H. unfold refill. rewrite H. reflexivity. Qed.

Lemma eval_marks_repeat (s : state) (m : list mark) :
  eval_marks s m -> exists n, m = repeat MEval n.
Proof. intros [[_ ->]|[_ ->]]; [exists O|exists 1%nat]; reflexivity. Qed.

Lemma pending_iteration (s : state) :
  eos_ready s -> input_consumed s < size (embd_inp s) ->
  exists s1 t,
    iteration s = Next s1
    /\ eos_ready s1
    /\ embd_inp s1 = embd_inp s
    /\ input_consumed s < input_consumed s1
    /\ trace s1 = trace s ++ t
    /\ eval_marks s (marks t).
Proof.
  intros (Hoff & Hrem & Hw & Hassert & Hic & Hfit & Hall) Hlt.
  assert (Hint : to_int (size (embd_inp s)) = size (embd_inp s))
    by (apply to_int_id; unfold INT_MIN;
        pose proof (size_nonneg (embd_inp s)); lia).
  destruct (predict_succeeds s) as (c & t & Hp & Hm).
  set (sp := set_embd [] _) in Hp.
  assert (Hd : (to_int (size (embd_inp sp)) <=? input_consumed sp) = false)
    by (cbn; rewrite Hint; apply Z.leb_gt; lia).
  destruct (fill_pending _ Hd) as (Ef & Hgt).
  destruct (forward_defined (S (List.length (embd_inp sp))) sp)
    as (sf & Hf); cbn; try lia; try assumption.
  { unfold size. lia. }
  destruct (forward_spec _ _ _ Hf) as (k & Hlen & Esf & Hk & _).
  cbn zeta in *. specialize (Hk Hgt).
  cbn [input_consumed embd_inp last_n_tokens embd sp set_embd set_n_past
         set_trace set_ctx] in Hlen, Esf.
  set (fw := firstn k (skipn (Z.to_nat (input_consumed s)) (embd_inp s)))
    in *.
  destruct (display_eq sf) as (gd & td & Ed & _ & Htd).
  assert (Hoff_d : interactive (params (display sf)) = false)
    by (rewrite Ed, Esf; exact Hoff).
  assert (Hback : exists x, back (embd (display sf)) = Some x
                            /\ x <> llama_token_eos).
  { assert (Hemb : embd (display sf) = fw) by (rewrite Ed, Esf; reflexivity).
    rewrite Hemb.
    destruct (back_nonempty fw) as (x & Hx).
    - intros E. rewrite E in Hlen. cbn in Hlen. lia.
    - exists x. split; [exact Hx|].
      apply back_In in Hx. unfold fw in Hx. apply firstn_In in Hx.
      rewrite Forall_forall in Hall. exact (Hall _ Hx). }
  destruct Hback as (x & Hx & Hxe).
  exists (display sf), (t ++ td).
  split.
  { unfold iteration, before_eos_check.
    rewrite Hp. cbn [and_then]. rewrite Ef, Hf. cbn [and_then].
    rewrite (interact_off _ Hoff_d). cbn [and_then].
    unfold eos_check. rewrite Hx.
    apply Z.eqb_neq in Hxe. rewrite Hxe. cbn [and_then].
    rewrite (refill_off _ Hoff_d). reflexivity. }
  assert (Hfwlen : (k <= List.length (embd_inp s)
                         - Z.to_nat (input_consumed s))%nat).
  { rewrite <- Hlen. unfold fw. rewrite length_firstn, length_skipn. lia. }
  rewrite Ed, Esf. cbn. unfold eos_ready. cbn.
  repeat split; auto; try lia.
  - intros E. apply (f_equal (@List.length Z)) in E.
    rewrite length_skipn, length_app, Hlen in E.
    assert (Hwl : (0 < List.length (last_n_tokens s))%nat)
      by (destruct (last_n_tokens s); [congruence|cbn; lia]).
    cbn [List.length] in E. lia.
  - unfold size in *. lia.
  - replace (Z.to_nat (input_consumed s + Z.of_nat k))
      with (k + Z.to_nat (input_consumed s))%nat by lia.
    rewrite <- skipn_skipn. apply Forall_forall. intros y Hy.
    rewrite Forall_forall in Hall. apply Hall.
    rewrite <- (firstn_skipn k (skipn _ (embd_inp s))).
    apply in_or_app. right. exact Hy.
  - rewrite app_assoc. reflexivity.
  - rewrite marks_app, Htd, app_nil_r. exact Hm.
Qed.

Hypothesis sampler_returns_eos :
  forall c window k p t r,
    fst (llama_sample_top_p_top_k c window k p t r) = llama_token_eos.

Lemma sample_next_eos (s : state) :
  last_n_tokens s <> [] ->
  (ignore_eos (params s) = true -> perplexity (params s) = false) ->
  exists c w,
    sample_next s
    = Next (set_remaining_tokens (to_int (remaining_tokens s - 1))
              (set_input_noecho false
                 (set_embd (embd s ++ [llama_token_eos])
                    (set_last_n_tokens (w ++ [llama_token_eos])
                       (set_trace
                          (trace s
                           ++ [EvSample (last_n_tokens s) llama_token_eos])
                          (set_ctx c s)))))).
Proof.
  intros Hw Hassert.
  destruct (sample_next s) as [s1| | | | | |] eqn:E.
  - destruct (sample_next_spec _ _ E) as (id & c & old & w & Ew & ->).
    assert (Hid : id = llama_token_eos).
    { revert E. unfold sample_next.
      destruct (ignore_eos (params s)); [destruct (perplexity (params s))|];
        cbn [and_then]; try discriminate;
        match goal with |- context [llama_sample_top_p_top_k ?c ?w ?k ?p ?t ?r] =>
          pose proof (sampler_returns_eos c w k p t r) as Hs;
          destruct (llama_sample_top_p_top_k c w k p t r) as [id' c']
        end; cbn in Hs; subst id';
        cbn [last_n_tokens emit set_ctx set_trace];
        rewrite Ew; intros H;
        apply (f_equal (fun o => embd (outcome_state o))) in H; cbn in H;
        apply app_inj_tail in H; destruct H as (_ & H); congruence. }
    subst id. exists c, w. rewrite Ew. reflexivity.
  - exfalso. revert E. unfold sample_next.
    destruct (ignore_eos _); [destruct (perplexity _)|]; cbn [and_then];
      try discriminate;
      destruct (llama_sample_top_p_top_k _ _ _ _ _ _);
      cbn [last_n_tokens emit set_ctx set_trace];
      destruct (last_n_tokens s); discriminate.
  - exfalso. revert E. unfold sample_next.
    destruct (ignore_eos _); [destruct (perplexity _)|]; cbn [and_then];
      try discriminate;
      destruct (llama_sample_top_p_top_k _ _ _ _ _ _);
      cbn [last_n_tokens emit set_ctx set_trace];
      destruct (last_n_tokens s); discriminate.
  - exfalso. revert E. unfold sample_next.
    destruct (ignore_eos _); [destruct (perplexity _)|]; cbn [and_then];
      try discriminate;
      destruct (llama_sample_top_p_top_k _ _ _ _ _ _);
      cbn [last_n_tokens emit set_ctx set_trace];
      destruct (last_n_tokens s); congruence.
  - exfalso. revert E. unfold sample_next.
    destruct (ignore_eos _) eqn:Ei; [destruct (perplexity _) eqn:Ep|];
      cbn [and_then];
      try (specialize (Hassert eq_refl); congruence);
      destruct (llama_sample_top_p_top_k _ _ _ _ _ _);
      cbn [last_n_tokens emit set_ctx set_trace];
      destruct (last_n_tokens s); discriminate.
  - exfalso. revert E. unfold sample_next.
    destruct (ignore_eos _); [destruct (perplexity _)|]; cbn [and_then];
      try discriminate;
      destruct (llama_sample_top_p_top_k _ _ _ _ _ _);
      cbn [last_n_tokens emit set_ctx set_trace];
      destruct (last_n_tokens s); discriminate.
  - exfalso. revert E. unfold sample_next.
    destruct (ignore_eos _); [destruct (perplexity _)|]; cbn [and_then];
      try discriminate;
      destruct (llama_sample_top_p_top_k _ _ _ _ _ _);
      cbn [last_n_tokens emit set_ctx set_trace];
      destruct (last_n_tokens s); discriminate.
Qed.

Lemma drained_iteration (s : state) :
  eos_ready s -> input_consumed s = size (embd_inp s) ->
  exists s1 t me,
    iteration s = Break s1
    /\ trace s1 = trace s ++ t
    /\ marks t = me ++ [MSample]
    /\ eval_marks s me.
Proof.
  intros (Hoff & Hrem & Hw & Hassert & Hic & Hfit & Hall) Heq.
  assert (Hint : to_int (size (embd_inp s)) = size (embd_inp s))
    by (apply to_int_id; unfold INT_MIN;
        pose proof (size_nonneg (embd_inp s)); lia).
  destruct (predict_succeeds s) as (c & t & Hp & Hm).
  set (sp := set_embd [] _) in Hp.
  assert (Hd : (to_int (size (embd_inp sp)) <=? input_consumed sp) = true)
    by (cbn; rewrite Hint; apply Z.leb_le; lia).
  destruct (sample_next_eos sp Hw Hassert) as (c' & w & Hs).
  set (sf := set_remaining_tokens _ _) in Hs.
  destruct (display_eq sf) as (gd & td & Ed & _ & Htd).
  assert (Hoff_d : interactive (params (display sf)) = false)
    by (rewrite Ed; exact Hoff).
  assert (Hback : back (embd (display sf)) = Some llama_token_eos)
    by (rewrite Ed; reflexivity).
  eexists _, (t ++ [EvSample (last_n_tokens s) llama_token_eos] ++ td
              ++ [EvDiag DEndOfText]), (marks t).
  split.
  { unfold iteration, before_eos_check.
    rewrite Hp. cbn [and_then]. unfold fill. rewrite Hd, Hs.
    cbn [and_then]. rewrite (interact_off _ Hoff_d). cbn [and_then].
    unfold eos_check. rewrite Hback, Z.eqb_refl, Hoff_d.
    cbn [and_then]. reflexivity. }
  split; [|split; [|exact Hm]].
  - rewrite Ed. cbn. rewrite <- !app_assoc. reflexivity.
  - rewrite !marks_app, Htd. cbn. reflexivity.
Qed.

Lemma finish_spec (s : state) :
  exists s' t,
    finish s = Return 0 s' /\ trace s' = trace s ++ t /\ marks t = [].
Proof.
  unfold finish.
  destruct (console_eq CONSOLE_STATE_DEFAULT (emit EvFree (emit EvTimings s)))
    as (g & t & -> & _ & Ht).
  eexists _, ([EvTimings; EvFree] ++ t). split; [reflexivity|]. split.
  - cbn. rewrite <- !app_assoc. reflexivity.
  - rewrite marks_app, Ht. reflexivity.
Qed.

Lemma eos_run (n : nat) (s : state) :
  eos_ready s ->
  size (embd_inp s) - input_consumed s <= Z.of_nat n ->
  exists fuel s' t ne,
    run_loop fuel s = Return 0 s'
    /\ trace s' = trace s ++ t
    /\ marks t = repeat MEval ne ++ [MSample].
Proof.
  revert s. induction n as [|n IH]; intros s Hr Hn.
  - assert (Heq : input_consumed s = size (embd_inp s))
      by (destruct Hr as (_ & _ & _ & _ & Hic & _); lia).
    destruct (drained_iteration s Hr Heq) as (s1 & t & me & Hi & Ht & Hm & He).
    destruct (finish_spec s1) as (s' & tf & Hf & Htf & Hmf).
    destruct (eval_marks_repeat _ _ He) as (ne & ->).
    exists 1%nat, s', (t ++ tf), ne. split; [|split].
    + cbn [run_loop]. unfold loop_condition.
      destruct Hr as (_ & Hrem & _). apply Z.gtb_lt in Hrem.
      rewrite Hrem. cbn [orb]. rewrite Hi. exact Hf.
    + rewrite Htf, Ht, app_assoc. reflexivity.
    + rewrite marks_app, Hm, Hmf, app_nil_r. reflexivity.
  - destruct (Z.eq_dec (input_consumed s) (size (embd_inp s))) as [Heq|Hne].
    + destruct (drained_iteration s Hr Heq)
        as (s1 & t & me & Hi & Ht & Hm & He).
      destruct (finish_spec s1) as (s' & tf & Hf & Htf & Hmf).
      destruct (eval_marks_repeat _ _ He) as (ne & ->).
      exists 1%nat, s', (t ++ tf), ne. split; [|split].
      * cbn [run_loop]. unfold loop_condition.
        destruct Hr as (_ & Hrem & _). apply Z.gtb_lt in Hrem.
        rewrite Hrem. cbn [orb]. rewrite Hi. exact Hf.
      * rewrite Htf, Ht, app_assoc. reflexivity.
      * rewrite marks_app, Hm, Hmf, app_nil_r. reflexivity.
    + assert (Hlt : input_consumed s < size (embd_inp s))
        by (destruct Hr as (_ & _ & _ & _ & Hic & _); lia).
      destruct (pending_iteration s Hr Hlt)
        as (s1 & t & Hi & Hr1 & Hq & Hadv & Ht & He).
      destruct (IH s1 Hr1) as (fuel & s' & t' & ne' & Hrun & Ht' & Hm');
        [rewrite Hq; lia|].
      destruct (eval_marks_repeat _ _ He) as (ne & Hne').
      exists (S fuel), s', (t ++ t'), (ne + ne')%nat. split; [|split].
      * cbn [run_loop]. unfold loop_condition.
        destruct Hr as (_ & Hrem & _). apply Z.gtb_lt in Hrem.
        rewrite Hrem. cbn [orb]. rewrite Hi. exact Hrun.
      * rewrite Ht', Ht, app_assoc. reflexivity.
      * rewrite marks_app, Hm', Hne', repeat_app, app_assoc. reflexivity.
Qed.

Lemma run_init_eos_ready (c : llama_context) (p : gpt_params) (i : istream)
  (g : globals) (s0 : state) :
  run_init c p i g = Next s0 ->
  interactive (params s0) = false ->
  0 < n_predict (params s0) ->
  0 < repeat_last_n (params s0) ->
  (ignore_eos (params s0) = true -> perplexity (params s0) = false) ->
  size (embd_inp s0) <= INT_MAX ->
  Forall (fun t => t <> llama_token_eos) (embd_inp s0) ->
  eos_ready s0.
Proof.
  intros Hinit Hoff Hbudget Hwin Hassert Hfit Hall.
  destruct (run_init_window _ _ _ _ _ Hinit) as (Hw & _).
  assert (Hz : input_consumed s0 = 0 /\ remaining_tokens s0
                                        = n_predict (params s0)).
  { revert Hinit. unfold run_init.
    destruct (llama_eval _ _ _ _) as [ret c1].
    destruct (_ <? 0); [discriminate|]. intros [= <-].
    match goal with |- context [console ?st ?x] =>
      destruct (console_eq st x) as (g2 & t2 & -> & _) end.
    destruct (interactive _); cbn; auto. }
  destruct Hz as (Hz & Hrem).
  unfold eos_ready. rewrite Hz, Hrem.
  pose proof (size_nonneg (embd_inp s0)).
  repeat split; auto; try lia.
  rewrite Hw. destruct (Z.to_nat (repeat_last_n (params s0))) eqn:E;
    [lia|discriminate].
Qed.

End EndOfSequence.

Lemma and_then_no_exit (o : outcome) (k : state -> outcome) :
  no_normal_exit o ->
  (forall s1, o = Next s1 -> no_normal_exit (k s1)) ->
  no_normal_exit (o >>= k).
Proof. intros Ho Hk. destruct o; cbn in *; auto. Qed.

Lemma predict_no_exit (s : state) : no_normal_exit (predict s).
Proof.
  unfold predict. destruct (0 <? _); cbn; auto.
  destruct (llama_eval _ _ _ _) as [ret c]. destruct (ret =? 0); cbn; auto.
Qed.

Lemma forward_no_exit (fuel : nat) (s : state) :
  no_normal_exit (forward fuel s).
Proof.
  revert s. induction fuel as [|n IH]; intros s; cbn [forward].
  - destruct (_ >? _); cbn; auto.
  - destruct (_ >? _); cbn; auto.
    destruct (_ <? 0); cbn; auto.
    destruct (nth_error _ _); cbn; auto.
    destruct (last_n_tokens s); cbn; auto.
    destruct (_ >=? _); cbn; auto.
Qed.

Lemma fill_no_exit (s : state) : no_normal_exit (fill s).
Proof.
  unfold fill. destruct (_ <=? _); [|apply forward_no_exit].
  unfold sample_next.
  destruct (ignore_eos _); [destruct (perplexity _)|]; cbn; auto;
    destruct (llama_sample_top_p_top_k _ _ _ _ _ _); cbn;
    destruct (last_n_tokens s); cbn; auto.
Qed.

Lemma iteration_no_exit (s : state) :
  interactive (params s) = true -> no_normal_exit (iteration s).
Proof.
  intros Hi. unfold iteration.
  apply and_then_no_exit; [|intros; exact I].
  apply and_then_no_exit.
  - unfold before_eos_check.
    apply and_then_no_exit.
    + apply and_then_no_exit; [apply predict_no_exit|].
      intros s1 _. apply fill_no_exit.
    + intros s1 _.
      destruct (interact_spec (display s1)) as (s' & t & -> & _). exact I.
  - intros sb Hb.
    pose proof (before_eos_check_session s) as (Hp & _).
    rewrite Hb in Hp. cbn in Hp.
    unfold eos_check. destruct (back _); cbn; auto.
    destruct (_ =? _); cbn; auto. rewrite Hp, Hi. exact I.
Qed.

Lemma run_loop_no_exit (fuel : nat) (s : state) :
  interactive (params s) = true -> no_normal_exit (run_loop fuel s).
Proof.
  revert s. induction fuel as [|n IH]; intros s Hi; cbn [run_loop];
    [exact I|].
  unfold loop_condition. rewrite Hi, orb_true_r.
  pose proof (iteration_no_exit s Hi) as Hn.
  pose proof (iteration_session s) as (Hp & _).
  destruct (iteration s) as [s1| | | | | |]; cbn in *; auto;
    try contradiction.
  apply IH. rewrite Hp. exact Hi.
Qed.

Lemma filled_flag (s sf : state) :
  predict s >>= fill = Next sf ->
  is_interacting (glob sf) = is_interacting (glob s)
  /\ params sf = params s.
Proof.
  intros H. apply and_then_next in H. destruct H as (sp & Hp & Hf).
  apply predict_spec in Hp. destruct Hp as (c & t & -> & _).
  unfold fill in Hf. destruct (_ <=? _).
  - apply sample_next_spec in Hf.
    destruct Hf as (id & c' & old & w & _ & ->). auto.
  - apply forward_spec in Hf. destruct Hf as (k & _ & -> & _). auto.
Qed.

Lemma flag_solicits (s sf : state) :
  interactive (params s) = true ->
  is_interacting (glob s) = true ->
  predict s >>= fill = Next sf ->
  (drained sf = true ->
   exists s2 t k,
     interact (display sf) = Next s2
     /\ trace s2 = trace (display sf) ++ t
     /\ marks t = repeat MInput (S k))
  /\ (drained sf = false ->
      interact (display sf) = Next (display sf)
      /\ is_interacting (glob (display sf)) = true).
Proof.
  intros Hi Hflag Hf.
  destruct (filled_flag _ _ Hf) as (Hg & Hp).
  destruct (display_eq sf) as (gd & td & Ed & Hgd & _).
  assert (Hflag_d : is_interacting (glob (display sf)) = true)
    by (rewrite Ed; cbn; congruence).
  assert (Hi_d : interactive (params (display sf)) = true)
    by (rewrite Ed; cbn; congruence).
  assert (Hd_d : drained (display sf) = drained sf)
    by (rewrite Ed; reflexivity).
  unfold drained in Hd_d.
  split; intros Hd; unfold interact; rewrite Hi_d, Hd_d; fold (drained sf);
    rewrite Hd; cbn [andb]; [|auto].
  assert (Hc : check_antiprompts
                 (render (ctx (display sf)) (last_n_tokens (display sf)))
                 (antiprompt (params (display sf)))
                 (is_interacting (glob (display sf))) = true)
    by (apply check_antiprompts_true; left; exact Hflag_d).
  rewrite Hc. cbn [is_interacting glob set_is_interacting set_glob].
  destruct (solicit_spec (set_is_interacting true (display sf)))
    as (s2 & s3 & s' & buffer & t & k & -> & _ & _ & _ & _ & _ & _ & _
        & _ & _ & _ & _ & Ht & Hm).
  exists (set_is_interacting false s'), t, k. cbn. auto.
Qed.

Lemma eos_raises_flag (s sb : state) :
  interactive (params s) = true ->
  before_eos_check s = Next sb ->
  back (embd sb) = Some llama_token_eos ->
  exists s',
    iteration s = Next s'
    /\ is_interacting (glob s') = true
    /\ interactive (params s') = true.
Proof.
  intros Hi Hb He.
  pose proof (before_eos_check_session s) as (Hp & _).
  rewrite Hb in Hp. cbn in Hp.
  unfold iteration. rewrite Hb. cbn [and_then].
  unfold eos_check. rewrite He, Z.eqb_refl, Hp, Hi. cbn [and_then].
  eexists. split; [reflexivity|].
  unfold refill. cbn. rewrite Hp, Hi. cbn.
  destruct (_ <=? 0); cbn; rewrite Hp, Hi; auto.
Qed.


(** C6.  In interactive mode the loop never ends by itself: no iteration
    leaves it through [break] and the run never returns 0; an iteration
    whose batch ends with the end-of-sequence token sets the flag
    [is_interacting] instead, and with the flag set the next check made
    with the queue drained asks the user for input.  Without interactive
    mode, with a budget left, an evaluator that succeeds and a sampler
    whose first token is the end-of-sequence token, the run forwards the
    prompt (which holds no end-of-sequence token), samples exactly once
    and returns 0: the sampling is the last scheduling event of the
    run, no evaluation follows it. *)
Theorem eos_ends_or_solicits (s : state) :
  interactive (params s) = true ->
  (forall fuel, no_normal_exit (run_loop fuel s))
  /\ (forall sb,
        before_eos_check s = Next sb ->
        back (embd sb) = Some llama_token_eos ->
        exists s',
          iteration s = Next s'
          /\ is_interacting (glob s') = true
          /\ interactive (params s') = true
          /\ forall sf,
              predict s' >>= fill = Next sf ->
              (drained sf = true ->
               exists s2 t k,
                 interact (display sf) = Next s2
                 /\ trace s2 = trace (display sf) ++ t
                 /\ marks t = repeat MInput (S k))
              /\ (drained sf = false ->
                  interact (display sf) = Next (display sf)
                  /\ is_interacting (glob (display sf)) = true))
  /\ (forall c p i g s0,
        (forall c' tokens past threads,
            fst (llama_eval c' tokens past threads) = 0) ->
        (forall c' window k tp t r,
            fst (llama_sample_top_p_top_k c' window k tp t r)
            = llama_token_eos) ->
        run_init c p i g = Next s0 ->
        interactive (params s0) = false ->
        0 < n_predict (params s0) ->
        0 < repeat_last_n (params s0) ->
        (ignore_eos (params s0) = true -> perplexity (params s0) = false) ->
        size (embd_inp s0) <= INT_MAX ->
        Forall (fun t => t <> llama_token_eos) (embd_inp s0) ->
        exists fuel s' t ne,
          run fuel c p i g = Return 0 s'
          /\ trace s' = trace s0 ++ t
          /\ marks t = repeat MEval ne ++ [MSample]).
Proof.
  intros Hi. split; [|split].
  - intros fuel. apply run_loop_no_exit. exact Hi.
  - intros sb Hb He.
    destruct (eos_raises_flag _ _ Hi Hb He) as (s' & Hs' & Hflag & Hi').
    exists s'. repeat split; auto;
      destruct (flag_solicits _ _ Hi' Hflag H); tauto.
  - intros c p i g s0 Heval Hsample Hinit Hoff Hbudget Hwin Hassert Hfit Hall.
    pose proof (run_init_eos_ready _ _ _ _ _ Hinit Hoff Hbudget Hwin Hassert
                  Hfit Hall) as Hr.
    destruct (eos_run Heval Hsample (List.length (embd_inp s0)) s0 Hr)
      as (fuel & s' & t & ne & Hrun & Ht & Hm).
    + destruct Hr as (_ & _ & _ & _ & Hic & _). unfold size in *. lia.
    + exists fuel, s', t, ne. unfold run. rewrite Hinit. cbn [and_then].
      auto.
Qed.

End Properties.

(** ** The properties on concrete sessions *)

Ltac by_evaluation := vm_compute; repeat split; try reflexivity; try discriminate.

(** C3.  The stub sampler never returns the end-of-sequence token; the
    session is interactive with a budget of 3.  After the iteration of
    the third sample the budget is back at 3 and [is_interacting] is
    set, but the next iteration samples a fourth token before its check
    reads the user's line: four samples, not three, come before the
    first reading of input. *)
Theorem budget_of_three_gives_four_samples :
  let after n :=
    outcome_state
      (@run stub n stub_context0 budget_params hello_input initial_globals) in
  marks (trace (after 4%nat))
  = [MEval; MEval; MSample; MEval; MSample; MEval; MSample]
  /\ remaining_tokens (after 4%nat) = 3
  /\ is_interacting (glob (after 4%nat)) = true
  /\ marks (trace (after 5%nat))
     = [MEval; MEval; MSample; MEval; MSample; MEval; MSample;
        MEval; MSample; MInput].
Proof. by_evaluation. Qed.

Lemma pending_input_preempts_sampling_witness :
  exists t s1 k,
    trace (outcome_state (@iteration stub stub_start)) = trace stub_start ++ t
    /\ ~ In MSample (marks t)
    /\ @fill stub (outcome_state (@predict stub stub_start)) = Next s1
    /\ (0 < k)%nat
    /\ embd s1
       = firstn k
           (skipn (Z.to_nat (input_consumed stub_start))
              (embd_inp stub_start)).
Proof.
  destruct (@pending_input_preempts_sampling stub stub_start)
    as (t & Ht & Hp & _).
  - by_evaluation.
  - by_evaluation.
  - destruct Hp as (Hns & _ & Hfw).
    + by_evaluation.
    + destruct (Hfw) with (sp := outcome_state (@predict stub stub_start))
        as (s1 & k & Hf & Hk & Hb & _).
      * vm_compute. discriminate.
      * vm_compute. reflexivity.
      * exists t, s1, k. repeat split; assumption.
Defined.

Lemma repetition_window_keeps_its_length_witness :
  last_n_tokens stub_start = repeat 0 64
  /\ size (last_n_tokens (outcome_state (@run_loop stub 6 stub_start))) = 64.
Proof.
  destruct (@repetition_window_keeps_its_length stub stub_context0
              stub_params hello_input initial_globals stub_start)
    as (H0 & Hall & _).
  - by_evaluation.
  - split; [exact H0|].
    apply (Hall stub_start 6%nat); [constructor|].
    unfold observation_points. cbn [In]. tauto.
Defined.

Lemma antiprompt_is_exact_suffix_match_witness :
  exists s' t k,
    @interact stub reverse_checked = Next s'
    /\ trace s' = trace reverse_checked ++ t
    /\ marks t = repeat MInput (S k).
Proof.
  destruct (@antiprompt_is_exact_suffix_match stub reverse_checked)
    as (_ & Hhit & _).
  - by_evaluation.
  - by_evaluation.
  - by_evaluation.
  - apply Hhit. exists instruction_marker. split.
    + vm_compute. left. reflexivity.
    + exists " "%string. by_evaluation.
Defined.

Lemma instruct_mode_wraps_user_input_witness :
  exists s',
    @interact stub instruct_checked = Next s'
    /\ embd_inp s'
       = [1; 35; 75; 108]
         ++ @llama_tokenize stub stub_context0 instruct_prefix true
         ++ @llama_tokenize stub stub_context0 ("hello" ++ nl)%string false
         ++ @llama_tokenize stub stub_context0 instruct_suffix false
    /\ input_consumed s' = 4.
Proof.
  destruct (@instruct_mode_wraps_user_input stub stub_context0
              instruct_params hello_input initial_globals instruct_start
              instruct_checked EmptyString)
    as (s' & Hi & Hq & Hc & _).
  - by_evaluation.
  - by_evaluation.
  - by_evaluation.
  - by_evaluation.
  - by_evaluation.
  - by_evaluation.
  - by_evaluation.
  - exists s'. split; [exact Hi|]. split; [exact Hq|exact Hc].
Defined.

Lemma eos_ends_or_solicits_witness :
  exists fuel s' t ne,
    @run eos_stub fuel stub_context0 eos_params hello_input initial_globals
    = Return 0 s'
    /\ trace s'
       = trace
           (outcome_state
              (@run_init eos_stub stub_context0 eos_params hello_input
                 initial_globals))
         ++ t
    /\ marks t = repeat MEval ne ++ [MSample].
Proof.
  destruct (@eos_ends_or_solicits eos_stub eos_interactive) as (_ & _ & H).
  - by_evaluation.
  - apply H.
    + by_evaluation.
    + by_evaluation.
    + by_evaluation.
    + by_evaluation.
    + by_evaluation.
    + by_evaluation.
    + discriminate.
    + by_evaluation.
    + vm_compute. repeat constructor; discriminate.
Defined.

Lemma eval_failure_is_fatal_witness :
  exists s',
    @iteration stub failing_batch = Return 1 s'
    /\ marks (trace s') = marks (trace failing_batch) ++ [MEval].
Proof.
  destruct (@eval_failure_is_fatal stub failing_batch 7 (mkStub [] 50 []))
    as (Hi & _).
  - discriminate.
  - by_evaluation.
  - discriminate.
  - eexists. split; [exact Hi|]. by_evaluation.
Defined.

Lemma second_interrupt_forces_exit_witness :
  exists g1 out1 out2,
    sigint_handler SIGINT initial_globals = Resumed g1 out1
    /\ sigint_handler SIGINT g1 = Exited 130 out2.
Proof.
  destruct (second_interrupt_forces_exit initial_globals)
    as (g1 & out1 & out2 & H1 & _ & H2 & _).
  - by_evaluation.
  - exists g1, out1, out2. split; assumption.
Defined.

Lemma batch_nonempty_at_eos_check_witness :
  embd (outcome_state (@before_eos_check stub stub_start)) <> [].
Proof.
  apply (@batch_nonempty_at_eos_check stub stub_start
           (outcome_state (@before_eos_check stub stub_start))).
  by_evaluation.
Defined.

(** * Further properties of the loop *)

Section MoreProperties.

Context {B : Backend}.

(** ** The console style *)

(** X1.  [set_console_state] writes a control sequence exactly when
    colours are on and the style asked for differs from the current one.
    With colours on the current style is then the one asked for, with
    colours off it is left alone, and a second call for the same style
    writes nothing and changes nothing. *)
Theorem console_style_is_idempotent (st : console_state) (g : globals) :
  let (g1, o) := set_console_state st g in
  (o <> None <-> con_use_color g = true /\ con_st g <> st)
  /\ (o <> None -> o = Some (color_code st))
  /\ con_st g1 = (if con_use_color g then st else con_st g)
  /\ con_use_color g1 = con_use_color g
  /\ is_interacting g1 = is_interacting g
  /\ set_console_state st g1 = (g1, None).
Proof.
  unfold set_console_state.
  destruct g as [cur col flag]. cbn.
  destruct col; cbn.
  - destruct st, cur; cbn; repeat split; try congruence; try tauto;
      try (intros (_ & H); congruence); try (intros _; split; congruence).
  - repeat split; try congruence. intros (H & _). discriminate.
Qed.

(** ** Reading lines *)

Lemma split_line_none (s : string) :
  split_line s = None <-> has_newline s = false.
Proof.
  induction s as [|c s IH]; cbn [split_line has_newline]; [tauto|].
  destruct (Ascii.eqb c newline); cbn.
  - split; discriminate.
  - destruct (split_line s) as [[l r]|].
    + split; [discriminate|]. intros H. apply IH in H. discriminate.
    + tauto.
Qed.

Lemma split_line_some (s l r : string) :
  split_line s = Some (l, r) <->
  s = (l ++ nl ++ r)%string /\ has_newline l = false.
Proof.
  revert l r. induction s as [|c s IH]; intros l r;
    cbn [split_line has_newline].
  - split; [discriminate|]. intros (H & _).
    destruct l; discriminate.
  - destruct (Ascii.eqb c newline) eqn:Ec.
    + apply Ascii.eqb_eq in Ec. subst c. split.
      * intros [= <- <-]. auto.
      * intros (H & Hn). destruct l as [|d l].
        -- cbn in H. injection H as ->. reflexivity.
        -- cbn in H, Hn. injection H as <- _.
           rewrite Ascii.eqb_refl in Hn. discriminate.
    + split.
      * destruct (split_line s) as [[l' r']|] eqn:Es; [|discriminate].
        intros [= <- <-]. destruct (proj1 (IH l' r') eq_refl) as (-> & Hn).
        cbn [has_newline String.append]. rewrite Ec, Hn. auto.
      * intros (H & Hn). destruct l as [|d l].
        -- cbn in H. injection H as -> _.
           rewrite Ascii.eqb_refl in Ec. discriminate.
        -- cbn in H, Hn. injection H as <- ->.
           apply orb_false_iff in Hn. destruct Hn as (_ & Hn).
           rewrite (proj2 (IH l r) (conj eq_refl Hn)). reflexivity.
Qed.

Lemma getline_reads_line (l rest line0 : string) :
  has_newline l = false ->
  getline (mkIstream (l ++ nl ++ rest) true) line0
  = (mkIstream rest true, l).
Proof.
  intros Hl. unfold getline. cbn [good buf].
  rewrite (proj2 (split_line_some _ l rest) (conj eq_refl Hl)).
  reflexivity.
Qed.

(** On a stream that is good, [getline] returns the text before the
    first newline and leaves the text after it, so that nothing but that
    newline is lost; when there is no newline it returns all that is
    left and the stream is no longer good.  Conversely a line without
    newline that is followed by one is read back as it is.  On a stream
    that is not good the line is left as it was. *)
Theorem getline_splits_at_first_newline (i : istream) (line0 : string) :
  let (i', line) := getline i line0 in
  (good i = true ->
   has_newline line = false
   /\ ((good i' = true /\ buf i = (line ++ nl ++ buf i')%string)
       \/ (good i' = false /\ has_newline (buf i) = false
           /\ buf i = line /\ buf i' = EmptyString)))
  /\ (good i = false -> i' = i /\ line = line0)
  /\ (forall l rest,
        has_newline l = false ->
        getline (mkIstream (l ++ nl ++ rest) true) line0
        = (mkIstream rest true, l)).
Proof.
  pose proof (fun l rest => getline_reads_line l rest line0) as Hback.
  unfold getline at 1. destruct (good i) eqn:Eg.
  - destruct (split_line (buf i)) as [[l r]|] eqn:Es.
    + apply split_line_some in Es. destruct Es as (Es & Hn).
      cbn [good buf]. repeat split; auto; discriminate.
    + apply split_line_none in Es.
      cbn [good buf]. repeat split; auto; discriminate.
  - repeat split; auto; discriminate.
Qed.

End MoreProperties.

Section MoreReading.

Context {B : Backend}.

Lemma has_newline_append (a b : string) :
  has_newline (a ++ b) = has_newline a || has_newline b.
Proof.
  induction a as [|c a IH]; cbn [String.append has_newline]; [reflexivity|].
  rewrite IH, orb_assoc. reflexivity.
Qed.

Lemma str_back_append_char (a : string) (c : ascii) :
  str_back (a ++ String c EmptyString) = Some c.
Proof.
  induction a as [|d a IH]; [reflexivity|].
  cbn [String.append]. destruct (a ++ String c EmptyString)%string eqn:E.
  - destruct a; discriminate.
  - cbn [str_back]. exact IH.
Qed.

Lemma str_pop_back_append_char (a : string) (c : ascii) :
  str_pop_back (a ++ String c EmptyString) = a.
Proof.
  induction a as [|d a IH]; [reflexivity|].
  cbn [String.append].
  destruct (a ++ String c EmptyString)%string as [|a0 s0] eqn:E.
  - destruct a; discriminate.
  - transitivity (String d (str_pop_back (String a0 s0)));
      [reflexivity|]. rewrite IH. reflexivity.
Qed.

Lemma continued_length (ls : list string) :
  (List.length ls <= String.length (continued ls))%nat.
Proof.
  induction ls as [|l t IH]; cbn [continued List.length]; [cbn; lia|].
  rewrite !length_append. cbn. lia.
Qed.

Lemma read_lines_continued (ls : list string) :
  forall (fuel : nat) (s : state) (line0 buffer l rest : string),
    good (instream s) = true ->
    buf (instream s) = (continued ls ++ l ++ nl ++ rest)%string ->
    Forall (fun x => has_newline x = false) ls ->
    has_newline l = false ->
    str_back l <> Some backslash ->
    (List.length ls < fuel)%nat ->
    exists s',
      read_lines fuel s line0 buffer
      = Some (s', (buffer ++ joined ls ++ l ++ nl)%string)
      /\ instream s' = mkIstream rest true.
Proof.
  induction ls as [|x t IH]; intros fuel s line0 buffer l rest Hg Hb Hall Hl
    Hnb Hf; (destruct fuel as [|fuel]; [cbn in Hf; lia|]);
    cbn [read_lines continued joined] in *.
  - destruct (instream s) as [b g] eqn:Ei. cbn [good] in Hg. cbn [buf] in Hb.
    subst b g.
    cbn [String.append].
    rewrite (getline_reads_line l rest line0 Hl).
    exists (emit (EvGetline l) (set_instream (mkIstream rest true) s)).
    split; [|reflexivity].
    destruct (str_back l) as [c|] eqn:Ec; [|reflexivity].
    destruct (Ascii.eqb c backslash) eqn:E; [|reflexivity].
    apply Ascii.eqb_eq in E. congruence.
  - inversion Hall as [|x' t' Hx Ht]; subst.
    destruct (instream s) as [b g] eqn:Ei. cbn [good] in Hg. cbn [buf] in Hb.
    subst b g.
    set (line1 := (x ++ String backslash EmptyString)%string).
    assert (Hsplit : ((x ++ String backslash nl ++ continued t)
                      ++ l ++ nl ++ rest
                      = line1 ++ nl ++ (continued t ++ l ++ nl ++ rest))%string).
    { unfold line1. rewrite !append_assoc. reflexivity. }
    rewrite Hsplit.
    assert (Hn1 : has_newline line1 = false).
    { unfold line1. rewrite has_newline_append, Hx. reflexivity. }
    rewrite (getline_reads_line line1 _ line0 Hn1).
    unfold line1. rewrite str_back_append_char, Ascii.eqb_refl,
      str_pop_back_append_char.
    match goal with |- context [read_lines fuel ?s1 x ?b1] =>
      destruct (IH fuel s1 x b1 l rest) as (s' & Hr & Hi) end;
      try assumption; try reflexivity.
    + cbn in Hf. lia.
    + exists s'. split; [|exact Hi]. rewrite Hr.
      rewrite !append_assoc. reflexivity.
Qed.

(** X2.  Lines that end in a backslash are joined with the line that
    follows: when the input holds the lines [ls], each followed by a
    backslash, and then a line [l] that does not end in one, one
    solicitation reads them all, drops the backslashes, and hands on
    the lines of [ls] and [l], each followed by a newline; the stream is
    left at what follows [l]. *)
Theorem continuation_lines_are_joined (s : state) (ls : list string)
  (l rest : string) :
  good (instream s) = true ->
  buf (instream s) = (continued ls ++ l ++ nl ++ rest)%string ->
  Forall (fun x => has_newline x = false) ls ->
  has_newline l = false ->
  str_back l <> Some backslash ->
  exists s',
    read_lines (S (String.length (buf (instream s)))) s
      EmptyString EmptyString
    = Some (s', (joined ls ++ l ++ nl)%string)
    /\ instream s' = mkIstream rest true.
Proof.
  intros Hg Hb Hall Hl Hnb.
  apply (read_lines_continued ls _ s EmptyString EmptyString l rest);
    try assumption.
  rewrite Hb, length_append. pose proof (continued_length ls). lia.
Qed.

Lemma read_lines_newline_last (fuel : nat) :
  forall (s s' : state) (line buffer b : string),
    read_lines fuel s line buffer = Some (s', b) ->
    exists x, b = (x ++ nl)%string.
Proof.
  induction fuel as [|n IH]; intros s s' line buffer b; [discriminate|].
  cbn [read_lines].
  destruct (getline (instream s) line) as [i line1].
  destruct (str_back line1) as [c|].
  - destruct (Ascii.eqb c backslash).
    + apply IH.
    + intros [= _ <-]. exists (buffer ++ line1)%string.
      rewrite append_assoc. reflexivity.
  - intros [= _ <-]. exists (buffer ++ line1)%string.
    rewrite append_assoc. reflexivity.
Qed.

(** X3.  Asking for input always comes back: the loop that reads lines
    ends on every input stream, a closed one included.  The text it has
    read ends with a newline; its tokens are appended to the queue,
    between the two markers in instruct mode; the budget goes down by
    the number of these tokens and the echo of the next batches is
    switched off.  The batch, the window and the backend context are
    left as they are. *)
Theorem solicitation_always_returns (s : state) :
  exists s' text,
    solicit s = Next s'
    /\ (exists x, text = (x ++ nl)%string)
    /\ embd_inp s'
       = embd_inp s ++ (if instruct (params s) then inp_pfx s else [])
         ++ llama_tokenize (ctx s) text false
         ++ (if instruct (params s) then inp_sfx s else [])
    /\ remaining_tokens s'
       = to_int (remaining_tokens s
                 - size (llama_tokenize (ctx s) text false))
    /\ input_noecho s' = true
    /\ embd s' = embd s
    /\ last_n_tokens s' = last_n_tokens s
    /\ ctx s' = ctx s.
Proof.
  destruct (solicit_spec s)
    as (s2 & s3 & s' & buffer & t & k & Hs & _ & Hr & He & _ & Hrem & Hno & _
        & Hw & Hb & Hc & _).
  exists s', buffer. repeat split; auto.
  exact (read_lines_newline_last _ _ _ _ _ _ Hr).
Qed.

(** X4.  When the input is exhausted (the stream is not good, or
    nothing is left in it) a solicitation reads one empty line: the
    queue gets the tokens of a single newline, between the markers in
    instruct mode, and the loop goes on. *)
Theorem exhausted_input_reads_empty_line (s : state) :
  good (instream s) = false \/ buf (instream s) = EmptyString ->
  exists s',
    solicit s = Next s'
    /\ embd_inp s'
       = embd_inp s ++ (if instruct (params s) then inp_pfx s else [])
         ++ llama_tokenize (ctx s) nl false
         ++ (if instruct (params s) then inp_sfx s else []).
Proof.
  intros Hx.
  destruct (solicit_spec s)
    as (s2 & s3 & s' & buffer & t & k & Hs & Hi & Hr & He & _).
  exists s'. split; [exact Hs|].
  assert (Hb : buffer = nl).
  { revert Hr. cbn [read_lines]. unfold getline. rewrite Hi.
    destruct Hx as [Hg|Hb].
    - rewrite Hg. cbn. intros [= _ <-]. reflexivity.
    - rewrite Hb. destruct (good (instream s)); cbn;
        intros [= _ <-]; reflexivity. }
  rewrite He, Hb. reflexivity.
Qed.

End MoreReading.

Section MoreBatches.

Context {B : Backend}.

Lemma forward_count (fuel : nat) :
  forall s : state,
    0 <= input_consumed s <= size (embd_inp s) ->
    size (embd_inp s) <= INT_MAX ->
    size (embd s) + (size (embd_inp s) - input_consumed s) <= INT_MAX ->
    last_n_tokens s <> [] ->
    size (embd_inp s) - input_consumed s <= Z.of_nat fuel ->
    exists s',
      forward fuel s = Next s'
      /\ size (embd s')
         = size (embd s)
           + Z.min (size (embd_inp s) - input_consumed s)
               (Z.max 1 (n_batch (params s) - size (embd s))).
Proof.
  induction fuel as [|n IH]; intros s Hic Hfit He Hw Hf;
    pose proof (size_nonneg (embd s)) as He0;
    assert (Hint : to_int (size (embd_inp s)) = size (embd_inp s))
      by (apply to_int_id; unfold INT_MIN; lia);
    cbn [forward]; rewrite Hint.
  - assert (E : (size (embd_inp s) >? input_consumed s) = false)
      by (rewrite Z.gtb_ltb; apply Z.ltb_ge; cbn in Hf; lia).
    rewrite E. exists s. split; [reflexivity|]. lia.
  - destruct (size (embd_inp s) >? input_consumed s) eqn:E.
    2:{ exists s. split; [reflexivity|].
        rewrite Z.gtb_ltb in E. apply Z.ltb_ge in E. lia. }
    apply Z.gtb_lt in E.
    assert (Eneg : (input_consumed s <? 0) = false) by (apply Z.ltb_ge; lia).
    rewrite Eneg.
    destruct (nth_error _ _) as [t|] eqn:Et.
    2:{ apply nth_error_None in Et. unfold size in *. lia. }
    cbn [last_n_tokens set_embd].
    destruct (last_n_tokens s) as [|x w] eqn:Ew; [congruence|].
    assert (Hic1 : to_int (input_consumed s + 1) = input_consumed s + 1)
      by (apply to_int_id; unfold INT_MIN, INT_MAX in *; lia).
    cbn [input_consumed embd params set_input_consumed set_last_n_tokens
           set_embd].
    rewrite Hic1, size_app. change (size [t]) with 1.
    rewrite to_int_id by (unfold INT_MIN, INT_MAX in *; lia).
    destruct (_ >=? _) eqn:Eb.
    + eexists. split; [reflexivity|]. cbn. rewrite size_app.
      change (size [t]) with 1. apply Z.geb_le in Eb. lia.
    + rewrite Z.geb_leb in Eb. apply Z.leb_gt in Eb.
      match goal with |- context [forward n ?s3] =>
        destruct (IH s3) as (s' & Hs' & Hsz) end;
        cbn; rewrite ?size_app; change (size [t]) with 1; try lia.
      * destruct w; discriminate.
      * exists s'. split; [exact Hs'|]. rewrite Hsz. cbn.
        rewrite size_app. change (size [t]) with 1. lia.
Qed.

(** X5.  An iteration that finds pending tokens forwards as many of
    them as there are, but no more than [n_batch], and always at least
    one: with [n_batch] below 1 the queue goes to the backend one token
    a time. *)
Theorem forwarded_batch_size (s s1 : state) :
  0 <= input_consumed s ->
  input_consumed s < size (embd_inp s) ->
  size (embd_inp s) <= INT_MAX ->
  predict s >>= fill = Next s1 ->
  size (embd s1)
  = Z.min (size (embd_inp s) - input_consumed s)
      (Z.max 1 (n_batch (params s)))
  /\ embd s1
     = firstn (List.length (embd s1))
         (skipn (Z.to_nat (input_consumed s)) (embd_inp s))
  /\ input_consumed s1 = input_consumed s + size (embd s1).
Proof.
  intros Hnn Hlt Hfit H.
  assert (Hd : drained s = false).
  { unfold drained. rewrite to_int_id by (unfold INT_MIN; lia).
    apply Z.leb_gt. exact Hlt. }
  destruct (filled_batch _ _ H) as (_ & Hfw).
  destruct (Hfw Hd) as (k & Hk & Hb & Hl & Hc & _).
  split; [|split].
  2:{ rewrite Hl. exact Hb. }
  2:{ rewrite Hc. unfold size. rewrite Hl. reflexivity. }
  apply and_then_next in H. destruct H as (sp & Hp & Hf).
  apply predict_spec in Hp. destruct Hp as (c & t & Esp & _).
  assert (F1 : embd_inp sp = embd_inp s) by (subst sp; reflexivity).
  assert (F2 : input_consumed sp = input_consumed s)
    by (subst sp; reflexivity).
  assert (F3 : last_n_tokens sp = last_n_tokens s)
    by (subst sp; reflexivity).
  assert (F4 : embd sp = []) by (subst sp; reflexivity).
  assert (F5 : params sp = params s) by (subst sp; reflexivity).
  clear Esp.
  pose proof (size_nonneg (embd_inp s)) as Hs0.
  assert (Hint : to_int (size (embd_inp s)) = size (embd_inp s))
    by (apply to_int_id; unfold INT_MIN; lia).
  unfold fill in Hf. unfold drained in Hd. rewrite F1, F2, Hd in Hf.
  assert (Hw : last_n_tokens sp <> []).
  { intros Ew. revert Hf. cbn [forward]. rewrite F1, F2, Hint.
    assert (E : (size (embd_inp s) >? input_consumed s) = true)
      by (apply Z.gtb_lt; exact Hlt).
    rewrite E.
    assert (Eneg : (input_consumed s <? 0) = false) by (apply Z.ltb_ge; lia).
    rewrite Eneg. destruct (nth_error _ _); [|discriminate].
    cbn [last_n_tokens set_embd]. rewrite Ew. discriminate. }
  destruct (forward_count (S (List.length (embd_inp s))) sp)
    as (s' & Hs' & Hsz); rewrite ?F1, ?F2, ?F4; try assumption; try lia.
  - change (size (@nil Z)) with 0. lia.
  - unfold size. lia.
  - rewrite Hs' in Hf. injection Hf as <-. rewrite Hsz, F1, F2, F4, F5.
    change (size (@nil Z)) with 0. lia.
Qed.

End MoreBatches.

Section MoreSessions.

Context {B : Backend}.

(** ** What a session without interactive mode never does *)

Lemma interact_display_off (s : state) :
  interactive (params s) = false -> steps (eq []) s (interact (display s)).
Proof.
  intros Hoff. destruct (display_eq s) as (g & t & Ed & _ & Ht).
  rewrite interact_off by (rewrite Ed; exact Hoff).
  exists t. rewrite Ed. cbn. auto.
Qed.

Lemma iteration_no_input (s : state) :
  interactive (params s) = false ->
  steps (fun m => ~ In MInput m) s (iteration s).
Proof.
  intros Hoff. unfold iteration.
  eapply steps_and_then with (P := fun m => ~ In MInput m) (Q := eq []).
  - eapply steps_and_then with (P := fun m => ~ In MInput m) (Q := eq []).
    + unfold before_eos_check.
      eapply steps_and_then with (P := fun m => ~ In MInput m) (Q := eq []).
      * eapply steps_and_then with (P := eval_marks s)
          (Q := fun m => ~ In MInput m).
        -- apply predict_steps.
        -- intros s1 _. eapply steps_weaken; [apply fill_steps|].
           intros a [[-> _]|[-> _]]; cbn; [tauto|].
           intros [H|[]]. discriminate.
        -- intros a [[_ ->]|[_ ->]]; cbn; [tauto|].
           intros [H|[]]. discriminate.
        -- intros a b [[_ ->]|[_ ->]] Hb; cbn; [exact Hb|].
           intros [H|H]; [discriminate|tauto].
      * intros s1 E. apply interact_display_off.
        assert (Hs : same_session s (outcome_state (predict s >>= fill)))
          by (apply and_then_session;
              [apply predict_session|apply fill_session]).
        rewrite E in Hs. cbn in Hs. destruct Hs as (-> & _). exact Hoff.
      * auto.
      * intros a b Ha <-. rewrite app_nil_r. exact Ha.
    + intros s1 _. apply eos_check_steps.
    + auto.
    + intros a b Ha <-. rewrite app_nil_r. exact Ha.
  - intros s1 _. exists []. cbn. rewrite refill_trace, app_nil_r. auto.
  - auto.
  - intros a b Ha <-. rewrite app_nil_r. exact Ha.
Qed.

Lemma forward_instream (fuel : nat) (s : state) :
  instream (outcome_state (forward fuel s)) = instream s.
Proof.
  revert s. induction fuel as [|n IH]; intros s; cbn [forward].
  - destruct (_ >? _); reflexivity.
  - destruct (_ >? _); [|reflexivity].
    destruct (_ <? 0); [reflexivity|].
    destruct (nth_error _ _); [|reflexivity].
    cbn [last_n_tokens set_embd].
    destruct (last_n_tokens s); [reflexivity|].
    destruct (_ >=? _); [reflexivity|].
    rewrite IH. reflexivity.
Qed.

Lemma fill_instream (s : state) :
  instream (outcome_state (fill s)) = instream s.
Proof.
  unfold fill. destruct (_ <=? _); [|apply forward_instream].
  unfold sample_next.
  destruct (ignore_eos _); [destruct (perplexity _)|]; cbn;
    try reflexivity;
    destruct (llama_sample_top_p_top_k _ _ _ _ _ _); cbn;
    destruct (last_n_tokens s); reflexivity.
Qed.

Lemma predict_instream (s : state) :
  instream (outcome_state (predict s)) = instream s.
Proof.
  unfold predict. destruct (0 <? _); [|reflexivity].
  destruct (llama_eval _ _ _ _). destruct (_ =? 0); reflexivity.
Qed.

Lemma and_then_instream (o : outcome) (k : state -> outcome) (s : state) :
  instream (outcome_state o) = instream s ->
  (forall s1, o = Next s1 ->
     instream (outcome_state (k s1)) = instream s1) ->
  instream (outcome_state (o >>= k)) = instream s.
Proof.
  intros Ho Hk. destruct o; cbn in *; auto.
  rewrite (Hk _ eq_refl). exact Ho.
Qed.

Lemma iteration_instream_off (s : state) :
  interactive (params s) = false ->
  instream (outcome_state (iteration s)) = instream s.
Proof.
  intros Hoff. unfold iteration, before_eos_check.
  apply and_then_instream; [|intros s1 _; unfold refill;
                             destruct (_ && _); reflexivity].
  apply and_then_instream.
  - apply and_then_instream.
    + apply and_then_instream; [apply predict_instream|].
      intros s1 _. apply fill_instream.
    + intros s1 E.
      assert (Hs : same_session s (outcome_state (predict s >>= fill)))
        by (apply and_then_session;
            [apply predict_session|apply fill_session]).
      rewrite E in Hs. cbn in Hs. destruct Hs as (Hp & _).
      destruct (display_eq s1) as (g & t & Ed & _).
      rewrite interact_off by (rewrite Ed; cbn; congruence).
      rewrite Ed. reflexivity.
  - intros s1 _. unfold eos_check.
    destruct (back _); [|reflexivity].
    destruct (_ =? _); [destruct (interactive (params s1))|]; reflexivity.
Qed.

(** X6.  Without interactive mode the run never reads from its input
    stream, however long it goes on: no line is read and the stream is
    left as it was. *)
Theorem non_interactive_never_reads_input (fuel : nat) (s : state) :
  interactive (params s) = false ->
  exists t,
    trace (outcome_state (run_loop fuel s)) = trace s ++ t
    /\ ~ In MInput (marks t)
    /\ instream (outcome_state (run_loop fuel s)) = instream s.
Proof.
  revert s. induction fuel as [|n IH]; intros s Hoff; cbn [run_loop].
  - exists []. rewrite app_nil_r. cbn. auto.
  - assert (Hfin : forall x,
               exists t, trace (outcome_state (finish x)) = trace x ++ t
                         /\ ~ In MInput (marks t)
                         /\ instream (outcome_state (finish x)) = instream x).
    { intros x. destruct (finish_spec x) as (s' & t & E & Ht & Hm).
      rewrite E. cbn. exists t. rewrite Hm. repeat split; auto.
      unfold finish in E. injection E as <-.
      destruct (console_eq CONSOLE_STATE_DEFAULT
                  (emit EvFree (emit EvTimings x)))
        as (g & t' & -> & _). reflexivity. }
    destruct (loop_condition s); [|apply Hfin].
    destruct (iteration_no_input s Hoff) as (t & Ht & Hm).
    pose proof (iteration_session s) as (Hp & _).
    pose proof (iteration_instream_off s Hoff) as Hin.
    destruct (iteration s) as [s1|s1| | | | |]; cbn [outcome_state] in *;
      try (exists t; solve [auto]).
    + destruct (IH s1) as (t' & Ht' & Hm' & Hi'); [rewrite Hp; exact Hoff|].
      exists (t ++ t'). rewrite Ht', Ht, app_assoc, marks_app, Hi', Hin.
      repeat split; auto. rewrite in_app_iff. tauto.
    + destruct (Hfin s1) as (t' & Ht' & Hm' & Hi').
      exists (t ++ t'). rewrite Ht', Ht, app_assoc, marks_app, Hi', Hin.
      repeat split; auto. rewrite in_app_iff. tauto.
Qed.

End MoreSessions.

Section MoreFlags.

Context {B : Backend}.

Lemma first_interrupt_resumes (g : globals) :
  is_interacting g = false ->
  exists g1 out,
    sigint_handler SIGINT g = Resumed g1 out /\ is_interacting g1 = true.
Proof.
  intros Hg. unfold sigint_handler.
  pose proof (set_console_state_flag CONSOLE_STATE_DEFAULT g) as Hf.
  destruct (set_console_state CONSOLE_STATE_DEFAULT g) as [g' o].
  cbn in Hf. rewrite Z.eqb_refl, Hf, Hg. cbn. eauto.
Qed.

(** X7.  The check made in interactive mode with the queue drained
    always leaves [is_interacting] unset, whether it asked for input or
    not, so that the next interrupt is again a request to interject and
    not the end of the process.  When the check is not made (no
    interactive mode, or tokens still pending) the state is left as it
    is, the flag included: a request made while input is forwarded
    stays pending. *)
Theorem drained_check_consumes_interrupt (s : state) :
  exists s',
    interact s = Next s'
    /\ (interactive (params s) = true -> drained s = true ->
        is_interacting (glob s') = false
        /\ exists g out,
            sigint_handler SIGINT (glob s') = Resumed g out
            /\ is_interacting g = true)
    /\ (interactive (params s) && drained s = false -> s' = s).
Proof.
  unfold interact, drained.
  destruct (interactive (params s)) eqn:Hi;
    [destruct (to_int (size (embd_inp s)) <=? input_consumed s) eqn:Hd|];
    cbn [andb].
  - match goal with |- context [set_is_interacting ?b s] =>
      set (s1 := set_is_interacting b s) end.
    assert (Hsol : exists sx,
               (if is_interacting (glob s1) then solicit s1 else Next s1)
               = Next sx).
    { destruct (is_interacting (glob s1)); [|eauto].
      destruct (solicit_spec s1) as (s2 & s3 & sx & b & t & k & -> & _).
      eauto. }
    destruct Hsol as (sx & ->). cbn [and_then].
    exists (set_is_interacting false sx). split; [reflexivity|].
    split; [|discriminate]. intros _ _. split; [reflexivity|].
    apply first_interrupt_resumes. reflexivity.
  - exists s. split; [reflexivity|]. split; [discriminate|reflexivity].
  - exists s. split; [reflexivity|]. split; [discriminate|reflexivity].
Qed.

(** ** The queue only grows *)

Lemma extends_queue_refl (s : state) (o : outcome) :
  embd_inp (outcome_state o) = embd_inp s -> extends_queue s o.
Proof. intros H. exists []. rewrite app_nil_r. exact H. Qed.

Lemma and_then_queue (o : outcome) (k : state -> outcome) (s : state) :
  extends_queue s o ->
  (forall s1, extends_queue s1 (k s1)) ->
  extends_queue s (o >>= k).
Proof.
  intros (l & Ho) Hk. destruct o; cbn in *; try (exists l; exact Ho).
  destruct (Hk s0) as (l' & Hl'). exists (l ++ l').
  rewrite Hl', Ho, app_assoc. reflexivity.
Qed.

Lemma forward_queue (fuel : nat) (s : state) :
  embd_inp (outcome_state (forward fuel s)) = embd_inp s.
Proof.
  revert s. induction fuel as [|n IH]; intros s; cbn [forward].
  - destruct (_ >? _); reflexivity.
  - destruct (_ >? _); [|reflexivity].
    destruct (_ <? 0); [reflexivity|].
    destruct (nth_error _ _); [|reflexivity].
    cbn [last_n_tokens set_embd].
    destruct (last_n_tokens s); [reflexivity|].
    destruct (_ >=? _); [reflexivity|].
    rewrite IH. reflexivity.
Qed.

Lemma iteration_queue (s : state) : extends_queue s (iteration s).
Proof.
  unfold iteration, before_eos_check.
  apply and_then_queue.
  - apply and_then_queue.
    + apply and_then_queue.
      * apply and_then_queue.
        -- apply extends_queue_refl. unfold predict.
           destruct (0 <? _); [|reflexivity].
           destruct (llama_eval _ _ _ _). destruct (_ =? 0); reflexivity.
        -- intros s1. apply extends_queue_refl. unfold fill.
           destruct (_ <=? _); [|apply forward_queue].
           unfold sample_next.
           destruct (ignore_eos _); [destruct (perplexity _)|]; cbn;
             try reflexivity;
             destruct (llama_sample_top_p_top_k _ _ _ _ _ _); cbn;
             destruct (last_n_tokens s1); reflexivity.
      * intros s1. destruct (display_eq s1) as (g & t & Ed & _).
        unfold interact. destruct (_ && _).
        -- match goal with |- context [set_is_interacting ?b (display s1)] =>
             set (sc := set_is_interacting b (display s1)) end.
           assert (Hsc : embd_inp sc = embd_inp s1)
             by (unfold sc; rewrite Ed; reflexivity).
           destruct (is_interacting (glob sc)).
           ++ destruct (solicit_spec sc)
                as (s2 & s3 & sx & b & t' & k & -> & _ & _ & He & _).
              unfold extends_queue. cbn. rewrite He, Hsc. eexists.
              reflexivity.
           ++ cbn. apply extends_queue_refl. cbn.
              exact Hsc.
        -- apply extends_queue_refl. rewrite Ed. reflexivity.
    + intros s1. apply extends_queue_refl. unfold eos_check.
      destruct (back _); [|reflexivity].
      destruct (_ =? _); [destruct (interactive (params s1))|]; reflexivity.
  - intros s1. apply extends_queue_refl. unfold refill.
    destruct (_ && _); reflexivity.
Qed.

(** X8.  The pending queue is never shortened or rewritten: where an
    iteration ends, and where a run of any length stops, the queue is
    the queue of the start followed by what was appended.  Consuming
    tokens only moves the cursor. *)
Theorem queue_only_grows (fuel : nat) (s : state) :
  extends_queue s (iteration s) /\ extends_queue s (run_loop fuel s).
Proof.
  split; [apply iteration_queue|].
  revert s. induction fuel as [|n IH]; intros s; cbn [run_loop].
  - apply extends_queue_refl. reflexivity.
  - assert (Hfin : forall x, extends_queue x (finish x)).
    { intros x. apply extends_queue_refl. unfold finish.
      destruct (console_eq CONSOLE_STATE_DEFAULT
                  (emit EvFree (emit EvTimings x)))
        as (g & t' & E & _).
      cbn [outcome_state]. rewrite E. reflexivity. }
    destruct (loop_condition s); [|apply Hfin].
    pose proof (iteration_queue s) as (l & Hl).
    destruct (iteration s) as [s1|s1| | | | |]; cbn [outcome_state] in *;
      try (exists l; exact Hl).
    + destruct (IH s1) as (l' & Hl'). exists (l ++ l').
      rewrite Hl', Hl, app_assoc. reflexivity.
    + destruct (Hfin s1) as (l' & Hl'). exists (l ++ l').
      rewrite Hl', Hl, app_assoc. reflexivity.
Qed.

(** ** A run without budget *)

Lemma run_init_budget (c : llama_context) (p : gpt_params) (i : istream)
  (g : globals) (s0 : state) :
  run_init c p i g = Next s0 ->
  n_predict (params s0)
  = Z.min (n_predict p)
      (to_int (llama_n_ctx (ctx s0) - to_int (size (embd_inp s0))))
  /\ remaining_tokens s0 = n_predict (params s0)
  /\ embd s0 = []
  /\ n_past s0 = 0
  /\ input_consumed s0 = 0.
Proof.
  unfold run_init.
  destruct (llama_eval _ _ _ _) as [ret c1].
  destruct (_ <? 0); [discriminate|]. intros [= <-].
  match goal with |- context [console ?st ?x] =>
    destruct (console_eq st x) as (g2 & t2 & -> & _) end.
  assert (Hn : forall q, n_predict (resolve_modes q) = n_predict q).
  { intros q. unfold resolve_modes. generalize instruction_marker.
    intros m. destruct (instruct q); cbn; destruct (negb _); cbn;
      destruct (interactive_start q); reflexivity. }
  assert (Hc : n_predict (choose_seed_and_prompt p) = n_predict p).
  { unfold choose_seed_and_prompt. destruct (seed p <=? 0); cbn;
      destruct (random_prompt p); reflexivity. }
  destruct (interactive _); cbn; rewrite Hn; cbn; rewrite Hc; auto.
Qed.

(** X9.  Without interactive mode, a budget that is not positive at the
    start, because [n_predict] is not or because the prompt leaves no
    room in the context, makes the run end at once with 0: the loop is
    not entered, so the prompt is neither evaluated nor forwarded,
    nothing is sampled and nothing is read. *)
Theorem run_without_budget_does_nothing (c : llama_context)
  (p : gpt_params) (i : istream) (g : globals) (s0 : state) (fuel : nat) :
  run_init c p i g = Next s0 ->
  interactive (params s0) = false ->
  n_predict p <= 0
  \/ to_int (llama_n_ctx (ctx s0) - to_int (size (embd_inp s0))) <= 0 ->
  exists s' t,
    run (S fuel) c p i g = Return 0 s'
    /\ trace s' = trace s0 ++ t
    /\ marks t = []
    /\ input_consumed s' = 0
    /\ n_past s' = 0
    /\ embd s' = [].
Proof.
  intros Hinit Hoff Hno.
  destruct (run_init_budget _ _ _ _ _ Hinit) as (Hn & Hr & He & Hp & Hc).
  assert (Hrun : run (S fuel) c p i g = finish s0).
  { unfold run. rewrite Hinit. cbn [and_then run_loop].
    unfold loop_condition. rewrite Hoff, Hr, Hn.
    assert (E : (Z.min (n_predict p)
                   (to_int (llama_n_ctx (ctx s0)
                            - to_int (size (embd_inp s0)))) >? 0) = false)
      by (rewrite Z.gtb_ltb; apply Z.ltb_ge; lia).
    rewrite E. reflexivity. }
  rewrite Hrun. unfold finish.
  destruct (console_eq CONSOLE_STATE_DEFAULT
              (emit EvFree (emit EvTimings s0)))
    as (g' & t & -> & _ & Ht).
  eexists _, ([EvTimings; EvFree] ++ t). split; [reflexivity|].
  split; [cbn; rewrite <- !app_assoc; reflexivity|].
  split; [rewrite marks_app, Ht; reflexivity|].
  cbn. auto.
Qed.

End MoreFlags.

Section MorePrelude.

Context {B : Backend}.

(** ** The budget the loop starts with *)

(** X10.  The budget the loop starts with is [n_predict] cut down to the
    room that the prompt leaves in the context: it never exceeds the
    [n_predict] asked for, and the tokens of the prompt and the tokens
    to predict fit the context together (for a context size and a
    prompt length that are [int] values). *)
Theorem budget_fits_context (c : llama_context) (p : gpt_params)
  (i : istream) (g : globals) (s0 : state) :
  run_init c p i g = Next s0 ->
  size (embd_inp s0) <= INT_MAX ->
  0 <= llama_n_ctx (ctx s0) <= INT_MAX ->
  remaining_tokens s0 <= n_predict p
  /\ remaining_tokens s0 + size (embd_inp s0) <= llama_n_ctx (ctx s0)
  /\ (n_predict p + size (embd_inp s0) <= llama_n_ctx (ctx s0) ->
      remaining_tokens s0 = n_predict p).
Proof.
  intros Hinit Hq Hc.
  destruct (run_init_budget _ _ _ _ _ Hinit) as (Hn & -> & _).
  rewrite Hn.
  pose proof (size_nonneg (embd_inp s0)) as H0.
  rewrite (to_int_id (size (embd_inp s0)))
    by (unfold INT_MIN, INT_MAX in *; lia).
  rewrite to_int_id by (unfold INT_MIN, INT_MAX in *; lia).
  lia.
Qed.

End MorePrelude.

Section MoreInvariants.

Context {B : Backend}.

(** ** What was fed to the backend *)

Lemma fed_app (a b : list event) : fed (a ++ b) = fed a ++ fed b.
Proof. unfold fed. apply flat_map_app. Qed.

Lemma positions_from_app (a b : list event) (n : Z) :
  positions_from n (a ++ b)
  <-> positions_from n a /\ positions_from (n + size (fed a)) b.
Proof.
  revert n. induction a as [|e a IH]; intros n.
  - cbn. change (size (@nil Z)) with 0. rewrite Z.add_0_r. tauto.
  - assert (Hother : fed (e :: a) = fed [e] ++ fed a)
      by (apply (fed_app [e] a)).
    rewrite Hother, size_app.
    destruct e; cbn [app positions_from fed flat_map]; rewrite IH;
      rewrite ?app_nil_r; change (size (@nil Z)) with 0;
      rewrite ?Z.add_0_l, ?Z.add_assoc; tauto.
Qed.

Lemma quiet_events (t : list event) :
  ~ In MEval (marks t) -> fed t = [] /\ forall n, positions_from n t.
Proof.
  induction t as [|e t IH]; intros H; [cbn; auto|].
  rewrite marks_cons, in_app_iff in H.
  destruct IH as (Hf & Hp); [tauto|].
  destruct e; cbn in *; try (split; [exact Hf|exact Hp]).
  tauto.
Qed.

Lemma to_int_add_l (a b : Z) : to_int (to_int a + b) = to_int (a + b).
Proof.
  unfold to_int.
  rewrite (Z.mod_eq (a + 2147483648) 4294967296) by lia.
  set (q := (a + 2147483648) / 4294967296).
  f_equal.
  replace (a + 2147483648 - 4294967296 * q - 2147483648 + b + 2147483648)
    with (a + b + 2147483648 + (- q) * 4294967296) by lia.
  apply Z_mod_plus_full.
Qed.

Lemma skipn_app_within {A : Type} (m : nat) (l l' : list A) :
  (m <= List.length l)%nat -> skipn m l ++ l' = skipn m (l ++ l').
Proof.
  intros H. rewrite skipn_app.
  replace (m - List.length l)%nat with O by lia. reflexivity.
Qed.

Lemma solicit_n_past (s : state) :
  n_past (outcome_state (solicit s)) = n_past s.
Proof.
  unfold solicit.
  destruct (console_eq CONSOLE_STATE_USER_INPUT s) as (g1 & t1 & -> & _).
  cbn [params set_glob set_trace].
  destruct (instruct (params s)) eqn:Ei;
    match goal with |- context [read_lines ?f ?x _ _] =>
      destruct (read_lines f x EmptyString EmptyString) as [[s3 b]|] eqn:Er
    end; try reflexivity;
    destruct (read_lines_eq _ _ _ _ _ _ Er) as (i & t & k & -> & _);
    match goal with |- context [console CONSOLE_STATE_DEFAULT ?x] =>
      destruct (console_eq CONSOLE_STATE_DEFAULT x) as (g4 & t4 & E4 & _)
    end;
    cbn [outcome_state]; rewrite E4; cbn; rewrite Ei; reflexivity.
Qed.

(** What the part of an iteration after the evaluation changes. *)
Lemma after_predict (sp s' : state) :
  (fill sp >>= (fun s1 => interact (display s1)) >>= eos_check
   >>= fun s1 => Next (refill s1)) = Next s' ->
  embd sp = [] ->
  exists tr,
    trace s' = trace sp ++ tr
    /\ ~ In MEval (marks tr)
    /\ n_past s' = n_past sp
    /\ last_n_tokens s'
       = skipn (List.length (embd s')) (last_n_tokens sp ++ embd s').
Proof.
  intros H He.
  apply and_then_next in H. destruct H as (se & H & Hr).
  injection Hr as <-.
  apply and_then_next in H. destruct H as (sb & H & Hc).
  apply and_then_next in H. destruct H as (sf & Hf & Hi).
  assert (Hfill : trace sf = trace sp ++
                   (if drained sp then
                      [EvSample (last_n_tokens sp)
                         (List.last (embd sf) 0)]
                    else [])
                  /\ n_past sf = n_past sp
                  /\ last_n_tokens sf
                     = skipn (List.length (embd sf))
                         (last_n_tokens sp ++ embd sf)).
  { unfold fill in Hf. unfold drained. destruct (_ <=? _).
    - apply sample_next_spec in Hf.
      destruct Hf as (id & c & old & w & Ew & ->). cbn.
      rewrite He, Ew. cbn. auto.
    - apply forward_spec in Hf. destruct Hf as (k & Hlen & -> & _).
      cbn zeta in *. cbn. rewrite He, app_nil_r. cbn. rewrite Hlen. auto. }
  destruct Hfill as (Htf & Hnf & Hwf).
  destruct (display_eq sf) as (g & td & Ed & _ & Htd).
  destruct (interact_spec (display sf))
    as (sb' & ti & Ei & Hemb & Hwin & _ & Hti & Hmi).
  rewrite Ei in Hi. injection Hi as ->.
  assert (Hnb : n_past sb = n_past sf).
  { revert Ei. unfold interact. destruct (_ && _).
    - match goal with |- context [set_is_interacting ?b (display sf)] =>
        set (sc := set_is_interacting b (display sf)) end.
      assert (Hsc : n_past sc = n_past sf)
        by (unfold sc; rewrite Ed; reflexivity).
      destruct (is_interacting (glob sc)).
      + pose proof (solicit_n_past sc) as Hs.
        destruct (solicit sc) as [sx| | | | | |]; cbn [and_then];
          try discriminate.
        intros [= <-]. cbn in *. congruence.
      + cbn. intros [= <-]. cbn. exact Hsc.
    - intros [= <-]. rewrite Ed. reflexivity. }
  assert (Hce : trace se = trace sb ++
                  (if true then [] else [])
                /\ n_past se = n_past sb /\ embd se = embd sb
                /\ last_n_tokens se = last_n_tokens sb).
  { revert Hc. unfold eos_check. destruct (back _); [|discriminate].
    destruct (_ =? _); [destruct (interactive (params sb))|];
      try discriminate; intros [= <-]; cbn; rewrite ?app_nil_r; auto. }
  destruct Hce as (Hte & Hne & Hee & Hwe). cbn in Hte. rewrite app_nil_r in Hte.
  exists ((if drained sp
           then [EvSample (last_n_tokens sp) (List.last (embd sf) 0)]
           else []) ++ td ++ ti).
  assert (Hrf : trace (refill se) = trace se /\ n_past (refill se) = n_past se
                /\ embd (refill se) = embd se
                /\ last_n_tokens (refill se) = last_n_tokens se)
    by (unfold refill; destruct (_ && _); cbn; auto).
  destruct Hrf as (R1 & R2 & R3 & R4).
  rewrite R1, R2, R3, R4, Hte, Hne, Hee, Hwe, Hti, Hnb, Hnf, Hemb, Hwin.
  rewrite Ed. cbn. rewrite Htf. split; [rewrite <- !app_assoc; reflexivity|].
  split; [|split; [reflexivity|exact Hwf]].
  rewrite !marks_app, Htd, !in_app_iff. cbn [app In].
  intros [H|[[]|H]].
  - destruct (drained sp); cbn in H; [destruct H as [H|[]]; discriminate|].
    exact H.
  - unfold input_marks in Hmi. rewrite Forall_forall in Hmi.
    specialize (Hmi _ H). discriminate.
Qed.

Lemma feeding_invariant (s0 s : state) :
  embd s0 = [] -> reachable s0 s ->
  exists t,
    trace s = trace s0 ++ t
    /\ last_n_tokens s
       = skipn (List.length (fed t ++ embd s))
           (last_n_tokens s0 ++ fed t ++ embd s)
    /\ (n_past s0 = 0 ->
        positions_from 0 t /\ n_past s = to_int (size (fed t))).
Proof.
  intros He0 Hr. induction Hr as [|s s' _ IH _ Hit].
  - exists []. rewrite He0, !app_nil_r. cbn. split; [reflexivity|].
    split; [reflexivity|]. intros ->. auto.
  - destruct IH as (t & Ht & Hw & Hpn).
    unfold iteration, before_eos_check in Hit.
    destruct (predict s) as [sp| | | | | |] eqn:Ep; try discriminate.
    cbn [and_then] in Hit.
    apply predict_spec in Ep. destruct Ep as (c & te & Esp & Hnil & Hcons).
    assert (Hsp : embd sp = [] /\ last_n_tokens sp = last_n_tokens s
                  /\ n_past sp = to_int (n_past s + size (embd s))
                  /\ trace sp = trace s ++ te)
      by (subst sp; cbn; auto).
    destruct Hsp as (Hesp & Hwsp & Hnsp & Htsp). clear Esp.
    destruct (after_predict _ _ Hit Hesp) as (tr & Htr & Hq & Hn' & Hw').
    destruct (quiet_events _ Hq) as (Hfq & Hpq).
    assert (Hte : fed te = embd s
                  /\ (n_past s = to_int (size (fed t)) ->
                      positions_from (size (fed t)) te)).
    { destruct (embd s) as [|a l] eqn:Ee.
      - destruct Hnil as (-> & _); [reflexivity|]. cbn. auto.
      - destruct Hcons as (-> & _); [discriminate|]. cbn.
        rewrite app_nil_r. auto. }
    destruct Hte as (Hfe & Hpe).
    exists (t ++ te ++ tr).
    assert (Hfed : fed (t ++ te ++ tr) = fed t ++ embd s)
      by (rewrite !fed_app, Hfe, Hfq, app_nil_r; reflexivity).
    rewrite Hfed. split; [|split].
    + rewrite Htr, Htsp, Ht, <- !app_assoc. reflexivity.
    + rewrite Hw', Hwsp, Hw.
      rewrite skipn_app_within by (rewrite !length_app; lia).
      rewrite skipn_skipn, !length_app, <- !app_assoc.
      f_equal. lia.
    + intros Hn0. destruct (Hpn Hn0) as (Hpos & Hn). split.
      * apply positions_from_app. split; [exact Hpos|].
        apply positions_from_app. split; [exact (Hpe Hn)|apply Hpq].
      * rewrite Hn', Hnsp, Hn, to_int_add_l, size_app. reflexivity.
Qed.

(** X11.  The repetition window always holds the most recent tokens
    that went to the backend or wait in the current batch, in their
    order: it is what remains of the initial window followed by all
    submitted tokens and the batch when as many entries are dropped
    from the front as there were tokens. *)
Theorem window_holds_latest_tokens (s0 s : state) :
  embd s0 = [] -> reachable s0 s ->
  exists t,
    trace s = trace s0 ++ t
    /\ last_n_tokens s
       = skipn (List.length (fed t ++ embd s))
           (last_n_tokens s0 ++ fed t ++ embd s).
Proof.
  intros He Hr.
  destruct (feeding_invariant _ _ He Hr) as (t & Ht & Hw & _).
  exists t. auto.
Qed.

(** X12.  Every batch is evaluated at the position that is the number
    of tokens evaluated before it, and at the head of every iteration
    [n_past] is the number of tokens evaluated so far (as an [int]). *)
Theorem positions_count_tokens_fed (s0 s : state) :
  embd s0 = [] -> n_past s0 = 0 -> reachable s0 s ->
  exists t,
    trace s = trace s0 ++ t
    /\ positions_from 0 t
    /\ n_past s = to_int (size (fed t)).
Proof.
  intros He Hn Hr.
  destruct (feeding_invariant _ _ He Hr) as (t & Ht & _ & Hp).
  destruct (Hp Hn) as (Hpos & Hn'). exists t. auto.
Qed.

End MoreInvariants.

Section MoreBudget.

Context {B : Backend}.

(** ** A budget spent without interactive mode *)

Lemma reachable_step (s s1 x : state) :
  loop_condition s = true -> iteration s = Next s1 ->
  reachable s1 x -> reachable s x.
Proof.
  intros Hc Hi Hr. induction Hr as [|y z _ IH Hcy Hiy].
  - eapply reach_next; [apply reach_start|exact Hc|exact Hi].
  - eapply reach_next; [exact IH|exact Hcy|exact Hiy].
Qed.

Lemma iteration_budget_off (s s1 : state) :
  interactive (params s) = false ->
  iteration s = Next s1 ->
  remaining_tokens s1
  = (if drained s then to_int (remaining_tokens s - 1)
     else remaining_tokens s).
Proof.
  intros Hoff H. unfold iteration, before_eos_check in H.
  apply and_then_next in H. destruct H as (se & H & Hr).
  injection Hr as <-.
  apply and_then_next in H. destruct H as (sb & H & Hc).
  apply and_then_next in H. destruct H as (sf & Hf & Hi).
  assert (Hs : same_session s (outcome_state (predict s >>= fill)))
    by (apply and_then_session; [apply predict_session|apply fill_session]).
  rewrite Hf in Hs. cbn in Hs. destruct Hs as (Hp & _).
  destruct (display_eq sf) as (g & td & Ed & _).
  rewrite interact_off in Hi by (rewrite Ed; cbn; congruence).
  injection Hi as <-.
  assert (Hse : remaining_tokens se = remaining_tokens sf
                /\ params se = params sf).
  { revert Hc. unfold eos_check. destruct (back _); [|discriminate].
    destruct (_ =? _); [destruct (interactive (params (display sf)))|];
      try discriminate; intros [= <-]; rewrite Ed; cbn; auto. }
  destruct Hse as (Hre & Hpe).
  rewrite refill_off by congruence. rewrite Hre.
  apply and_then_next in Hf. destruct Hf as (sp & Hpr & Hf).
  apply predict_spec in Hpr. destruct Hpr as (c & t & Esp & _).
  assert (E1 : remaining_tokens sp = remaining_tokens s)
    by (rewrite Esp; reflexivity).
  assert (E2 : embd_inp sp = embd_inp s) by (rewrite Esp; reflexivity).
  assert (E3 : input_consumed sp = input_consumed s)
    by (rewrite Esp; reflexivity).
  unfold fill in Hf. unfold drained. rewrite <- E1, <- E2, <- E3.
  destruct (_ <=? _).
  - apply sample_next_spec in Hf.
    destruct Hf as (id & c' & old & w & _ & ->). reflexivity.
  - apply forward_spec in Hf. destruct Hf as (k & _ & -> & _). reflexivity.
Qed.

Section NeverEndOfSequence.

Hypothesis eval_succeeds :
  forall c tokens past threads, fst (llama_eval c tokens past threads) = 0.

Hypothesis sampler_avoids_eos :
  forall c window k p t r,
    fst (llama_sample_top_p_top_k c window k p t r) <> llama_token_eos.

Lemma sample_next_no_eos (s : state) :
  last_n_tokens s <> [] ->
  (ignore_eos (params s) = true -> perplexity (params s) = false) ->
  exists s' id,
    sample_next s = Next s'
    /\ id <> llama_token_eos
    /\ embd s' = embd s ++ [id]
    /\ last_n_tokens s' <> []
    /\ remaining_tokens s' = to_int (remaining_tokens s - 1)
    /\ params s' = params s
    /\ embd_inp s' = embd_inp s
    /\ input_consumed s' = input_consumed s
    /\ trace s' = trace s ++ [EvSample (last_n_tokens s) id].
Proof.
  intros Hw Hassert. unfold sample_next.
  destruct (ignore_eos (params s)) eqn:Ei;
    [rewrite (Hassert eq_refl)|]; cbn [and_then];
    match goal with
    | |- context [llama_sample_top_p_top_k ?c ?w ?k ?p ?t ?r] =>
        pose proof (sampler_avoids_eos c w k p t r) as Hs;
        destruct (llama_sample_top_p_top_k c w k p t r) as [id c']
    end; cbn in Hs;
    cbn [last_n_tokens emit set_ctx set_trace];
    destruct (last_n_tokens s) as [|old w] eqn:Ew; try congruence;
    eexists _, id; (split; [reflexivity|]); cbn;
    repeat split; auto; destruct w; discriminate.
Qed.

Lemma sampling_iteration (s : state) :
  eos_ready s -> input_consumed s = size (embd_inp s) ->
  exists s1 t me,
    iteration s = Next s1
    /\ embd s1 <> []
    /\ remaining_tokens s1 = to_int (remaining_tokens s - 1)
    /\ last_n_tokens s1 <> []
    /\ params s1 = params s
    /\ embd_inp s1 = embd_inp s
    /\ input_consumed s1 = input_consumed s
    /\ trace s1 = trace s ++ t
    /\ marks t = me ++ [MSample]
    /\ eval_marks s me.
Proof.
  intros (Hoff & Hrem & Hw & Hassert & Hic & Hfit & Hall) Heq.
  assert (Hint : to_int (size (embd_inp s)) = size (embd_inp s))
    by (apply to_int_id; unfold INT_MIN;
        pose proof (size_nonneg (embd_inp s)); lia).
  destruct (predict_succeeds eval_succeeds s) as (c & t & Hp & Hm).
  set (sp := set_embd [] _) in Hp.
  assert (Hd : (to_int (size (embd_inp sp)) <=? input_consumed sp) = true)
    by (cbn; rewrite Hint; apply Z.leb_le; lia).
  destruct (sample_next_no_eos sp Hw Hassert)
    as (sf & id & Hs & Hid & Hemb & Hwf & Hrf & Hpf & Hqf & Hcf & Htf).
  destruct (display_eq sf) as (gd & td & Ed & _ & Htd).
  assert (Hoff_d : interactive (params (display sf)) = false)
    by (rewrite Ed; cbn; rewrite Hpf; exact Hoff).
  assert (Hback : back (embd (display sf)) = Some id).
  { rewrite Ed. cbn. rewrite Hemb. apply back_app_last. }
  exists (display sf), (t ++ [EvSample (last_n_tokens sp) id] ++ td),
    (marks t).
  split.
  { unfold iteration, before_eos_check.
    rewrite Hp. cbn [and_then]. unfold fill. rewrite Hd, Hs.
    cbn [and_then]. rewrite (interact_off _ Hoff_d). cbn [and_then].
    unfold eos_check. rewrite Hback.
    apply Z.eqb_neq in Hid. rewrite Hid. cbn [and_then].
    rewrite (refill_off _ Hoff_d). reflexivity. }
  rewrite Ed. cbn. rewrite Hemb, Hrf, Hpf, Hqf, Hcf, Htf.
  repeat split; auto.
  - destruct (embd sp); discriminate.
  - unfold sp. cbn. rewrite <- !app_assoc. reflexivity.
  - rewrite marks_app, (marks_cons _ td), Htd. reflexivity.
Qed.

Lemma spend_budget (k : nat) :
  forall s : state,
    eos_ready s -> input_consumed s = size (embd_inp s) ->
    remaining_tokens s = Z.of_nat (S k) -> Z.of_nat (S k) <= INT_MAX ->
    exists fuel s' t me,
      run_loop fuel s = Return 0 s'
      /\ trace s' = trace s ++ t
      /\ marks t = me ++ MSample :: List.concat (repeat [MEval; MSample] k)
      /\ eval_marks s me.
Proof.
  induction k as [|k IH]; intros s Hr Heq Hrem Hmax;
    destruct (sampling_iteration s Hr Heq)
      as (s1 & t & me & Hi & Hne & Hr1 & Hw1 & Hp1 & Hq1 & Hc1 & Ht & Hm & He);
    assert (Hloop : loop_condition s = true)
      by (unfold loop_condition; rewrite Hrem; reflexivity);
    rewrite Hrem in Hr1;
    rewrite to_int_id in Hr1 by (unfold INT_MIN, INT_MAX in *; lia).
  - destruct (finish_spec s1) as (s' & tf & Hf & Htf & Hmf).
    exists 2%nat, s', (t ++ tf), me. split; [|split; [|split]]; auto.
    + cbn [run_loop]. rewrite Hloop, Hi. unfold loop_condition.
      destruct Hr as (Hoff & _). rewrite Hp1, Hoff, Hr1. cbn. exact Hf.
    + rewrite Htf, Ht, app_assoc. reflexivity.
    + rewrite marks_app, Hm, Hmf, app_nil_r. reflexivity.
  - assert (Hr' : eos_ready s1).
    { destruct Hr as (Hoff & _ & _ & Hassert & Hic & Hfit & Hall).
      unfold eos_ready. rewrite Hp1, Hq1, Hc1, Hr1.
      repeat split; auto; lia. }
    destruct (IH s1 Hr') as (fuel & s' & t' & me' & Hrun & Ht' & Hm' & He');
      try lia; try congruence.
    assert (Hme : me' = [MEval]).
    { destruct He' as [[E _]|[_ E]]; [congruence|exact E]. }
    subst me'.
    exists (S fuel), s', (t ++ t'), me. split; [|split; [|split]]; auto.
    + cbn [run_loop]. rewrite Hloop, Hi. exact Hrun.
    + rewrite Ht', Ht, app_assoc. reflexivity.
    + rewrite marks_app, Hm, Hm'. cbn. rewrite <- app_assoc. reflexivity.
Qed.

Lemma forward_prompt (n : nat) :
  forall s : state,
    eos_ready s ->
    size (embd_inp s) - input_consumed s <= Z.of_nat n ->
    exists s1 t a,
      reachable s s1
      /\ eos_ready s1
      /\ input_consumed s1 = size (embd_inp s1)
      /\ remaining_tokens s1 = remaining_tokens s
      /\ trace s1 = trace s ++ t
      /\ marks t = repeat MEval a.
Proof.
  induction n as [|n IH]; intros s Hr Hn.
  - exists s, [], O. rewrite app_nil_r.
    pose proof Hr as (_ & _ & _ & _ & Hic & _).
    split; [apply reach_start|]. split; [exact Hr|].
    split; [lia|]. repeat split.
  - destruct (Z.eq_dec (input_consumed s) (size (embd_inp s))) as [Heq|Hne].
    + exists s, [], O. rewrite app_nil_r.
      split; [apply reach_start|]. split; [exact Hr|].
      split; [exact Heq|]. repeat split.
    + assert (Hlt : input_consumed s < size (embd_inp s))
        by (destruct Hr as (_ & _ & _ & _ & Hic & _); lia).
      destruct (pending_iteration eval_succeeds s Hr Hlt)
        as (s1 & t & Hi & Hr1 & Hq & Hadv & Ht & He).
      assert (Hb : remaining_tokens s1 = remaining_tokens s).
      { rewrite (iteration_budget_off s s1) by (try exact Hi; apply Hr).
        assert (Hd : drained s = false).
        { unfold drained. destruct Hr as (_ & _ & _ & _ & Hic & Hfit & _).
          rewrite to_int_id
            by (unfold INT_MIN; pose proof (size_nonneg (embd_inp s)); lia).
          apply Z.leb_gt. exact Hlt. }
        rewrite Hd. reflexivity. }
      destruct (IH s1 Hr1)
        as (s2 & t' & a' & Hre & Hr2 & Hd2 & Hb2 & Ht' & Hm');
        [rewrite Hq; lia|].
      destruct (eval_marks_repeat _ _ He) as (a & Ha).
      exists s2, (t ++ t'), (a + a')%nat.
      assert (Hloop : loop_condition s = true).
      { unfold loop_condition. destruct Hr as (_ & Hrem & _).
        apply Z.gtb_lt in Hrem. rewrite Hrem. reflexivity. }
      split; [exact (reachable_step _ _ _ Hloop Hi Hre)|].
      split; [exact Hr2|]. split; [exact Hd2|].
      split; [congruence|]. split.
      * rewrite Ht', Ht, app_assoc. reflexivity.
      * rewrite marks_app, Hm', Ha, repeat_app. reflexivity.
Qed.

End NeverEndOfSequence.

(** X13.  Without interactive mode, with an evaluator that succeeds, a
    sampler that never returns the end-of-sequence token and a prompt
    without that token, a run with a budget of [n] tokens forwards the
    prompt, samples exactly [n] times and returns 0.  Each sample but
    the last is followed by the evaluation of its token; the last
    sampled token is never evaluated, and nothing is read. *)
Theorem budget_is_spent_exactly (c : llama_context) (p : gpt_params)
  (i : istream) (g : globals) (s0 : state) (n : nat) :
  (forall c' tokens past threads,
      fst (llama_eval c' tokens past threads) = 0) ->
  (forall c' window k tp t r,
      fst (llama_sample_top_p_top_k c' window k tp t r)
      <> llama_token_eos) ->
  run_init c p i g = Next s0 ->
  interactive (params s0) = false ->
  n_predict (params s0) = Z.of_nat (S n) ->
  Z.of_nat (S n) <= INT_MAX ->
  0 < repeat_last_n (params s0) ->
  (ignore_eos (params s0) = true -> perplexity (params s0) = false) ->
  size (embd_inp s0) <= INT_MAX ->
  Forall (fun t => t <> llama_token_eos) (embd_inp s0) ->
  exists fuel s' t a,
    run fuel c p i g = Return 0 s'
    /\ trace s' = trace s0 ++ t
    /\ marks t
       = repeat MEval a ++ MSample :: List.concat (repeat [MEval; MSample] n).
Proof.
  intros Heval Hsample Hinit Hoff Hbudget Hmax Hwin Hassert Hfit Hall.
  assert (Hr : eos_ready s0)
    by (apply (run_init_eos_ready c p i g); auto; lia).
  assert (Hrem : remaining_tokens s0 = Z.of_nat (S n)).
  { destruct (run_init_budget _ _ _ _ _ Hinit) as (_ & -> & _).
    exact Hbudget. }
  destruct (forward_prompt Heval (List.length (embd_inp s0)) s0 Hr)
    as (s1 & t1 & a1 & Hre & Hr1 & Hd1 & Hb1 & Ht1 & Hm1).
  { destruct Hr as (_ & _ & _ & _ & Hic & _). unfold size in *. lia. }
  destruct (spend_budget Heval Hsample n s1 Hr1 Hd1)
    as (fuel & s' & t2 & me & Hrun & Ht2 & Hm2 & He2);
    try congruence; try assumption.
  destruct (run_loop_reachable _ _ Hre) as (k & Hk).
  destruct (eval_marks_repeat _ _ He2) as (a2 & ->).
  exists (k + fuel)%nat, s', (t1 ++ t2), (a1 + a2)%nat.
  split; [|split].
  - unfold run. rewrite Hinit. cbn [and_then]. rewrite Hk. exact Hrun.
  - rewrite Ht2, Ht1, app_assoc. reflexivity.
  - rewrite marks_app, Hm1, Hm2, repeat_app, <- app_assoc. reflexivity.
Qed.

End MoreBudget.

Section MoreOutput.

Context {B : Backend}.

(** ** What is written to the output *)

Lemma shown_app (a b : list event) : shown (a ++ b) = shown a ++ shown b.
Proof. unfold shown. apply flat_map_app. Qed.

Lemma shown_writes (f : Z -> string) (l : list Z) :
  shown (map (fun id => EvWrite Outstream (f id)) l) = map f l.
Proof. induction l as [|a l IH]; cbn; [|rewrite <- IH]; reflexivity. Qed.

Lemma fed_writes (f : Z -> string) (l : list Z) :
  fed (map (fun id => EvWrite Outstream (f id)) l) = [].
Proof. induction l as [|a l IH]; cbn; auto. Qed.

Lemma display_plain (s : state) :
  input_noecho s = false -> con_use_color (glob s) = false ->
  display s
  = set_trace
      (trace s
       ++ map (fun id => EvWrite Outstream (llama_token_to_str (ctx s) id))
            (embd s)
       ++ [EvFlush]) s.
Proof.
  intros Hn Hc. unfold display. rewrite write_tokens_eq, Hn.
  cbn [negb andb]. unfold emit. cbn [trace set_trace input_noecho].
  rewrite Hn. cbn [negb andb].
  destruct (_ =? _).
  - unfold console, set_console_state. cbn [glob set_trace].
    rewrite Hc. cbn. rewrite <- app_assoc. destruct s; reflexivity.
  - cbn. rewrite <- app_assoc. reflexivity.
Qed.

Lemma iteration_echo (s s' : state) :
  interactive (params s) = false ->
  con_use_color (glob s) = false ->
  input_noecho s = false ->
  iteration s = Next s' ->
  exists c tq,
    trace s'
    = trace s ++ tq
      ++ map (fun id => EvWrite Outstream (llama_token_to_str c id)) (embd s')
      ++ [EvFlush]
    /\ fed tq = embd s /\ shown tq = []
    /\ glob s' = glob s /\ input_noecho s' = false.
Proof.
  intros Hoff Hcol Hecho H. unfold iteration, before_eos_check in H.
  apply and_then_next in H. destruct H as (se & H & Hr).
  injection Hr as <-.
  apply and_then_next in H. destruct H as (sb & H & Hc).
  apply and_then_next in H. destruct H as (sf & Hf & Hi).
  assert (Hs : same_session s (outcome_state (predict s >>= fill)))
    by (apply and_then_session; [apply predict_session|apply fill_session]).
  rewrite Hf in Hs. cbn in Hs. destruct Hs as (Hp & _).
  apply and_then_next in Hf. destruct Hf as (sp & Hpr & Hf).
  apply predict_spec in Hpr. destruct Hpr as (c & te & Esp & Hnil & Hcons).
  assert (Hte : fed te = embd s /\ shown te = []).
  { destruct (embd s) as [|a l] eqn:Ee.
    - destruct Hnil as (-> & _); [reflexivity|]. cbn. auto.
    - destruct Hcons as (-> & _); [discriminate|]. cbn.
      rewrite app_nil_r. auto. }
  destruct Hte as (Hfe & Hse).
  assert (Hsp : trace sp = trace s ++ te /\ glob sp = glob s
                /\ input_noecho sp = false)
    by (rewrite Esp; cbn; auto).
  destruct Hsp as (Htp & Hgp & Hnp). clear Esp.
  assert (Hsf : exists ts, trace sf = trace sp ++ ts /\ fed ts = []
                           /\ shown ts = [] /\ glob sf = glob sp
                           /\ input_noecho sf = false).
  { unfold fill in Hf. destruct (_ <=? _).
    - apply sample_next_spec in Hf.
      destruct Hf as (id & c' & old & w & _ & ->).
      eexists [_]. cbn. auto.
    - apply forward_spec in Hf. destruct Hf as (k & _ & -> & _).
      exists []. cbn. rewrite app_nil_r. auto. }
  destruct Hsf as (ts & Htf & Hfs & Hss & Hgf & Hnf).
  rewrite display_plain in Hi by congruence.
  rewrite interact_off in Hi by (cbn; congruence).
  injection Hi as <-.
  assert (Hse' : se = set_trace
                        (trace sf
                         ++ map (fun id =>
                                   EvWrite Outstream
                                     (llama_token_to_str (ctx sf) id))
                              (embd sf)
                         ++ [EvFlush]) sf).
  { revert Hc. unfold eos_check. destruct (back _); [|discriminate].
    cbn [params set_trace]. rewrite Hp, Hoff.
    destruct (_ =? _); try discriminate. intros [= <-]. reflexivity. }
  rewrite refill_off by (rewrite Hse'; cbn; congruence).
  rewrite Hse'. cbn.
  exists (ctx sf), (te ++ ts).
  rewrite Htf, Htp, fed_app, shown_app, Hfe, Hfs, Hse, Hss, app_nil_r.
  repeat split; try congruence.
  rewrite <- !app_assoc. reflexivity.
Qed.

(** X15.  In a session without interactive mode and without colours,
    every token that goes to the backend has been written to the output
    before, by a backend whose token texts do not depend on the context:
    at the head of every iteration the texts written so far are those of
    the tokens evaluated so far followed by the current batch, in this
    order, with nothing else and nothing left out. *)
Theorem every_token_is_echoed (s0 s : state) :
  (forall c c' id, llama_token_to_str c id = llama_token_to_str c' id) ->
  interactive (params s0) = false ->
  con_use_color (glob s0) = false ->
  input_noecho s0 = false ->
  embd s0 = [] ->
  reachable s0 s ->
  exists t,
    trace s = trace s0 ++ t
    /\ shown t = map (llama_token_to_str (ctx s0)) (fed t ++ embd s).
Proof.
  intros Hstr Hoff Hcol Hecho He Hr.
  assert (H : exists t,
             trace s = trace s0 ++ t
             /\ shown t = map (llama_token_to_str (ctx s0)) (fed t ++ embd s)
             /\ glob s = glob s0 /\ input_noecho s = false).
  { induction Hr as [|s s' Hr IH _ Hit].
    - exists []. rewrite He, app_nil_r. cbn. auto.
    - destruct IH as (t & Ht & Hsh & Hg & Hn).
      destruct (reachable_session _ _ Hr) as (Hp & _).
      destruct (iteration_echo s s') as (c & tq & Ht' & Hfq & Hsq & Hg' & Hn');
        try congruence.
      exists (t ++ tq
              ++ map (fun id => EvWrite Outstream (llama_token_to_str c id))
                   (embd s')
              ++ [EvFlush]).
      split; [rewrite Ht', Ht, <- !app_assoc; reflexivity|].
      split; [|split; congruence].
      rewrite !shown_app, !fed_app, shown_writes, fed_writes, Hsh, Hsq, Hfq.
      change (shown [EvFlush]) with (@nil string).
      change (fed [EvFlush]) with (@nil Z).
      rewrite !app_nil_r, !map_app. cbn [app].
      f_equal. apply map_ext. intros id. apply Hstr. }
  destruct H as (t & Ht & Hsh & _). exists t. auto.
Qed.

End MoreOutput.

(** ** The further properties on concrete sessions *)

Lemma continuation_lines_are_joined_witness :
  exists s',
    @read_lines stub (S (String.length (buf continued_input)))
      continued_session EmptyString EmptyString
    = Some (s', (joined ["ab"%string] ++ "cd" ++ nl)%string)
    /\ instream s' = mkIstream "rest" true.
Proof.
  apply (@continuation_lines_are_joined stub continued_session ["ab"%string]
           "cd" "rest").
  - reflexivity.
  - reflexivity.
  - repeat constructor.
  - reflexivity.
  - vm_compute. discriminate.
Defined.

Lemma exhausted_input_reads_empty_line_witness :
  exists s',
    @solicit stub closed_session = Next s'
    /\ embd_inp s' = embd_inp closed_session ++ [13].
Proof.
  destruct (@exhausted_input_reads_empty_line stub closed_session)
    as (s' & Hs & Hq).
  - vm_compute. left. reflexivity.
  - exists s'. split; [exact Hs|]. rewrite Hq. vm_compute. reflexivity.
Defined.

Lemma forwarded_batch_size_witness :
  size (embd (outcome_state (@predict stub stub_start >>= @fill stub))) = 4.
Proof.
  destruct (@forwarded_batch_size stub stub_start
              (outcome_state (@predict stub stub_start >>= @fill stub)))
    as (H & _).
  - vm_compute. discriminate.
  - vm_compute. reflexivity.
  - vm_compute. discriminate.
  - vm_compute. reflexivity.
  - rewrite H. vm_compute. reflexivity.
Defined.

Lemma non_interactive_never_reads_input_witness :
  exists t,
    trace (outcome_state (@run_loop stub 6 stub_start))
    = trace stub_start ++ t
    /\ ~ In MInput (marks t)
    /\ instream (outcome_state (@run_loop stub 6 stub_start))
       = instream stub_start.
Proof.
  apply (@non_interactive_never_reads_input stub 6 stub_start).
  vm_compute. reflexivity.
Defined.

Lemma run_without_budget_does_nothing_witness :
  exists s',
    @run stub 1 stub_context0 no_budget_params hello_input initial_globals
    = Return 0 s'
    /\ marks (trace s')
       = marks
           (trace
              (outcome_state
                 (@run_init stub stub_context0 no_budget_params hello_input
                    initial_globals)))
    /\ n_past s' = 0.
Proof.
  destruct (@run_without_budget_does_nothing stub stub_context0
              no_budget_params hello_input initial_globals
              (outcome_state
                 (@run_init stub stub_context0 no_budget_params hello_input
                    initial_globals)) 0)
    as (s' & t & Hr & Ht & Hm & _ & Hp & _).
  - vm_compute. reflexivity.
  - vm_compute. reflexivity.
  - vm_compute. left. discriminate.
  - exists s'. split; [exact Hr|]. split; [|exact Hp].
    rewrite Ht, marks_app, Hm. apply app_nil_r.
Defined.

Lemma stub_second_reachable : @reachable stub stub_start stub_second.
Proof.
  apply (@reach_next stub stub_start
           (outcome_state (@iteration stub stub_start)) stub_second).
  - apply (@reach_next stub stub_start stub_start
             (outcome_state (@iteration stub stub_start))).
    + apply reach_start.
    + vm_compute. reflexivity.
    + vm_compute. reflexivity.
  - vm_compute. reflexivity.
  - vm_compute. reflexivity.
Defined.

Lemma window_holds_latest_tokens_witness :
  exists t,
    trace stub_second = trace stub_start ++ t
    /\ last_n_tokens stub_second
       = skipn (List.length (fed t ++ embd stub_second))
           (last_n_tokens stub_start ++ fed t ++ embd stub_second).
Proof.
  apply (@window_holds_latest_tokens stub stub_start stub_second).
  - vm_compute. reflexivity.
  - exact stub_second_reachable.
Defined.

Lemma positions_count_tokens_fed_witness :
  exists t,
    trace stub_second = trace stub_start ++ t
    /\ positions_from 0 t
    /\ n_past stub_second = to_int (size (fed t)).
Proof.
  apply (@positions_count_tokens_fed stub stub_start stub_second).
  - vm_compute. reflexivity.
  - vm_compute. reflexivity.
  - exact stub_second_reachable.
Defined.

Lemma budget_is_spent_exactly_witness :
  exists fuel s' t a,
    @run steady_stub fuel stub_context0 steady_params hello_input
      initial_globals
    = Return 0 s'
    /\ trace s'
       = trace
           (outcome_state
              (@run_init steady_stub stub_context0 steady_params hello_input
                 initial_globals))
         ++ t
    /\ marks t
       = repeat MEval a
         ++ MSample :: List.concat (repeat [MEval; MSample] 2).
Proof.
  apply (@budget_is_spent_exactly steady_stub stub_context0 steady_params
           hello_input initial_globals
           (outcome_state
              (@run_init steady_stub stub_context0 steady_params hello_input
                 initial_globals)) 2).
  - intros. reflexivity.
  - intros. vm_compute. discriminate.
  - vm_compute. reflexivity.
  - vm_compute. reflexivity.
  - vm_compute. reflexivity.
  - vm_compute. discriminate.
  - vm_compute. reflexivity.
  - discriminate.
  - vm_compute. discriminate.
  - vm_compute. repeat constructor; discriminate.
Defined.

Lemma every_token_is_echoed_witness :
  exists t,
    trace stub_second = trace stub_start ++ t
    /\ shown t
       = map (@llama_token_to_str stub (ctx stub_start))
           (fed t ++ embd stub_second).
Proof.
  apply (@every_token_is_echoed stub stub_start stub_second).
  - intros. reflexivity.
  - vm_compute. reflexivity.
  - vm_compute. reflexivity.
  - vm_compute. reflexivity.
  - vm_compute. reflexivity.
  - exact stub_second_reachable.
Defined.

Lemma budget_fits_context_witness :
  remaining_tokens stub_start <= 128
  /\ remaining_tokens stub_start + size (embd_inp stub_start) <= 512.
Proof.
  destruct (@budget_fits_context stub stub_context0 stub_params hello_input
              initial_globals stub_start) as (H1 & H2 & _).
  - vm_compute. reflexivity.
  - vm_compute. discriminate.
  - vm_compute. split; discriminate.
  - split; [exact H1|exact H2].
Defined.

Lemma cursor_stays_in_queue_witness :
  0 <= input_consumed (outcome_state (@iteration stub stub_start))
    <= size (embd_inp (outcome_state (@iteration stub stub_start))).
Proof.
  apply (@cursor_stays_in_queue stub stub_start
           (outcome_state (@iteration stub stub_start))).
  - vm_compute. reflexivity.
  - vm_compute. discriminate.
  - vm_compute. split; discriminate.
Defined.
